(* ===== verification/_CoqProject ===== *)
-Q . S2P
Prelude.v
Noise.v
Hex.v
FracHex.v
FloatHex.v
Coords.v
Hash.v
HexMap.v
Population.v
Config.v
Layout.v
Random.v
Renderer.v
Editor.v
EditorState.v
Pipeline.v
