(* ===== verification/Prelude.v ===== *)
(** * A verification development of hex-grids (ripleyaffect/hex-grids)

    The program is a small TypeScript library for hexagonal grids with a
    React editor on top.  Its parts, leaf to root:
    - [src/src/lib/hex/hex.ts], class [Hex]: cube coordinates (q, r, s),
      their vector algebra, distance, rounding, interpolation and line
      drawing;
    - [src/src/lib/hex/coords.ts], [HexOffsetCoord] and [HexDoubledCoord]:
      the offset and doubled coordinate systems and their conversions;
    - [src/src/lib/hex/orientation.ts] and [layout.ts]: the pointy/flat
      orientation matrices and the hex <-> pixel transform with corners;
    - [src/src/lib/hex/maps/index.ts] and [maps/hexagon-map.ts]: a [Map]
      from [Hex] objects to payloads and its hexagon-shaped population;
    - [src/src/lib/noise/noise.ts]: 2D gradient noise [perlin2] over a
      permutation table, with [fade], [lerp], [grad2] and [octave2];
    - [src/src/lib/hex/renderer.ts]: the map renderer that turns a map into
      canvas calls, using the layout;
    - [src/src/components/editor/editor.tsx]: the editor that builds a
      layout, a hexagon map coloured by noise and a gradient, and a
      renderer.

    Files of this development (in dependency order, see _CoqProject), each
    a Module named after the file:
    - [Prelude] (this file): the error type of the code ([js_error]), the
      [result] type of a call that returns or throws, its bind notation
      [let* x := m in k] in [hex_scope], [mapM] and [foldM] (loops whose
      body may throw) with the lemmas that make them total, JavaScript
      array reads [js_index], the integer ranges [zrange] of [for] loops,
      [Math.round] and [Math.floor] on rationals, and the hint databases.
    - [Noise]: [perlin2], [octave2] and their helpers over [Q], the table
      [p] built from a permutation [P] that is a parameter (the file [./p]
      is not in the sources).  Theorems: every table read is in range, the
      value is in [-1, 1], 0 at lattice points, periodic of period 256;
      [octave2] is normalised and is [NaN] exactly for 0 octaves.
    - [Hex]: the class [Hex] on integer coordinates.  A hex is the record
      [hexT Z]; the constructor [new_Hex] performs the exact check
      [q + r + s !== 0] and every operation that calls [new Hex] returns a
      [result].  Theorems: every sequence of operations preserves the sum
      invariant, rotations form the cyclic group of order 6 and permute the
      directions, [len] is the max norm, [distance] is a metric, neighbours
      are at distance 1, and the error paths are as the code has them.
    - [FracHex]: hexes with rational coordinates ([hexT Q]), [round],
      [lerp] and [linedraw], with a setoid [feq] and [Proper] instances.
      Theorems: [round] never throws, is within 2/3 per coordinate and
      fixes lattice hexes; [linedraw] returns [distance + 1] hexes from [a]
      to [b], contiguous (checked exhaustively within distance 3 by a
      reflected boolean check).
    - [FloatHex]: the same class on IEEE binary64 ([PrimFloat]); shows that
      the epsilon nudge of [linedraw] makes the exact constructor check
      throw, that whenever the float [linedraw] returns it agrees with
      [FracHex], and that it does not always return: for huge valid hexes
      [distance] overflows to [Infinity] and the loop [i <= N] never ends
      ([trip_count_f] is [None] there, the model's only non-termination).
    - [Coords]: offset and doubled conversions, their round trips, the
      parity error and the unchecked odd doubled pairs.
    - [Hash]: the [Hex] object with the [id] string its constructor
      caches, [hash()], [toString()] and [equals], and the same methods of
      the two coordinate classes; integers are printed as JavaScript prints
      them (decimal, through the Standard Library's [DecimalString]).
      Theorems: a constructed hex's hash decodes to its coordinates, so
      equal hashes mean [equals] and conversely (also for the coordinate
      classes); after a setter the cached hash is stale.
    - [HexMap]: JavaScript [Map] keyed by object references into a heap of
      [Hex] objects (stdpp [gmap]), the methods of [HexMap] and the
      [HexagonHexMap] constructor as nested [foldM] loops.  Theorems: the
      construction never throws and enumerates the hexagon in loop order,
      [3 size^2 + 3 size + 1] distinct entries, exactly the hexes with
      [len() <= size]; keys are compared by reference; method laws,
      [forEach] included.
    - [Population]: the same constructor loops as a small-step machine
      (points of control [Outer], [Inner], [Done], [Thrown]) over the
      generic runs [star] of this file.  Theorems: the machine is
      deterministic, every run from the start is finite (a measure that
      decreases under the invariant of the loop counters, [acc_by_measure]),
      and the run reaches the big-step result and nothing else.
    - [Config]: [HexMapConfig], its constructor and builders, with the
      callbacks as functions on a state and a canvas context.
    - [Layout]: orientations and [HexLayout] over the reals ([sqrt 3],
      [cos], [sin]).  Theorems: [pixelToHex] inverts [hexToPixel], the
      corners form a regular hexagon, the spec's concrete scenario.
    - [Random]: [Noise.random2] and [remapRandom], with [Math.random] as a
      sequence of samples in [0, 1) passed as state.
    - [Renderer]: [renderMap]/[renderHex] as the trace of canvas calls,
      proved against a layout interface ([Class LayoutOps], [LayoutLaws])
      that [HexLayout] implements; the renderer object with its default
      background [transparent].
    - [Editor]: the colour function of the editor (shade of the noise and
      gradient sampling), the layout and background wiring.
    - [EditorState]: the React life cycle of [HexEditor]: its [useState]
      values, the three [useMemo] with their dependency arrays (objects
      compared by identity, modelled by version numbers), the drawing
      [useEffect] and the setter calls of the handlers, as a step relation
      [ui_step] from [mount].  Theorem: along every run the canvas holds the
      frame computed from scratch from the current state, i.e. the
      dependency arrays of the code are complete.  The map, renderer and
      drawing functions are parameters of the section, so the theorem holds
      for [Editor.getHexColor] and [Renderer.renderMap] in particular.
    - [Pipeline]: those parameters instantiated as the code wires them
      ([HexagonHexMap] with [getHexColor], [HexMapRenderer], [renderMap]).
      Theorem: in every reachable state of the editor the canvas shows the
      background, then the hexagon of radius [gridSize] hex by hex in loop
      order, each in the current layout and shape with its colour from the
      current noise settings and gradient.  The libraries the code calls
      are parameters: the table [P], the pixel of a hex as [perlin2]
      receives it, the gradient parser of the colour picker and the
      [color] package's [mix(..).hex()].

    Modelling conventions.
    - Lattice coordinates are [Z]: every integer below 2^53 is exact in
      binary64.  Fractional values are exact rationals [Q], geometry with
      [sqrt 3] and trigonometry is over [R]; [FloatHex] alone models
      binary64, where rounding changes the outcome of the code.
    - A method that can throw returns [result A]: [Ok a] or [Err e] where
      [e] names the error the source raises ([TypeError] for a property
      read on [undefined]).  [NaN] and [undefined] are [None] of an option.
    - Loops run for their exact trip count ([zrange], [seq]): no fuel is
      needed, and the theorems that a loop returns are unconditional.  The
      one loop whose count can be infinite (the float [linedraw]) returns an
      [option], [None] for a loop that never ends.
    - Stateful behaviour over time (the constructor's loops, the React
      component) is a step relation; its reachable states are the runs
      [star] from the initial state, and invariants are proved with
      [star_invariant].
    - Bounded checks (contiguity of [linedraw], agreement of the float
      model) are boolean functions evaluated by [vm_compute] on all pairs
      of hexes within distance 3 (1369 pairs), through a lemma that turns
      the boolean into the property.

    Not modelled: the JSX markup of the editor, the slider and colour
    picker widgets (the model takes their outputs as setter arguments),
    the navigation bar and page shell ([nav-bar.tsx], [app/layout.tsx],
    markup only), [next.config.js], the browser's canvas and its 2D
    context (assumed present: the effect's [!canvas] and [!ctx] guards
    pass), the generator behind [Math.random] (only its samples are
    modelled), the [color] library that mixes colours (kept as the [Mix]
    call) and the colour picker's gradient parser (parameters of
    [Pipeline]), and the printing of non-integer numbers, which only the
    string forms of fractional hexes would need. *)

From Stdlib Require Import ZArith QArith Qround Qabs Lia Lqa List Bool.
From Stdlib Require Import Morphisms.
Import ListNotations.

(** ** Errors and results *)

(** The errors the library raises.  [hex.ts] and [coords.ts] throw plain
    [Error]s with a message; the constructor names the message:
    - [InvalidCoordinate]: ["q + r + s must be 0"] ([Hex] constructor);
    - [IndexOutOfRange]: ["direction must be between 0 and 5"] and
      ["corner must be between 0 and 5"];
    - [InvalidParity]: ["offset must be EVEN (+1) or ODD (-1)"];
    - [TypeError]: a property read on [undefined], which JavaScript raises
      when the code indexes a table out of range and uses the result. *)
Inductive js_error :=
| InvalidCoordinate
| IndexOutOfRange
| InvalidParity
| TypeError.

Inductive result (A : Type) : Type :=
| Ok (a : A)
| Err (e : js_error).
Arguments Ok {A} a.
Arguments Err {A} e.

Definition bind {A B : Type} (m : result A) (k : A -> result B) : result B :=
  match m with
  | Ok a => k a
  | Err e => Err e
  end.

Declare Scope hex_scope.
Delimit Scope hex_scope with hex.
Notation "'let*' x ':=' m 'in' k" := (bind m (fun x => k))
  (at level 10, x name, m at level 100, k at level 200) : hex_scope.
Open Scope hex_scope.

(** A rational result equal (as a rational) to a value; an error is never
    equal to a value. *)
Definition ok_Qeq (m : result Q) (v : Q) : Prop :=
  match m with
  | Ok x => Qeq x v
  | Err _ => False
  end.
Notation "m ==Ok v" := (ok_Qeq m v) (at level 70) : hex_scope.

(** [results.push(f(x))] for each [x] of a list, stopping at the first
    exception. *)
Fixpoint mapM {A B : Type} (f : A -> result B) (l : list A) : result (list B) :=
  match l with
  | [] => Ok []
  | x :: xs => let* y := f x in let* ys := mapM f xs in Ok (y :: ys)
  end.

Lemma bind_Ok {A B} (a : A) (k : A -> result B) : bind (Ok a) k = k a.
Proof. reflexivity. Qed.

Lemma bind_Err {A B} (e : js_error) (k : A -> result B) : bind (Err e) k = Err e.
Proof. reflexivity. Qed.

Lemma bind_Ok_inv {A B} (m : result A) (k : A -> result B) (b : B) :
  bind m k = Ok b -> exists a, m = Ok a /\ k a = Ok b.
Proof. destruct m; simpl; [eauto | discriminate]. Qed.

Lemma mapM_length {A B} (f : A -> result B) l l' :
  mapM f l = Ok l' -> length l' = length l.
Proof.
  revert l'; induction l as [|x xs IH]; simpl; intros l' H.
  - now inversion H.
  - destruct (f x); simpl in H; [|discriminate].
    destruct (mapM f xs) eqn:E; simpl in H; [|discriminate].
    inversion H; subst; simpl; f_equal; auto.
Qed.

Lemma mapM_ok {A B} (f : A -> result B) (g : A -> B) l :
  (forall x, In x l -> f x = Ok (g x)) -> mapM f l = Ok (map g l).
Proof.
  induction l as [|x xs IH]; simpl; intros H; [reflexivity|].
  rewrite (H x (or_introl eq_refl)); simpl.
  rewrite IH by auto; reflexivity.
Qed.

(** [mapM] of a function that succeeds on every element succeeds, with one
    result per element, each the image of the element at its index. *)
Lemma mapM_total {A B} (f : A -> result B) (l : list A) :
  (forall x, In x l -> exists y, f x = Ok y) ->
  exists l', mapM f l = Ok l' /\ length l' = length l /\
    forall i y, nth_error l' i = Some y -> exists x, nth_error l i = Some x /\ f x = Ok y.
Proof.
  induction l as [|x xs IH]; simpl; intros H.
  - exists []; repeat split. intros [|i] y E; discriminate.
  - destruct (H x (or_introl eq_refl)) as [y Ey]. destruct IH as (ys & E & L & N); [auto|].
    exists (y :: ys). rewrite Ey. simpl. rewrite E. simpl. repeat split; [congruence|].
    intros [|i] z Ez; simpl in *; [inversion Ez; subst; eauto | eauto].
Qed.

(** A loop whose body may throw, threading a state [S] through the
    elements of a list: [for (const a of l) st = f(st, a)]. *)
Fixpoint foldM {S A : Type} (f : S -> A -> result S) (l : list A) (st : S) : result S :=
  match l with
  | [] => Ok st
  | a :: l' => let* st' := f st a in foldM f l' st'
  end.

(** A loop whose every iteration succeeds, keeps an invariant [P] and
    appends [outs a] to an observation [view] of the state succeeds, keeps
    [P] and appends the concatenation of the [outs]. *)
Section FoldMAppend.
Context {S A B : Type} (P : S -> Prop) (view : S -> list B).
Context (f : S -> A -> result S) (outs : A -> list B).
Hypothesis f_step : forall st a, P st ->
  exists st', f st a = Ok st' /\ P st' /\ view st' = view st ++ outs a.

Lemma foldM_append (l : list A) (st : S) :
  P st -> exists st', foldM f l st = Ok st' /\ P st' /\ view st' = view st ++ flat_map outs l.
Proof.
  revert st. induction l as [|a l IH]; intros st H; simpl.
  - exists st. rewrite app_nil_r. auto.
  - destruct (f_step st a H) as (st1 & -> & H1 & V1). rewrite bind_Ok.
    destruct (IH st1 H1) as (st2 & E2 & H2 & V2). exists st2.
    rewrite V2, V1, app_assoc. auto.
Qed.
End FoldMAppend.

(** ** Step relations *)

(** Runs of a step relation [R], their inversion for a deterministic [R],
    and termination from an invariant and a decreasing measure. *)
Section Star.
Context {S : Type} (R : S -> S -> Prop).

Inductive star : S -> S -> Prop :=
  | star_refl (s : S) : star s s
  | star_step (s1 s2 s3 : S) : R s1 s2 -> star s2 s3 -> star s1 s3.

Lemma star_trans (s1 s2 s3 : S) : star s1 s2 -> star s2 s3 -> star s1 s3.
Proof. induction 1; eauto using star. Qed.

Lemma star_one (s1 s2 : S) : R s1 s2 -> star s1 s2.
Proof. eauto using star. Qed.

Definition irreducible (s : S) : Prop := forall s', ~ R s s'.

(** An invariant kept by every step holds along every run. *)
Lemma star_invariant (P : S -> Prop) (s1 s2 : S) :
  (forall a b, P a -> R a b -> P b) -> P s1 -> star s1 s2 -> P s2.
Proof. intros HP H1 Hs. induction Hs; eauto. Qed.

Hypothesis R_det : forall s s1 s2, R s s1 -> R s s2 -> s1 = s2.

(** Two runs from the same state: the one that ends in an irreducible
    state extends the other. *)
Lemma star_star_inv (s s1 s2 : S) : star s s1 -> star s s2 -> irreducible s2 -> star s1 s2.
Proof.
  intros H1. revert s2. induction H1 as [s|s a b Ra Hab IH]; intros s2 H2 Hirr; [exact H2|].
  destruct H2 as [|s c d Rc Hcd]; [exfalso; exact (Hirr _ Ra)|].
  rewrite (R_det _ _ _ Ra Rc) in IH. exact (IH _ Hcd Hirr).
Qed.

Lemma star_irreducible_eq (s1 s2 : S) : star s1 s2 -> irreducible s1 -> s1 = s2.
Proof. intros [|a b c Rab _] Hirr; [reflexivity|exfalso; exact (Hirr _ Rab)]. Qed.

End Star.

(** Every run from a state of an invariant [P] is finite when each step
    keeps [P] and makes a measure [m] decrease. *)
Lemma acc_by_measure {S : Type} (R : S -> S -> Prop) (P : S -> Prop) (m : S -> nat) :
  (forall a b, P a -> R a b -> P b /\ (m b < m a)%nat) ->
  forall a, P a -> Acc (fun y x => R x y) a.
Proof.
  intros HR a. remember (m a) as n eqn:Hn. revert a Hn.
  induction n as [n IH] using (well_founded_induction Wf_nat.lt_wf).
  intros a -> Ha. constructor. intros b Rab. destruct (HR a b Ha Rab) as [Hb Hlt].
  exact (IH (m b) Hlt b eq_refl Hb).
Qed.

(** ** Integers *)

Local Open Scope Z_scope.

(** A JavaScript array read [a[i]] at an integer index: [undefined] (here
    [None]) when [i] is not an index of the array. *)
Definition js_index {A : Type} (l : list A) (i : Z) : option A :=
  if i <? 0 then None else nth_error l (Z.to_nat i).

Lemma js_index_lt {A : Type} (l : list A) (i : Z) :
  0 <= i < Z.of_nat (length l) -> exists v, js_index l i = Some v.
Proof.
  intros H. unfold js_index. destruct (Z.ltb_spec i 0); [lia|].
  destruct (nth_error l (Z.to_nat i)) eqn:E; [eauto|].
  apply nth_error_None in E. lia.
Qed.

(** The values of [x] in [for (let x = lo; x <= hi; x++)], in order. *)
Definition zrange (lo hi : Z) : list Z :=
  map (fun k => lo + Z.of_nat k) (seq 0 (Z.to_nat (hi - lo + 1))).

Lemma in_zrange (lo hi x : Z) : In x (zrange lo hi) <-> lo <= x <= hi.
Proof.
  unfold zrange. rewrite in_map_iff. split.
  - intros (k & <- & Hk). apply in_seq in Hk. lia.
  - intros H. exists (Z.to_nat (x - lo)). split; [lia|]. apply in_seq. lia.
Qed.

Lemma length_zrange (lo hi : Z) : length (zrange lo hi) = Z.to_nat (hi - lo + 1).
Proof. unfold zrange. now rewrite length_map, length_seq. Qed.

Lemma zrange_cons (lo hi : Z) : lo <= hi -> zrange lo hi = lo :: zrange (lo + 1) hi.
Proof.
  intros H. unfold zrange. replace (Z.to_nat (hi - lo + 1)) with (S (Z.to_nat (hi - (lo + 1) + 1))) by lia.
  simpl. f_equal; [lia|]. rewrite <- seq_shift, map_map. apply map_ext. intros; lia.
Qed.

Lemma zrange_nil (lo hi : Z) : hi < lo -> zrange lo hi = [].
Proof. intros H. unfold zrange. replace (Z.to_nat (hi - lo + 1)) with O by lia. reflexivity. Qed.

Lemma NoDup_zrange (lo hi : Z) : NoDup (zrange lo hi).
Proof.
  unfold zrange. apply NoDup_map_NoDup_ForallPairs; [|apply seq_NoDup].
  intros x y _ _ E. lia.
Qed.

(** [q & 1] on an integer is its remainder modulo 2 (JavaScript's [&]
    works on the 32-bit two's complement, whose low bit is that of the
    integer). *)
Lemma Z_land_1 (z : Z) : Z.land z 1 = z mod 2.
Proof. change 1%Z with (Z.ones 1). rewrite Z.land_ones by lia. reflexivity. Qed.

(** ** [Math.round] on rationals *)

Local Open Scope Q_scope.

Lemma inject_Z_sub (x y : Z) : inject_Z (x - y) == inject_Z x - inject_Z y.
Proof. unfold Z.sub. rewrite inject_Z_plus, inject_Z_opp. reflexivity. Qed.

Lemma Qabs_le_eq (x y c : Q) : x == y -> Qabs y <= c -> Qabs x <= c.
Proof. intros H. now rewrite H. Qed.

(** [Math.round(x)] is the integer closest to [x], ties rounded up, that
    is [floor(x + 1/2)] computed exactly. *)
Definition js_round (x : Q) : Z := Qfloor (x + (1#2)).

Lemma js_round_spec (x : Q) :
  inject_Z (js_round x) - (1#2) <= x /\ x < inject_Z (js_round x) + (1#2).
Proof.
  unfold js_round. pose proof (Qfloor_le (x + (1#2))) as H1.
  pose proof (Qlt_floor (x + (1#2))) as H2.
  rewrite inject_Z_plus in H2. change (inject_Z 1) with 1 in H2. split; lra.
Qed.

Lemma js_round_unique (x : Q) (z : Z) :
  inject_Z z - (1#2) <= x -> x < inject_Z z + (1#2) -> js_round x = z.
Proof.
  intros H1 H2. destruct (js_round_spec x) as [H3 H4].
  assert (Hlt1 : inject_Z z < inject_Z (js_round x + 1)).
  { rewrite inject_Z_plus. change (inject_Z 1) with 1. lra. }
  assert (Hlt2 : inject_Z (js_round x) < inject_Z (z + 1)).
  { rewrite inject_Z_plus. change (inject_Z 1) with 1. lra. }
  rewrite <- Zlt_Qlt in Hlt1, Hlt2. lia.
Qed.

Lemma js_round_Z (z : Z) : js_round (inject_Z z) = z.
Proof. apply js_round_unique; lra. Qed.

Lemma js_round_err (x : Q) : Qabs (inject_Z (js_round x) - x) <= (1#2).
Proof. destruct (js_round_spec x). apply Qabs_Qle_condition; lra. Qed.

(** [Math.floor]: the floor is the integer [z] with [z <= x < z + 1]. *)
Lemma Qfloor_unique (x : Q) (z : Z) :
  inject_Z z <= x -> x < inject_Z (z + 1) -> Qfloor x = z.
Proof.
  intros H1 H2. pose proof (Qfloor_le x). pose proof (Qlt_floor x).
  assert (inject_Z z < inject_Z (Qfloor x + 1)) as L1 by lra.
  assert (inject_Z (Qfloor x) < inject_Z (z + 1)) as L2 by lra.
  rewrite <- Zlt_Qlt in L1, L2. lia.
Qed.

Lemma Qfloor_plus_Z (x : Q) (n : Z) : Qfloor (x + inject_Z n) = (Qfloor x + n)%Z.
Proof.
  pose proof (Qfloor_le x). pose proof (Qlt_floor x).
  apply Qfloor_unique; rewrite !inject_Z_plus in *; lra.
Qed.

Lemma Qfloor_frac (x : Q) : 0 <= x - inject_Z (Qfloor x) < 1.
Proof.
  pose proof (Qfloor_le x). pose proof (Qlt_floor x).
  rewrite inject_Z_plus in *. change (inject_Z 1) with 1 in *. split; lra.
Qed.

#[export] Instance js_round_Proper : Proper (Qeq ==> eq) js_round.
Proof. intros x y Hxy. unfold js_round. now rewrite Hxy. Qed.

Create HintDb hexdb.
Create Rewrite HintDb hexrw.
#[export] Hint Rewrite js_round_Z : hexrw.
#[export] Hint Resolve js_round_err : hexdb.
