(* ===== verification/Noise.v ===== *)
(** * Noise: the gradient noise of [src/src/lib/noise/noise.ts]

    [perlin2(x, y)] floors its arguments to a lattice cell, masks the cell
    with [& 255], reads four corner hashes from the table [p] (a
    [Uint8Array(512)] filled with the reference permutation [P] twice),
    and interpolates four axis-aligned gradients with the quintic [fade].
    [octave2] sums a noise function over octaves of doubling frequency and
    halving amplitude and divides by the total amplitude.

    The permutation [P] lives in [./p], which is not part of the sources:
    the whole file is a Section over [P], so every theorem holds for every
    table.  Arithmetic is exact over [Q]; a [Uint8Array] read out of range
    gives [undefined] ([None]); [undefined + Y] is [NaN], and reading at
    [NaN] gives [undefined] again; [undefined & 1] is [0].  [octave2]'s
    division [value / total] is [NaN] ([None]) when [total] is [0]. *)

From Stdlib Require Import ZArith QArith Qround Qabs Qminmax Lia Lqa List Bool.
From S2P Require Import Prelude.
Import ListNotations.

Module Noise.

Local Open Scope Q_scope.

(** ** Arithmetic helpers of the file *)

(** [fade(t) = t * t * t * (t * (t * 6 - 15) + 10)] *)
Definition fade (t : Q) : Q := t * t * t * (t * (t * 6 - 15) + 10).

(** [lerp(t, a, b) = a + t * (b - a)] *)
Definition lerp (t a b : Q) : Q := a + t * (b - a).

(** [ToInt32] of a table entry: the entry itself, or [0] for [undefined]. *)
Definition int_bits (i : option Z) : Z :=
  match i with Some v => v | None => 0%Z end.

(** [grad2(i, x, y)]: [const v = i & 1 ? y : x; return i & 2 ? -v : v] *)
Definition grad2 (i : option Z) (x y : Q) : Q :=
  let v := if (Z.land (int_bits i) 1 =? 0)%Z then x else y in
  if (Z.land (int_bits i) 2 =? 0)%Z then v else - v.

Section Table.

(** The reference permutation [P] of [./p]. *)
Variable P : list Z.

(** Storing a number into a [Uint8Array] keeps it modulo 256 ([ToUint8]);
    [P[i]] is [undefined], hence [0], past the end of [P]. *)
Definition to_uint8 (v : Z) : Z := (v mod 256)%Z.

(** [const p = new Uint8Array(512); for (i < 256) p[i] = p[i + 256] = P[i]] *)
Definition p_table : list Z :=
  let half := map (fun i => to_uint8 (nth i P 0%Z)) (seq 0 256) in half ++ half.

(** [p[k]] where [k] is an integer or [NaN] ([None]). *)
Definition p_read (k : option Z) : option Z :=
  match k with Some i => js_index p_table i | None => None end.

(** [x + Y] where [x] may be [undefined] (the sum is then [NaN]). *)
Definition plus_idx (x : option Z) (Y : Z) : option Z := option_map (fun v => (v + Y)%Z) x.

Definition perlin2 (x y : Q) : Q :=
  let xi := Qfloor x in
  let yi := Qfloor y in
  let X := Z.land xi 255 in
  let Y := Z.land yi 255 in
  let x' := x - inject_Z xi in
  let y' := y - inject_Z yi in
  let u := fade x' in
  let v := fade y' in
  let A := plus_idx (p_read (Some X)) Y in
  let B := plus_idx (p_read (Some (X + 1)%Z)) Y in
  lerp v
    (lerp u (grad2 (p_read A) x' y') (grad2 (p_read B) (x' - 1) y'))
    (lerp u (grad2 (p_read (plus_idx A 1)) x' (y' - 1))
            (grad2 (p_read (plus_idx B 1)) (x' - 1) (y' - 1))).

End Table.

(** ** [octave2] *)

(** The loop of [octave2] from a state ([total], [frequency], [amplitude],
    [value]), [n] iterations to go; it returns [(total, value)]. *)
Fixpoint octave_loop (noise : Q -> Q -> Q) (x y : Q) (n : nat)
    (total frequency amplitude value : Q) : Q * Q :=
  match n with
  | O => (total, value)
  | S n' =>
      octave_loop noise x y n' (total + amplitude) (frequency * 2) (amplitude * (1#2))
                  (value + noise (x * frequency) (y * frequency) * amplitude)
  end.

(** [octave2(noise, octaves)(x, y)]; [None] is the [NaN] of [0 / 0]. *)
Definition octave2 (noise : Q -> Q -> Q) (octaves : nat) (x y : Q) : option Q :=
  let (total, value) := octave_loop noise x y octaves 0 1 1 0 in
  if Qeq_bool total 0 then None else Some (value / total).

(** ** The table *)

Lemma to_uint8_range (v : Z) : (0 <= to_uint8 v < 256)%Z.
Proof. unfold to_uint8. apply Z.mod_pos_bound. lia. Qed.

Lemma p_table_length (P : list Z) : length (p_table P) = 512%nat.
Proof. unfold p_table. rewrite length_app, length_map, length_seq. reflexivity. Qed.

Lemma p_table_range (P : list Z) (v : Z) : In v (p_table P) -> (0 <= v < 256)%Z.
Proof.
  unfold p_table. rewrite in_app_iff, in_map_iff.
  intros [(i & <- & _) | (i & <- & _)]; apply to_uint8_range.
Qed.

(** Every read at an index of [0, 512) finds a byte. *)
Lemma p_read_ok (P : list Z) (k : Z) :
  (0 <= k < 512)%Z -> exists v, p_read P (Some k) = Some v /\ (0 <= v < 256)%Z.
Proof.
  intros Hk. destruct (js_index_lt (p_table P) k) as [v Hv]; [rewrite p_table_length; lia|].
  exists v. split; [exact Hv|]. apply (p_table_range P).
  unfold js_index in Hv. destruct (Z.ltb_spec k 0); [discriminate|].
  exact (nth_error_In _ _ Hv).
Qed.

Lemma land_255_range (z : Z) : (0 <= Z.land z 255 < 256)%Z.
Proof. change 255%Z with (Z.ones 8). rewrite Z.land_ones by lia. apply Z.mod_pos_bound. lia. Qed.

(** The six reads of [perlin2] all hit the table. *)
Lemma perlin2_reads (P : list Z) (X Y : Z) :
  (0 <= X < 256)%Z -> (0 <= Y < 256)%Z ->
  exists pX pX1 a b a1 b1,
    p_read P (Some X) = Some pX /\ p_read P (Some (X + 1)%Z) = Some pX1 /\
    p_read P (Some (pX + Y)%Z) = Some a /\ p_read P (Some (pX1 + Y)%Z) = Some b /\
    p_read P (Some (pX + Y + 1)%Z) = Some a1 /\ p_read P (Some (pX1 + Y + 1)%Z) = Some b1.
Proof.
  intros HX HY.
  destruct (p_read_ok P X) as (pX & E1 & R1); [lia|].
  destruct (p_read_ok P (X + 1)) as (pX1 & E2 & R2); [lia|].
  destruct (p_read_ok P (pX + Y)) as (a & E3 & _); [lia|].
  destruct (p_read_ok P (pX1 + Y)) as (b & E4 & _); [lia|].
  destruct (p_read_ok P (pX + Y + 1)) as (a1 & E5 & _); [lia|].
  destruct (p_read_ok P (pX1 + Y + 1)) as (b1 & E6 & _); [lia|].
  exists pX, pX1, a, b, a1, b1. repeat split; assumption.
Qed.

(** ** Arithmetic lemmas *)

Lemma fade_range (t : Q) : 0 <= t <= 1 -> 0 <= fade t <= 1.
Proof.
  intros [H0 H1]. unfold fade.
  assert (Hp : 0 < t * (t * 6 - 15) + 10) by nra.
  assert (E : 1 - t * t * t * (t * (t * 6 - 15) + 10)
              == (1 - t) * (1 - t) * (1 - t) * (6 * t * t + 3 * t + 1)) by ring.
  assert (0 <= (1 - t) * (1 - t) * (1 - t) * (6 * t * t + 3 * t + 1)).
  { apply Qmult_le_0_compat; [|nra]. apply Qmult_le_0_compat; [|lra]. nra. }
  split; [|lra]. apply Qmult_le_0_compat; [|lra]. apply Qmult_le_0_compat; nra.
Qed.

Lemma lerp_bound (t a b : Q) :
  0 <= t <= 1 -> Qabs a <= 1 -> Qabs b <= 1 -> Qabs (lerp t a b) <= 1.
Proof.
  intros Ht Ha Hb. apply Qabs_Qle_condition in Ha, Hb. apply Qabs_Qle_condition.
  unfold lerp. split; nra.
Qed.

Lemma grad2_bound (i : option Z) (x y : Q) :
  Qabs x <= 1 -> Qabs y <= 1 -> Qabs (grad2 i x y) <= 1.
Proof.
  intros Hx Hy. unfold grad2.
  destruct (Z.land (int_bits i) 1 =? 0)%Z, (Z.land (int_bits i) 2 =? 0)%Z;
    rewrite ?Qabs_opp; assumption.
Qed.

Lemma Qabs_le_1 (x : Q) : -1 <= x <= 1 -> Qabs x <= 1.
Proof. intros H. now apply Qabs_Qle_condition. Qed.

#[export] Instance fade_Proper : Proper (Qeq ==> Qeq) fade.
Proof. intros a b H. unfold fade. now rewrite H. Qed.

#[export] Instance lerp_Proper : Proper (Qeq ==> Qeq ==> Qeq ==> Qeq) lerp.
Proof. intros a b H c d H' e f H''. unfold lerp. now rewrite H, H', H''. Qed.

#[export] Instance grad2_Proper : Proper (eq ==> Qeq ==> Qeq ==> Qeq) grad2.
Proof.
  intros i j <- a b H c d H'. unfold grad2.
  destruct (Z.land (int_bits i) 1 =? 0)%Z, (Z.land (int_bits i) 2 =? 0)%Z;
    rewrite ?H, ?H'; reflexivity.
Qed.

Lemma land_255_period (z k : Z) : Z.land (z + 256 * k) 255 = Z.land z 255.
Proof.
  change 255%Z with (Z.ones 8). rewrite !Z.land_ones by lia.
  change (2 ^ 8)%Z with 256%Z. rewrite Z.mul_comm. apply Z_mod_plus_full.
Qed.

Lemma fade_0 : fade 0 == 0.
Proof. reflexivity. Qed.

Lemma lerp_0 (a b : Q) : lerp 0 a b == a.
Proof. unfold lerp. ring. Qed.

Lemma grad2_0 (i : option Z) : grad2 i 0 0 == 0.
Proof.
  unfold grad2. destruct (Z.land (int_bits i) 1 =? 0)%Z, (Z.land (int_bits i) 2 =? 0)%Z;
    reflexivity.
Qed.

(** The total of [octave2]'s loop grows by the first amplitude at least,
    whatever the noise. *)
Lemma octave_loop_total (noise : Q -> Q -> Q) (x y : Q) (n : nat) :
  forall total frequency amplitude value, 0 < amplitude -> (0 < n)%nat ->
    total + amplitude <= fst (octave_loop noise x y n total frequency amplitude value).
Proof.
  induction n as [|[|n] IH]; intros total frequency amplitude value Ha Hn; [lia| |].
  - apply Qle_refl.
  - eapply Qle_trans; [|apply IH; [lra | lia]]. lra.
Qed.

(** The loop invariant of [octave2]: when the noise is bounded by 1, the
    accumulated value stays bounded by the accumulated total. *)
Lemma octave_loop_bound (noise : Q -> Q -> Q) (x y : Q) (n : nat) :
  (forall a b, Qabs (noise a b) <= 1) ->
  forall total frequency amplitude value,
    0 < amplitude -> Qabs value <= total ->
    let (t', v') := octave_loop noise x y n total frequency amplitude value in Qabs v' <= t'.
Proof.
  intros Hn. induction n as [|n IH]; intros total frequency amplitude value Ha Hv; [exact Hv|].
  apply IH; [lra|]. pose proof (Hn (x * frequency) (y * frequency)) as Hb.
  eapply Qle_trans; [apply Qabs_triangle|]. rewrite Qabs_Qmult, (Qabs_pos amplitude) by lra.
  assert (Qabs (noise (x * frequency) (y * frequency)) * amplitude <= 1 * amplitude)
    by (apply Qmult_le_compat_r; lra).
  lra.
Qed.

Lemma Qdiv_abs_le_1 (v t : Q) : 0 < t -> Qabs v <= t -> Qabs (v / t) <= 1.
Proof.
  intros Ht Hv. apply Qabs_Qle_condition in Hv. apply Qabs_Qle_condition. split.
  - apply Qle_shift_div_l; [exact Ht | lra].
  - apply Qle_shift_div_r; [exact Ht | lra].
Qed.

(** [perlin2] is bounded by 1 (shared by the theorems of [Noise] and of
    its clients). *)
Lemma perlin2_abs_le_1 (P : list Z) (x y : Q) : Qabs (perlin2 P x y) <= 1.
Proof.
  unfold perlin2. cbv zeta.
  destruct (Qfloor_frac x) as [Hx0 Hx1]. destruct (Qfloor_frac y) as [Hy0 Hy1].
  set (x' := x - inject_Z (Qfloor x)) in *. set (y' := y - inject_Z (Qfloor y)) in *.
  assert (Hu := fade_range x' ltac:(lra)). assert (Hv := fade_range y' ltac:(lra)).
  repeat apply lerp_bound; try assumption; apply grad2_bound; apply Qabs_le_1; lra.
Qed.

(** ** Theorems *)

(** C26: Every table read of [perlin2] is in range, for every input: the
    masked cell [X = xi & 255] and [X + 1] index the table, and the hashes
    [A = p[X] + Y], [B = p[X + 1] + Y], [A + 1] and [B + 1] are at most
    [255 + 255 + 1 = 511], so the four corner reads [p[A]], [p[B]],
    [p[A + 1]], [p[B + 1]] are never [undefined]: the table of 512 entries
    makes the lookups wrap without a bounds check. *)
Theorem perlin2_reads_in_range (P : list Z) (x y : Q) :
  let X := Z.land (Qfloor x) 255 in
  let Y := Z.land (Qfloor y) 255 in
  let A := plus_idx (p_read P (Some X)) Y in
  let B := plus_idx (p_read P (Some (X + 1)%Z)) Y in
  p_read P A <> None /\ p_read P B <> None /\
  p_read P (plus_idx A 1) <> None /\ p_read P (plus_idx B 1) <> None.
Proof.
  cbv zeta.
  destruct (perlin2_reads P _ _ (land_255_range (Qfloor x)) (land_255_range (Qfloor y)))
    as (pX & pX1 & a & b & a1 & b1 & E1 & E2 & E3 & E4 & E5 & E6).
  rewrite E1, E2. cbn [plus_idx option_map].
  rewrite E3, E4, E5, E6. repeat split; discriminate.
Qed.

(** C27: [perlin2] stays within [-1, 1] for every input and every
    permutation table: the fractional offsets lie in [0, 1), so each
    gradient [grad2] (one offset, possibly negated) is in [-1, 1], [fade]
    maps [0, 1] into [0, 1], and [lerp] with such a weight is a convex
    combination. *)
Theorem perlin2_bounded (P : list Z) (x y : Q) : Qabs (perlin2 P x y) <= 1.
Proof. apply perlin2_abs_le_1. Qed.

(** At every lattice point [(i, j)] the fractional offsets are 0, the
    fade weights are 0 and the interpolation returns the first corner's
    gradient [grad2(p[A], 0, 0) = 0]: [perlin2(i, j) = 0]. *)
Theorem perlin2_lattice_zero (P : list Z) (i j : Z) :
  perlin2 P (inject_Z i) (inject_Z j) == 0.
Proof.
  unfold perlin2. cbv zeta. rewrite !Qfloor_Z.
  assert (E : forall z, inject_Z z - inject_Z z == 0) by (intros; ring).
  rewrite !E, fade_0, !lerp_0. apply grad2_0.
Qed.

(** [perlin2] has period 256 in both arguments: shifting [x] by
    [256 k] and [y] by [256 l] leaves the masked cell [xi & 255] and the
    fractional offsets unchanged, hence the value. *)
Theorem perlin2_periodic (P : list Z) (x y : Q) (k l : Z) :
  perlin2 P (x + inject_Z (256 * k)) (y + inject_Z (256 * l)) == perlin2 P x y.
Proof.
  unfold perlin2. cbv zeta. rewrite !Qfloor_plus_Z, !land_255_period.
  assert (E : forall (z : Q) n, z + inject_Z (256 * n) - inject_Z (Qfloor z + 256 * n)
                                == z - inject_Z (Qfloor z))
    by (intros; rewrite inject_Z_plus; ring).
  rewrite !E. reflexivity.
Qed.

(** C28: For a base noise bounded by 1 and at least one octave, the octave
    sum is a number (the total amplitude is positive, so [value / total] is
    not [NaN]) and is again bounded by 1: the sum is normalised by the total
    amplitude. *)
Theorem octave2_normalized (noise : Q -> Q -> Q) (n : nat) (x y : Q) :
  (forall a b, Qabs (noise a b) <= 1) -> (0 < n)%nat ->
  exists v, octave2 noise n x y = Some v /\ Qabs v <= 1.
Proof.
  intros Hn Hpos. unfold octave2.
  pose proof (octave_loop_bound noise x y n Hn 0 1 1 0) as L.
  pose proof (octave_loop_total noise x y n 0 1 1 0) as T.
  destruct (octave_loop noise x y n 0 1 1 0) as [t v]. simpl in T.
  specialize (L ltac:(lra) (Qle_refl _)). specialize (T ltac:(lra) Hpos).
  destruct (Qeq_bool t 0) eqn:E; [apply Qeq_bool_eq in E; lra|].
  exists (v / t). split; [reflexivity|]. apply Qdiv_abs_le_1; lra.
Qed.



(** ** Witnesses *)

Lemma octave2_normalized_witness :
  exists v, octave2 (fun _ _ => 1#2) 3 0 0 = Some v /\ Qabs v <= 1.
Proof.
  apply octave2_normalized; [intros; discriminate | apply Nat.lt_0_succ].
Defined.

End Noise.
