(* ===== verification/Hex.v ===== *)
(** * Hex: the class [Hex] of [src/src/lib/hex/hex.ts] on lattice hexes

    A hex is a record of three coordinates [hexT A]; lattice hexes are
    [hexT Z] ([hex]).  The constructor [new_Hex] is the TypeScript
    [constructor(q, r, s?)], which derives [s] when it is absent and throws
    when [q + r + s !== 0].  Every method that builds its result with
    [new Hex] returns a [result hex].  The setters of [q], [r] and [s]
    (lines 25-32) write one coordinate without any check; they are
    modelled as [set_q], [set_r], [set_s].

    The fractional uses of the class ([lerp], [round], [linedraw]) are in
    the file [FracHex]. *)

From Stdlib Require Import ZArith QArith Qabs Lia Lqa List Bool.
From S2P Require Import Prelude.
Import ListNotations.

Module Hex.

Local Open Scope Z_scope.

(** ** Data *)

(** [coords: [number, number, number]] with the getters [q], [r], [s]. *)
Record hexT (A : Type) : Type := mkHexT { q : A; r : A; s : A }.
Arguments mkHexT {A} _ _ _.
Arguments q {A} _.
Arguments r {A} _.
Arguments s {A} _.

Definition hex : Type := hexT Z.

(** The invariant every well-formed hex satisfies. *)
Definition valid (h : hex) : Prop := q h + r h + s h = 0.

Definition validb (h : hex) : bool := q h + r h + s h =? 0.

(** [constructor(q, r, s?)] *)
Definition new_Hex (q0 r0 : Z) (s0 : option Z) : result hex :=
  let s1 := match s0 with Some v => v | None => - q0 - r0 end in
  if q0 + r0 + s1 =? 0 then Ok (mkHexT q0 r0 s1) else Err InvalidCoordinate.

(** The setters [set q(value)], [set r(value)], [set s(value)]: they write
    [coords[i]] and nothing else. *)
Definition set_q (h : hex) (v : Z) : hex := mkHexT v (r h) (s h).
Definition set_r (h : hex) (v : Z) : hex := mkHexT (q h) v (s h).
Definition set_s (h : hex) (v : Z) : hex := mkHexT (q h) (r h) v.

(** [equals(b)] (and its alias [eq]) *)
Definition equals (a b : hex) : bool :=
  (q a =? q b) && (r a =? r b) && (s a =? s b).

(** ** Vector algebra *)

Definition add (a b : hex) : result hex :=
  new_Hex (q a + q b) (r a + r b) (Some (s a + s b)).

Definition subtract (a b : hex) : result hex :=
  new_Hex (q a - q b) (r a - r b) (Some (s a - s b)).

Definition scale (a : hex) (k : Z) : result hex :=
  new_Hex (q a * k) (r a * k) (Some (s a * k)).

Definition rotateLeft (a : hex) : result hex :=
  new_Hex (- s a) (- q a) (Some (- r a)).

Definition rotateRight (a : hex) : result hex :=
  new_Hex (- r a) (- s a) (Some (- q a)).

(** ** Directions *)

Definition directionDeltas : list hex :=
  [mkHexT 1 0 (-1); mkHexT 1 (-1) 0; mkHexT 0 (-1) 1;
   mkHexT (-1) 0 1; mkHexT (-1) 1 0; mkHexT 0 1 (-1)].

Definition diagonalDeltas : list hex :=
  [mkHexT 2 (-1) (-1); mkHexT 1 (-2) 1; mkHexT (-1) (-1) 2;
   mkHexT (-2) 1 1; mkHexT (-1) 2 (-1); mkHexT 1 1 (-2)].

(** [static direction(direction)]: the guard, then the table read (in range
    the read always finds an entry, so the [TypeError] branch is the read
    of [undefined] that never happens for an integer index). *)
Definition direction (d : Z) : result hex :=
  if (d <? 0) || (d >=? 6) then Err IndexOutOfRange
  else match js_index directionDeltas d with
       | Some h => Ok h
       | None => Err TypeError
       end.

(** [neighbor(direction)] = [this.add(Hex.direction(direction))] *)
Definition neighbor (h : hex) (d : Z) : result hex :=
  let* dir := direction d in add h dir.

(** [diagonalNeighbor(direction)] = [this.add(Hex.diagonalDeltas[direction])]:
    there is no guard, and [add] reads [b.q] of [undefined] when the index
    is out of range. *)
Definition diagonalNeighbor (h : hex) (d : Z) : result hex :=
  match js_index diagonalDeltas d with
  | Some dd => add h dd
  | None => Err TypeError
  end.

(** ** Length and distance *)

(** [len()]: [(|q| + |r| + |s|) / 2].  The [isNaN] branch cannot be taken
    on integer coordinates. *)
Definition len (h : hex) : Q :=
  (inject_Z (Z.abs (q h) + Z.abs (r h) + Z.abs (s h)) / inject_Z 2)%Q.

(** [distance(b)] = [this.subtract(b).len()] *)
Definition distance (a b : hex) : result Q :=
  let* d := subtract a b in Ok (len d).

(** The maximum norm, the closed form of [len] on valid hexes. *)
Definition max_norm (h : hex) : Z := Z.max (Z.abs (q h)) (Z.max (Z.abs (r h)) (Z.abs (s h))).

(** ** Lemmas on the constructor *)

Lemma validb_valid (h : hex) : validb h = true <-> valid h.
Proof. unfold validb, valid. apply Z.eqb_eq. Qed.

Lemma new_Hex_Some_ok (q0 r0 s0 : Z) :
  q0 + r0 + s0 = 0 -> new_Hex q0 r0 (Some s0) = Ok (mkHexT q0 r0 s0).
Proof. intros H. unfold new_Hex. now rewrite (proj2 (Z.eqb_eq _ _) H). Qed.

Lemma new_Hex_Some_err (q0 r0 s0 : Z) :
  q0 + r0 + s0 <> 0 -> new_Hex q0 r0 (Some s0) = Err InvalidCoordinate.
Proof. intros H. unfold new_Hex. now rewrite (proj2 (Z.eqb_neq _ _) H). Qed.

Lemma new_Hex_valid (q0 r0 : Z) (os : option Z) (h : hex) :
  new_Hex q0 r0 os = Ok h -> valid h.
Proof.
  unfold new_Hex, valid. destruct (_ =? 0) eqn:E; intros H; inversion H; subst.
  simpl. now apply Z.eqb_eq.
Qed.

(** Closes [new_Hex ... = Ok ...] and [... = Err InvalidCoordinate] goals
    from the validity hypotheses in the context. *)
Ltac hex_new :=
  unfold valid in *;
  first [ rewrite new_Hex_Some_ok by lia
        | rewrite new_Hex_Some_err by lia ].

Lemma equals_spec (a b : hex) : equals a b = true <-> a = b.
Proof.
  destruct a as [qa ra sa], b as [qb rb sb]; unfold equals; simpl.
  rewrite !andb_true_iff, !Z.eqb_eq. split.
  - intros [[-> ->] ->]; reflexivity.
  - intros H; inversion H; auto.
Qed.

Definition hex_eq_dec (a b : hex) : {a = b} + {a <> b}.
Proof. decide equality; apply Z.eq_dec. Defined.

Lemma add_ok (a b : hex) :
  valid a -> valid b -> add a b = Ok (mkHexT (q a + q b) (r a + r b) (s a + s b)).
Proof. intros Ha Hb. unfold add. hex_new. reflexivity. Qed.

Lemma subtract_ok (a b : hex) :
  valid a -> valid b -> subtract a b = Ok (mkHexT (q a - q b) (r a - r b) (s a - s b)).
Proof. intros Ha Hb. unfold subtract. hex_new. reflexivity. Qed.

Lemma direction_table (d : Z) :
  0 <= d < 6 -> exists v, direction d = Ok v /\ In v directionDeltas.
Proof.
  intros Hd. assert (d = 0 \/ d = 1 \/ d = 2 \/ d = 3 \/ d = 4 \/ d = 5) as Hc by lia.
  destruct Hc as [ -> | [ -> | [ -> | [ -> | [ -> | -> ]]]]]; eexists; split; try reflexivity; simpl; tauto.
Qed.

Lemma directionDeltas_valid (v : hex) : In v directionDeltas -> valid v.
Proof. simpl; unfold valid; intros H; repeat destruct H as [<-|H]; simpl; try lia; contradiction. Qed.

Lemma diagonalDeltas_valid (v : hex) : In v diagonalDeltas -> valid v.
Proof. simpl; unfold valid; intros H; repeat destruct H as [<-|H]; simpl; try lia; contradiction. Qed.

Lemma half_double (m : Z) : (inject_Z (m + m) / inject_Z 2 == inject_Z m)%Q.
Proof. rewrite inject_Z_plus. field. Qed.

Lemma len_max_norm (h : hex) : valid h -> (len h == inject_Z (max_norm h))%Q.
Proof.
  unfold valid, len, max_norm; intros H.
  replace (Z.abs (q h) + Z.abs (r h) + Z.abs (s h))
    with (Z.max (Z.abs (q h)) (Z.max (Z.abs (r h)) (Z.abs (s h)))
          + Z.max (Z.abs (q h)) (Z.max (Z.abs (r h)) (Z.abs (s h)))) by lia.
  apply half_double.
Qed.

Lemma max3_triangle (a1 a2 b1 b2 c1 c2 : Z) :
  Z.max (Z.abs (a1 + a2)) (Z.max (Z.abs (b1 + b2)) (Z.abs (c1 + c2)))
  <= Z.max (Z.abs a1) (Z.max (Z.abs b1) (Z.abs c1))
     + Z.max (Z.abs a2) (Z.max (Z.abs b2) (Z.abs c2)).
Proof.
  repeat apply Z.max_lub; (eapply Z.le_trans; [apply Z.abs_triangle|]);
    apply Z.add_le_mono;
    first [ apply Z.le_max_l
          | eapply Z.le_trans; [|apply Z.le_max_r]; first [apply Z.le_max_l | apply Z.le_max_r] ].
Qed.

Lemma max_norm_triangle (a b c : hex) :
  max_norm (mkHexT (q a - q c) (r a - r c) (s a - s c))
  <= max_norm (mkHexT (q a - q b) (r a - r b) (s a - s b))
     + max_norm (mkHexT (q b - q c) (r b - r c) (s b - s c)).
Proof.
  unfold max_norm; simpl.
  replace (q a - q c) with ((q a - q b) + (q b - q c)) by lia.
  replace (r a - r c) with ((r a - r b) + (r b - r c)) by lia.
  replace (s a - s c) with ((s a - s b) + (s b - s c)) by lia.
  apply max3_triangle.
Qed.

Lemma max_norm_zero (h : hex) : max_norm h = 0 -> q h = 0 /\ r h = 0 /\ s h = 0.
Proof.
  unfold max_norm; intros H.
  pose proof (Z.le_max_l (Z.abs (q h)) (Z.max (Z.abs (r h)) (Z.abs (s h)))).
  pose proof (Z.le_max_l (Z.abs (r h)) (Z.abs (s h))).
  pose proof (Z.le_max_r (Z.abs (r h)) (Z.abs (s h))).
  pose proof (Z.le_max_r (Z.abs (q h)) (Z.max (Z.abs (r h)) (Z.abs (s h)))).
  rewrite H in *. repeat split; apply Z.abs_0_iff; pose proof (Z.abs_nonneg (q h));
    pose proof (Z.abs_nonneg (r h)); pose proof (Z.abs_nonneg (s h)); lia.
Qed.

Lemma distance_max_norm (a b : hex) :
  valid a -> valid b ->
  distance a b ==Ok inject_Z (max_norm (mkHexT (q a - q b) (r a - r b) (s a - s b))).
Proof.
  intros Ha Hb. unfold distance. rewrite subtract_ok by assumption. simpl.
  apply len_max_norm. unfold valid in *; simpl; lia.
Qed.

Lemma ok_Qeq_Ok (m : result Q) (x v : Q) : m ==Ok v -> m = Ok x -> (x == v)%Q.
Proof. intros H ->. exact H. Qed.

Lemma neighbor_delta (h v : hex) :
  valid h -> valid v -> bind (add h v) (fun n => distance n h) ==Ok inject_Z (max_norm v).
Proof.
  intros Hh Hv. rewrite add_ok by assumption. simpl.
  assert (Hn : valid (mkHexT (q h + q v) (r h + r v) (s h + s v)))
    by (unfold valid in *; simpl; lia).
  pose proof (distance_max_norm _ _ Hn Hh) as H. simpl in H.
  destruct (distance _ _); [|contradiction]. simpl in *. rewrite H.
  unfold max_norm; simpl. do 3 rewrite Z.add_simpl_l. reflexivity.
Qed.

(** ** Sequences of operations *)

(** The methods of [Hex] that return a hex, as one operation type; a
    program that works on one hex applies a sequence of them. *)
Inductive hex_op : Type :=
| OpAdd (b : hex)
| OpSubtract (b : hex)
| OpScale (k : Z)
| OpRotateLeft
| OpRotateRight
| OpNeighbor (d : Z)
| OpDiagonalNeighbor (d : Z).

Definition apply_op (o : hex_op) (h : hex) : result hex :=
  match o with
  | OpAdd b => add h b
  | OpSubtract b => subtract h b
  | OpScale k => scale h k
  | OpRotateLeft => rotateLeft h
  | OpRotateRight => rotateRight h
  | OpNeighbor d => neighbor h d
  | OpDiagonalNeighbor d => diagonalNeighbor h d
  end.

(** The caller's side of each method's contract: a valid operand and an
    index in [0, 6). *)
Definition op_ok (o : hex_op) : Prop :=
  match o with
  | OpAdd b | OpSubtract b => valid b
  | OpNeighbor d | OpDiagonalNeighbor d => 0 <= d < 6
  | _ => True
  end.

Fixpoint run_ops (os : list hex_op) (h : hex) : result hex :=
  match os with
  | [] => Ok h
  | o :: os' => let* h' := apply_op o h in run_ops os' h'
  end.

Lemma diagonal_table (d : Z) :
  0 <= d < 6 -> exists v, js_index diagonalDeltas d = Some v /\ In v diagonalDeltas.
Proof.
  intros Hd. assert (d = 0 \/ d = 1 \/ d = 2 \/ d = 3 \/ d = 4 \/ d = 5) as Hc by lia.
  destruct Hc as [ -> | [ -> | [ -> | [ -> | [ -> | -> ]]]]]; eexists; split;
    try reflexivity; simpl; tauto.
Qed.

Lemma apply_op_valid (o : hex_op) (h : hex) :
  valid h -> op_ok o -> exists h', apply_op o h = Ok h' /\ valid h'.
Proof.
  intros Hh Ho. destruct o; simpl in *.
  - rewrite add_ok by assumption. eexists; split; [reflexivity|]. unfold valid in *; simpl; lia.
  - rewrite subtract_ok by assumption. eexists; split; [reflexivity|]. unfold valid in *; simpl; lia.
  - unfold scale, valid in *. rewrite new_Hex_Some_ok by nia.
    eexists; split; [reflexivity|]. unfold valid; simpl; nia.
  - unfold rotateLeft. hex_new. eexists; split; [reflexivity|]. unfold valid; simpl; lia.
  - unfold rotateRight. hex_new. eexists; split; [reflexivity|]. unfold valid; simpl; lia.
  - destruct (direction_table d Ho) as [v [Hd Hin]]. unfold neighbor. rewrite Hd. simpl.
    pose proof (directionDeltas_valid v Hin). rewrite add_ok by assumption.
    eexists; split; [reflexivity|]. unfold valid in *; simpl; lia.
  - destruct (diagonal_table d Ho) as [v [Hd Hin]]. unfold diagonalNeighbor. rewrite Hd.
    pose proof (diagonalDeltas_valid v Hin). rewrite add_ok by assumption.
    eexists; split; [reflexivity|]. unfold valid in *; simpl; lia.
Qed.

Lemma rotateLeft_ok (h : hex) :
  valid h -> rotateLeft h = Ok (mkHexT (- s h) (- q h) (- r h)).
Proof. intros H. unfold rotateLeft. hex_new. reflexivity. Qed.

Lemma rotateRight_ok (h : hex) :
  valid h -> rotateRight h = Ok (mkHexT (- r h) (- s h) (- q h)).
Proof. intros H. unfold rotateRight. hex_new. reflexivity. Qed.

Lemma run_ops_cons (o : hex_op) (os : list hex_op) (h h' : hex) :
  apply_op o h = Ok h' -> run_ops (o :: os) h = run_ops os h'.
Proof. intros H. simpl. now rewrite H. Qed.

Lemma not_valid_op_err (o : hex_op) (h : hex) :
  ~ valid h -> op_ok o -> o <> OpScale 0 -> apply_op o h = Err InvalidCoordinate.
Proof.
  unfold valid; intros Hh Ho Hs. destruct o; simpl in *.
  - unfold add, valid in *. hex_new. reflexivity.
  - unfold subtract, valid in *. hex_new. reflexivity.
  - unfold scale. rewrite new_Hex_Some_err; [reflexivity|].
    assert (k <> 0) by congruence. rewrite <- !Z.mul_add_distr_r.
    apply Z.neq_mul_0; tauto.
  - unfold rotateLeft. hex_new. reflexivity.
  - unfold rotateRight. hex_new. reflexivity.
  - destruct (direction_table d Ho) as [v [Hd Hin]]. unfold neighbor. rewrite Hd. simpl.
    pose proof (directionDeltas_valid v Hin). unfold add, valid in *. hex_new. reflexivity.
  - destruct (diagonal_table d Ho) as [v [Hd Hin]]. unfold diagonalNeighbor. rewrite Hd.
    pose proof (diagonalDeltas_valid v Hin). unfold add, valid in *. hex_new. reflexivity.
Qed.

(** Rotating [n] times to the left. *)
Fixpoint rotate_n (n : nat) (h : hex) : result hex :=
  match n with
  | O => Ok h
  | S n' => let* h' := rotateLeft h in rotate_n n' h'
  end.

(** ** Theorems *)



(** [rotateLeft] maps the direction vector
    [d] to the direction vector [d + 1 (mod 6)]: the table
    [directionDeltas] is listed counter-clockwise in steps of 60 degrees. *)
Theorem rotateLeft_direction (d : Z) :
  0 <= d < 6 -> bind (direction d) rotateLeft = direction ((d + 1) mod 6).
Proof.
  intros Hd. assert (d = 0 \/ d = 1 \/ d = 2 \/ d = 3 \/ d = 4 \/ d = 5) as Hc by lia.
  destruct Hc as [ -> | [ -> | [ -> | [ -> | [ -> | -> ]]]]]; reflexivity.
Qed.

(** On a valid hex, [rotateRight] undoes
    [rotateLeft], and six left rotations give the hex back. *)
Theorem rotate_order_6 (h : hex) :
  valid h -> bind (rotateLeft h) rotateRight = Ok h /\ rotate_n 6 h = Ok h.
Proof.
  destruct h as [a b c]; intros H. split.
  - rewrite rotateLeft_ok by exact H. simpl.
    rewrite rotateRight_ok by (unfold valid in *; simpl in *; lia). simpl.
    now rewrite !Z.opp_involutive.
  - simpl. repeat (rewrite rotateLeft_ok by (unfold valid in *; simpl in *; lia); simpl).
    now rewrite !Z.opp_involutive.
Qed.

(** Rotation preserves hex distance: for valid
    hexes [a], [b], the distance between their left rotations is the
    distance between [a] and [b]. *)
Theorem rotateLeft_isometry (a b a' b' : hex) :
  valid a -> valid b -> rotateLeft a = Ok a' -> rotateLeft b = Ok b' ->
  distance a' b' = distance a b.
Proof.
  destruct a as [qa ra sa], b as [qb rb sb]; unfold valid; simpl; intros Ha Hb Ea Eb.
  unfold rotateLeft in Ea, Eb. simpl in Ea, Eb.
  rewrite new_Hex_Some_ok in Ea, Eb by lia. inversion Ea; inversion Eb; subst.
  unfold distance, subtract; simpl.
  rewrite !new_Hex_Some_ok by lia. simpl. unfold len; simpl.
  do 2 f_equal. f_equal. lia.
Qed.

(** C19: On a valid hex, [len()] computed as
    (|q| + |r| + |s|) / 2 equals the maximum norm max(|q|, |r|, |s|), an
    integer. *)
Theorem len_equiv_max_norm (h : hex) :
  valid h -> (len h == inject_Z (max_norm h))%Q.
Proof. apply len_max_norm. Qed.

(** C18: [distance] on valid hexes never throws and is
    a metric: it is zero exactly between equal hexes, symmetric, and
    satisfies the triangle inequality. *)
Theorem distance_is_metric (a b c : hex) :
  valid a -> valid b -> valid c ->
  exists dab dba dbc dac,
    distance a b = Ok dab /\ distance b a = Ok dba /\
    distance b c = Ok dbc /\ distance a c = Ok dac /\
    ((dab == 0)%Q <-> a = b) /\ (dab == dba)%Q /\ (dac <= dab + dbc)%Q.
Proof.
  intros Ha Hb Hc.
  pose proof (distance_max_norm a b Ha Hb) as Eab.
  pose proof (distance_max_norm b a Hb Ha) as Eba.
  pose proof (distance_max_norm b c Hb Hc) as Ebc.
  pose proof (distance_max_norm a c Ha Hc) as Eac.
  destruct (distance a b) as [dab|]; [|contradiction].
  destruct (distance b a) as [dba|]; [|contradiction].
  destruct (distance b c) as [dbc|]; [|contradiction].
  destruct (distance a c) as [dac|]; [|contradiction].
  simpl in *. exists dab, dba, dbc, dac. do 4 (split; [reflexivity|]).
  rewrite Eab, Eba, Ebc, Eac. pose proof (max_norm_triangle a b c) as T.
  destruct a as [qa ra sa], b as [qb rb sb]; simpl in *.
  split; [|split].
  - change 0%Q with (inject_Z 0). rewrite inject_Z_injective. split.
    + intros E. destruct (max_norm_zero _ E) as [E1 [E2 E3]]; simpl in *.
      f_equal; lia.
    + intros E; inversion E; subst. unfold max_norm; simpl. now rewrite !Z.sub_diag.
  - rewrite inject_Z_injective. unfold max_norm; simpl.
    rewrite <- (Z.abs_opp (qb - qa)), <- (Z.abs_opp (rb - ra)), <- (Z.abs_opp (sb - sa)).
    do 3 rewrite Z.opp_sub_distr, Z.add_comm, Z.add_opp_r. reflexivity.
  - rewrite <- inject_Z_plus, <- Zle_Qle. exact T.
Qed.

(** C17: For every valid hex [h] and direction [d] in
    [0, 6), [h.neighbor(d)] succeeds and is at distance exactly 1 from [h];
    [h.diagonalNeighbor(d)] succeeds and is at distance exactly 2. *)
Theorem neighbor_distance_1 (h : hex) (d : Z) :
  valid h -> 0 <= d < 6 ->
  bind (neighbor h d) (fun n => distance n h) ==Ok 1 /\
  bind (diagonalNeighbor h d) (fun n => distance n h) ==Ok 2.
Proof.
  intros Hh Hd. split.
  - destruct (direction_table d Hd) as [v [E Hin]]. unfold neighbor. rewrite E. simpl.
    pose proof (neighbor_delta h v Hh (directionDeltas_valid v Hin)) as H.
    replace (max_norm v) with 1 in H; [exact H|].
    simpl in Hin; repeat destruct Hin as [<-|Hin]; try reflexivity; contradiction.
  - destruct (diagonal_table d Hd) as [v [E Hin]]. unfold diagonalNeighbor. rewrite E.
    pose proof (neighbor_delta h v Hh (diagonalDeltas_valid v Hin)) as H.
    replace (max_norm v) with 2 in H; [exact H|].
    simpl in Hin; repeat destruct Hin as [<-|Hin]; try reflexivity; contradiction.
Qed.

(** C20: An index outside [0, 6) makes [direction]
    and [neighbor] throw the range error, while [diagonalNeighbor], which
    has no guard, reads [undefined] from its table and fails with a
    [TypeError] instead. *)
Theorem index_out_of_range (h : hex) (d : Z) :
  d < 0 \/ 6 <= d ->
  direction d = Err IndexOutOfRange /\ neighbor h d = Err IndexOutOfRange /\
  diagonalNeighbor h d = Err TypeError.
Proof.
  intros Hd.
  assert (Hg : ((d <? 0) || (d >=? 6))%bool = true)
    by (apply orb_true_iff; rewrite Z.ltb_lt, Z.geb_le; lia).
  unfold neighbor, direction, diagonalNeighbor. rewrite Hg. simpl.
  repeat split. unfold js_index.
  destruct (Z.ltb_spec d 0); [reflexivity|].
  rewrite (proj2 (nth_error_None _ _)); [reflexivity|]. simpl. lia.
Qed.

(** ** Witnesses at concrete inputs *)

Definition h_1m2 : hex := mkHexT 1 (-2) 1.






Lemma len_equiv_max_norm_witness : (len h_1m2 == inject_Z 2)%Q.
Proof. apply (len_equiv_max_norm h_1m2). reflexivity. Defined.

Lemma distance_is_metric_witness :
  exists dab dba dbc dac,
    distance h_1m2 (mkHexT 0 0 0) = Ok dab /\ distance (mkHexT 0 0 0) h_1m2 = Ok dba /\
    distance (mkHexT 0 0 0) (mkHexT 3 0 (-3)) = Ok dbc /\
    distance h_1m2 (mkHexT 3 0 (-3)) = Ok dac /\
    ((dab == 0)%Q <-> h_1m2 = mkHexT 0 0 0) /\ (dab == dba)%Q /\ (dac <= dab + dbc)%Q.
Proof. apply distance_is_metric; reflexivity. Defined.

Lemma neighbor_distance_1_witness :
  bind (neighbor h_1m2 4) (fun n => distance n h_1m2) ==Ok 1 /\
  bind (diagonalNeighbor h_1m2 4) (fun n => distance n h_1m2) ==Ok 2.
Proof. apply neighbor_distance_1; [reflexivity | lia]. Defined.

Lemma index_out_of_range_witness :
  direction 6 = Err IndexOutOfRange /\ neighbor h_1m2 6 = Err IndexOutOfRange /\
  diagonalNeighbor h_1m2 6 = Err TypeError.
Proof. apply index_out_of_range. lia. Defined.

End Hex.
