(* ===== verification/FracHex.v ===== *)
(** * FracHex: fractional hexes, [round], [lerp] and [linedraw] of [hex.ts]

    The class [Hex] also holds fractional coordinates: [lerp] builds them
    and [round] snaps them back to the lattice; [linedraw] combines both.
    Here a fractional hex is [hexT Q] ([fhex]) with exact rational
    arithmetic; the constructor [new_FHex] performs the source's exact test
    [q + r + s !== 0] on rationals.  The nudge constant [1e-6] is the exact
    rational 1/1000000 (the file [FloatHex] looks at the binary64 values).

    [linedraw]'s loop [for (let i = 0; i <= N; i++)] is modelled by its
    exact trip count [floor(N) + 1] (no fuel): [N] is a length, never
    negative. *)

From Stdlib Require Import ZArith QArith Qround Qabs Qminmax Lia Lqa List Bool.
From Stdlib Require Import Morphisms Setoid.
From S2P Require Import Prelude Hex.
Import ListNotations.
Import Hex.

Module FracHex.

Local Open Scope Q_scope.

(** ** Data *)

Definition fhex : Type := hexT Q.

(** A lattice hex seen as a fractional one. *)
Definition to_frac (h : hex) : fhex :=
  mkHexT (inject_Z (q h)) (inject_Z (r h)) (inject_Z (s h)).

(** The sum invariant on rationals. *)
Definition fvalid (f : fhex) : Prop := q f + r f + s f == 0.

(** Equality of fractional hexes as rationals, the equivalence under which
    the operations below are morphisms. *)
Definition feq (x y : fhex) : Prop := q x == q y /\ r x == r y /\ s x == s y.

(** [constructor(q, r, s?)] on fractional coordinates. *)
Definition new_FHex (q0 r0 : Q) (s0 : option Q) : result fhex :=
  let s1 := match s0 with Some v => v | None => - q0 - r0 end in
  if Qeq_bool (q0 + r0 + s1) 0 then Ok (mkHexT q0 r0 s1) else Err InvalidCoordinate.

(** ** [round()] *)

Definition Qltb (x y : Q) : bool := negb (Qle_bool y x).

Definition round (h : fhex) : result hex :=
  let qi := js_round (q h) in
  let ri := js_round (r h) in
  let si := js_round (s h) in
  let q_diff := Qabs (inject_Z qi - q h) in
  let r_diff := Qabs (inject_Z ri - r h) in
  let s_diff := Qabs (inject_Z si - s h) in
  if Qltb r_diff q_diff && Qltb s_diff q_diff then new_Hex (- ri - si)%Z ri (Some si)
  else if Qltb s_diff r_diff then new_Hex qi (- qi - si)%Z (Some si)
  else new_Hex qi ri (Some (- qi - ri)%Z).

(** ** [lerp(b, t)] *)

Definition lerp (a b : fhex) (t : Q) : result fhex :=
  new_FHex (q a * (1 - t) + q b * t) (r a * (1 - t) + r b * t)
           (Some (s a * (1 - t) + s b * t)).

(** ** [linedraw(b)] *)

Definition eps : Q := 1 # 1000000.

(** [new Hex(this.q + 1e-6, this.r + 1e-6, this.s - 2e-6)] *)
Definition nudge (h : hex) : result fhex :=
  new_FHex (inject_Z (q h) + eps) (inject_Z (r h) + eps) (Some (inject_Z (s h) - 2 * eps)).

(** The number of iterations of [for (let i = 0; i <= N; i++)]. *)
Definition trip_count (N : Q) : nat := Z.to_nat (Qfloor N + 1).

Definition linedraw (a b : hex) : result (list hex) :=
  let* N := distance a b in
  let* a_nudge := nudge a in
  let* b_nudge := nudge b in
  let step := 1 / Qmax N 1 in
  mapM (fun i => let* p := lerp a_nudge b_nudge (step * inject_Z (Z.of_nat i)) in round p)
       (seq 0 (trip_count N)).

(** ** The setoid of fractional hexes *)

#[export] Instance feq_Equivalence : Equivalence feq.
Proof.
  split.
  - intros x; repeat split; reflexivity.
  - intros x y (H1 & H2 & H3); repeat split; symmetry; assumption.
  - intros x y z (H1 & H2 & H3) (H4 & H5 & H6); repeat split; etransitivity; eauto.
Qed.

#[export] Instance Qltb_Proper : Proper (Qeq ==> Qeq ==> eq) Qltb.
Proof.
  intros a b Hab c d Hcd. unfold Qltb. f_equal.
  apply eq_true_iff_eq. rewrite !Qle_bool_iff, Hab, Hcd. reflexivity.
Qed.

Lemma round_diff_Proper (x y : Q) :
  x == y -> Qabs (inject_Z (js_round x) - x) == Qabs (inject_Z (js_round y) - y).
Proof. intros H. rewrite (js_round_Proper x y H), H. reflexivity. Qed.

#[export] Instance round_Proper : Proper (feq ==> eq) round.
Proof.
  intros [q1 r1 s1] [q2 r2 s2] (H1 & H2 & H3); cbn [q r s] in *. unfold round; cbn [q r s].
  rewrite (Qltb_Proper _ _ (round_diff_Proper _ _ H2) _ _ (round_diff_Proper _ _ H1)),
    (Qltb_Proper _ _ (round_diff_Proper _ _ H3) _ _ (round_diff_Proper _ _ H1)),
    (Qltb_Proper _ _ (round_diff_Proper _ _ H3) _ _ (round_diff_Proper _ _ H2)).
  rewrite (js_round_Proper _ _ H1), (js_round_Proper _ _ H2), (js_round_Proper _ _ H3).
  reflexivity.
Qed.

Lemma Qltb_iff (x y : Q) : Qltb x y = true <-> x < y.
Proof.
  unfold Qltb. rewrite negb_true_iff, <- not_true_iff_false, Qle_bool_iff.
  split; [apply Qnot_le_lt | apply Qlt_not_le].
Qed.

Lemma new_FHex_ok (q0 r0 s0 : Q) :
  q0 + r0 + s0 == 0 -> new_FHex q0 r0 (Some s0) = Ok (mkHexT q0 r0 s0).
Proof. intros H. unfold new_FHex. now rewrite (proj2 (Qeq_bool_iff _ _) H). Qed.

Lemma to_frac_fvalid (h : hex) : valid h -> fvalid (to_frac h).
Proof.
  unfold valid, fvalid, to_frac; simpl; intros H.
  rewrite <- !inject_Z_plus, H. reflexivity.
Qed.

(** ** Lemmas on [round] *)

(** The three branches of [round]: which coordinate is recomputed. *)
Lemma round_spec (f : fhex) :
  let qi := js_round (q f) in let ri := js_round (r f) in let si := js_round (s f) in
  let qd := Qabs (inject_Z qi - q f) in let rd := Qabs (inject_Z ri - r f) in
  let sd := Qabs (inject_Z si - s f) in
  (rd < qd /\ sd < qd /\ round f = Ok (mkHexT (- ri - si)%Z ri si)) \/
  (qd <= rd /\ sd < rd /\ round f = Ok (mkHexT qi (- qi - si)%Z si)) \/
  (qd <= sd /\ rd <= sd /\ round f = Ok (mkHexT qi ri (- qi - ri)%Z)).
Proof.
  cbv zeta. unfold round.
  destruct (Qltb (Qabs (inject_Z (js_round (r f)) - r f)) (Qabs (inject_Z (js_round (q f)) - q f))) eqn:E1;
  destruct (Qltb (Qabs (inject_Z (js_round (s f)) - s f)) (Qabs (inject_Z (js_round (q f)) - q f))) eqn:E2;
  destruct (Qltb (Qabs (inject_Z (js_round (s f)) - s f)) (Qabs (inject_Z (js_round (r f)) - r f))) eqn:E3;
  simpl; rewrite ?Qltb_iff in *; unfold Qltb in *; rewrite ?negb_false_iff, ?Qle_bool_iff in *;
  rewrite new_Hex_Some_ok by lia;
  first [ left; split; [|split]; auto; fail
        | right; left; split; [|split]; auto; lra; fail
        | right; right; split; [|split]; auto; lra ].
Qed.

(** Splits every [Qabs x] of the context and goal on the sign of [x]. *)
Ltac qabs_cases :=
  repeat match goal with
  | |- context [Qabs ?x] =>
      destruct (Qlt_le_dec x 0);
      [rewrite (Qabs_neg x) by lra | rewrite (Qabs_pos x) by lra]
  | H : context [Qabs ?x] |- _ =>
      destruct (Qlt_le_dec x 0);
      [rewrite (Qabs_neg x) in H by lra | rewrite (Qabs_pos x) in H by lra]
  end.

(** Three rounding errors of at most 1/2 whose sum is an integer sum to
    -1, 0 or 1. *)
Lemma round_sum_cases (e1 e2 e3 : Q) (k : Z) :
  Qabs e1 <= 1#2 -> Qabs e2 <= 1#2 -> Qabs e3 <= 1#2 -> e1 + e2 + e3 == inject_Z k ->
  (k = -1 \/ k = 0 \/ k = 1)%Z.
Proof.
  intros H1 H2 H3 Hk. apply Qabs_Qle_condition in H1, H2, H3.
  assert (inject_Z k < inject_Z 2 /\ inject_Z (-2) < inject_Z k) as [A B].
  { change (inject_Z 2) with 2. change (inject_Z (-2)) with (-2). lra. }
  rewrite <- Zlt_Qlt in A, B. lia.
Qed.

(** The coordinate with the largest rounding error, recomputed from the two
    others, ends up within 2/3 of the exact value. *)
Lemma recompute_bound (e1 e2 e3 : Q) (k : Z) :
  Qabs e1 <= 1#2 -> Qabs e2 <= 1#2 -> Qabs e3 <= 1#2 ->
  Qabs e2 <= Qabs e1 -> Qabs e3 <= Qabs e1 -> e1 + e2 + e3 == inject_Z k ->
  Qabs (e1 - inject_Z k) <= 2#3.
Proof.
  intros H1 H2 H3 H21 H31 Hk.
  destruct (round_sum_cases e1 e2 e3 k H1 H2 H3 Hk) as [-> | [-> | ->]];
    change (inject_Z (-1)) with (-1) in *; change (inject_Z 0) with 0 in *;
    change (inject_Z 1) with 1 in *; qabs_cases; lra.
Qed.

Lemma round_err (x : Q) : Qabs (inject_Z (js_round x) - x) <= 1#2.
Proof. apply js_round_err. Qed.

(** ** Theorems on [round] *)

(** C9: [round()] never throws, whatever the
    fractional hex, and always returns a hex with q + r + s = 0: the
    recomputed coordinate restores the invariant. *)
Theorem round_total_valid (f : fhex) : exists h, round f = Ok h /\ valid h.
Proof.
  destruct (round_spec f) as [(_ & _ & E) | [(_ & _ & E) | (_ & _ & E)]];
    rewrite E; eexists; split; try reflexivity; unfold valid; simpl; lia.
Qed.

(** C8: [round()] is the identity on lattice hexes: a
    valid hex with integer coordinates rounds to itself. *)
Theorem round_lattice (h : hex) : valid h -> round (to_frac h) = Ok h.
Proof.
  destruct h as [a b c]; unfold valid; simpl; intros H.
  destruct (round_spec (to_frac (mkHexT a b c))) as [(A & B & E) | [(A & B & E) | (A & B & E)]];
    cbn [q r s to_frac] in *; rewrite !js_round_Z in *; rewrite E;
    try (exfalso; qabs_cases; lra).
  replace (- a - b)%Z with c by lia. reflexivity.
Qed.

(** C7: On a fractional hex with q + r + s = 0
    (what [lerp] produces), every coordinate of [round()]'s result is
    within 2/3 of the exact coordinate: the two kept coordinates within
    1/2 (they are [Math.round]ed) and the recomputed one within 2/3. *)
Theorem round_within_two_thirds (f : fhex) (h : hex) :
  fvalid f -> round f = Ok h ->
  Qabs (inject_Z (q h) - q f) <= 2#3 /\ Qabs (inject_Z (r h) - r f) <= 2#3 /\
  Qabs (inject_Z (s h) - s f) <= 2#3.
Proof.
  unfold fvalid. intros Hf Eh.
  pose proof (round_err (q f)) as Eq. pose proof (round_err (r f)) as Er.
  pose proof (round_err (s f)) as Es.
  set (k := (js_round (q f) + js_round (r f) + js_round (s f))%Z).
  assert (Hk : (inject_Z (js_round (q f)) - q f) + (inject_Z (js_round (r f)) - r f)
               + (inject_Z (js_round (s f)) - s f) == inject_Z k)
    by (unfold k; rewrite !inject_Z_plus; lra).
  destruct (round_spec f) as [(A & B & E) | [(A & B & E) | (A & B & E)]];
    rewrite E in Eh; inversion Eh; subst h; cbn [q r s]; clear Eh E.
  - split; [|split; lra].
    apply Qabs_le_eq with (y := (inject_Z (js_round (q f)) - q f) - inject_Z k);
      [unfold k; rewrite !inject_Z_sub, !inject_Z_plus, inject_Z_opp; ring|].
    apply (recompute_bound _ (inject_Z (js_round (r f)) - r f) (inject_Z (js_round (s f)) - s f) k); auto; lra.
  - split; [lra|split; [|lra]].
    apply Qabs_le_eq with (y := (inject_Z (js_round (r f)) - r f) - inject_Z k);
      [unfold k; rewrite !inject_Z_sub, !inject_Z_plus, inject_Z_opp; ring|].
    apply (recompute_bound _ (inject_Z (js_round (q f)) - q f) (inject_Z (js_round (s f)) - s f) k);
      auto; lra.
  - split; [lra|split; [lra|]].
    apply Qabs_le_eq with (y := (inject_Z (js_round (s f)) - s f) - inject_Z k);
      [unfold k; rewrite !inject_Z_sub, !inject_Z_plus, inject_Z_opp; ring|].
    apply (recompute_bound _ (inject_Z (js_round (q f)) - q f) (inject_Z (js_round (r f)) - r f) k);
      auto; lra.
Qed.

(** ** Lemmas on [lerp] and the nudge *)

Lemma round_some (f : fhex) : exists h, round f = Ok h.
Proof.
  destruct (round_spec f) as [(_ & _ & E) | [(_ & _ & E) | (_ & _ & E)]]; rewrite E; eauto.
Qed.

Lemma lerp_ok (a b : fhex) (t : Q) :
  fvalid a -> fvalid b ->
  lerp a b t = Ok (mkHexT (q a * (1 - t) + q b * t) (r a * (1 - t) + r b * t)
                          (s a * (1 - t) + s b * t)).
Proof.
  unfold fvalid; intros Ha Hb. apply new_FHex_ok.
  transitivity ((q a + r a + s a) * (1 - t) + (q b + r b + s b) * t); [ring|].
  rewrite Ha, Hb. ring.
Qed.

Lemma lerp_ends (a b p : fhex) (t : Q) :
  fvalid a -> fvalid b -> lerp a b t = Ok p ->
  (t == 0 -> feq p a) /\ (t == 1 -> feq p b).
Proof.
  intros Ha Hb E. rewrite lerp_ok in E by assumption. injection E as <-.
  split; intros Ht; repeat split; cbn [q r s]; rewrite Ht; ring.
Qed.

(** The nudged endpoint of [linedraw]. *)
Definition nudged (h : hex) : fhex :=
  mkHexT (inject_Z (q h) + eps) (inject_Z (r h) + eps) (inject_Z (s h) - 2 * eps).

Lemma nudge_ok (h : hex) : valid h -> nudge h = Ok (nudged h) /\ fvalid (nudged h).
Proof.
  unfold valid, fvalid, nudge, nudged; intros H.
  assert (Hs : inject_Z (q h) + eps + (inject_Z (r h) + eps) + (inject_Z (s h) - 2 * eps) == 0).
  { transitivity (inject_Z (q h + r h + s h)); [rewrite !inject_Z_plus; ring|].
    rewrite H. reflexivity. }
  split; [apply new_FHex_ok, Hs | exact Hs].
Qed.

Lemma round_nudged (h : hex) : valid h -> round (nudged h) = Ok h.
Proof.
  destruct h as [a b c]; unfold valid, nudged; cbn [q r s]; intros H.
  assert (Ea : js_round (inject_Z a + eps) = a) by (apply js_round_unique; unfold eps; lra).
  assert (Eb : js_round (inject_Z b + eps) = b) by (apply js_round_unique; unfold eps; lra).
  assert (Ec : js_round (inject_Z c - 2 * eps) = c) by (apply js_round_unique; unfold eps; lra).
  destruct (round_spec (mkHexT (inject_Z a + eps) (inject_Z b + eps) (inject_Z c - 2 * eps)))
    as [(A & B & E) | [(A & B & E) | (A & B & E)]];
    cbn [q r s] in *; rewrite Ea, Eb, Ec in *;
    try (exfalso; qabs_cases; unfold eps in *; lra).
  rewrite E. replace (- a - b)%Z with c by lia. reflexivity.
Qed.

Lemma max_norm_nonneg (h : hex) : (0 <= max_norm h)%Z.
Proof. unfold max_norm. pose proof (Z.abs_nonneg (q h)). lia. Qed.

Lemma trip_count_int (N : Q) (m : Z) :
  (0 <= m)%Z -> N == inject_Z m -> trip_count N = S (Z.to_nat m).
Proof.
  intros Hm HN. unfold trip_count. rewrite HN, Qfloor_Z. lia.
Qed.

(** [linedraw] on valid hexes: it returns one hex per index [0 .. n], [n]
    the distance, each the rounding of the interpolation at [i / max(n,1)]
    between the nudged endpoints. *)
Lemma linedraw_spec (a b : hex) :
  valid a -> valid b ->
  let n := max_norm (mkHexT (q a - q b)%Z (r a - r b)%Z (s a - s b)%Z) in
  exists N l, distance a b = Ok N /\ linedraw a b = Ok l /\ N == inject_Z n /\
    length l = S (Z.to_nat n) /\
    forall i h, nth_error l i = Some h ->
      (i <= Z.to_nat n)%nat /\
      exists p, lerp (nudged a) (nudged b) (1 / Qmax N 1 * inject_Z (Z.of_nat i)) = Ok p /\
                round p = Ok h.
Proof.
  intros Ha Hb n. pose proof (distance_max_norm a b Ha Hb) as Hd.
  destruct (distance a b) as [N|] eqn:EN; [|contradiction]. simpl in Hd.
  destruct (nudge_ok a Ha) as [Na Va]. destruct (nudge_ok b Hb) as [Nb Vb].
  unfold linedraw. rewrite EN, Na, Nb. simpl.
  edestruct (mapM_total (fun i => let* p := lerp (nudged a) (nudged b)
                                     (1 / Qmax N 1 * inject_Z (Z.of_nat i)) in round p)
               (seq 0 (trip_count N))) as (l & El & Ll & Nl).
  { intros i _. rewrite lerp_ok by assumption. simpl. apply round_some. }
  exists N, l. rewrite El. split; [reflexivity|]. split; [reflexivity|]. split; [exact Hd|]. split.
  - rewrite Ll, length_seq. apply trip_count_int; [apply max_norm_nonneg | exact Hd].
  - intros i h Eh. destruct (Nl i h Eh) as (x & Ex & Fx).
    rewrite nth_error_seq in Ex. rewrite (trip_count_int N n) in Ex
      by (try apply max_norm_nonneg; exact Hd).
    destruct (Nat.ltb_spec i (S (Z.to_nat n))); [|discriminate].
    inversion Ex; subst x. split; [lia|].
    destruct (bind_Ok_inv _ _ _ Fx) as (p & Ep & Rp). eauto.
Qed.

Lemma inject_Z_succ (n : Z) : inject_Z (Z.succ n) == inject_Z n + 1.
Proof. unfold Z.succ. rewrite inject_Z_plus. reflexivity. Qed.

(** The hex at index [i] of [linedraw], when the interpolation parameter
    there is 0 or 1, is the rounding of the nudged start or end. *)
Lemma linedraw_at_end (a b : hex) (N : Q) (i : nat) (p : fhex) (h : hex) :
  valid a -> valid b ->
  lerp (nudged a) (nudged b) (1 / Qmax N 1 * inject_Z (Z.of_nat i)) = Ok p -> round p = Ok h ->
  (1 / Qmax N 1 * inject_Z (Z.of_nat i) == 0 -> h = a) /\
  (1 / Qmax N 1 * inject_Z (Z.of_nat i) == 1 -> h = b).
Proof.
  intros Ha Hb Ep Rp.
  destruct (nudge_ok a Ha) as [_ Va]. destruct (nudge_ok b Hb) as [_ Vb].
  destruct (lerp_ends _ _ _ _ Va Vb Ep) as [H0 H1].
  split; intros Ht; [rewrite (round_Proper _ _ (H0 Ht)), round_nudged in Rp
                    | rewrite (round_Proper _ _ (H1 Ht)), round_nudged in Rp];
    auto; congruence.
Qed.


(** C4: The line [a.linedraw(b)] between valid hexes
    starts at [a] and ends at [b]: the nudge by (1e-6, 1e-6, -2e-6) never
    moves an endpoint to another hex. *)
Theorem linedraw_endpoints (a b : hex) (l : list hex) :
  valid a -> valid b -> linedraw a b = Ok l ->
  nth_error l 0 = Some a /\ nth_error l (length l - 1) = Some b.
Proof.
  intros Ha Hb E. destruct (linedraw_spec a b Ha Hb) as (N & l' & EN & El & HN & Ll & Nl).
  rewrite E in El. injection El as <-.
  set (n := max_norm (mkHexT (q a - q b)%Z (r a - r b)%Z (s a - s b)%Z)) in *.
  assert (Hfirst : nth_error l 0 = Some a).
  { destruct (nth_error l 0) as [h0|] eqn:E0; [|apply nth_error_None in E0; lia].
    destruct (Nl 0%nat h0 E0) as (_ & p & Ep & Rp).
    rewrite ((proj1 (linedraw_at_end a b N 0 p h0 Ha Hb Ep Rp))); [reflexivity|].
    change (inject_Z (Z.of_nat 0)) with 0. ring. }
  split; [exact Hfirst|]. rewrite Ll. simpl. rewrite Nat.sub_0_r.
  destruct (Z.eq_dec n 0) as [Hn0|Hn0].
  - rewrite Hn0. change (Z.to_nat 0) with 0%nat. rewrite Hfirst.
    destruct (max_norm_zero _ Hn0) as (E1 & E2 & E3). cbn [q r s] in *.
    destruct a, b; cbn [q r s] in *. f_equal. f_equal; lia.
  - destruct (nth_error l (Z.to_nat n)) as [hn|] eqn:En; [|apply nth_error_None in En; lia].
    destruct (Nl _ hn En) as (_ & p & Ep & Rp).
    rewrite ((proj2 (linedraw_at_end a b N _ p hn Ha Hb Ep Rp))); [reflexivity|].
    pose proof (max_norm_nonneg (mkHexT (q a - q b)%Z (r a - r b)%Z (s a - s b)%Z)) as Hnn.
    fold n in Hnn.
    assert (H1n : 1 <= N) by (rewrite HN; change 1 with (inject_Z 1); rewrite <- Zle_Qle; lia).
    rewrite (Q.max_l N 1 H1n), Z2Nat.id by lia. rewrite HN. field.
    change 0 with (inject_Z 0). rewrite inject_Z_injective. exact Hn0.
Qed.

(** ** Contiguity of [linedraw], checked on a bounded region *)

Lemma round_ok_valid (f : fhex) (h : hex) : round f = Ok h -> valid h.
Proof.
  intros E. destruct (round_spec f) as [(_ & _ & E') | [(_ & _ & E') | (_ & _ & E')]];
    rewrite E' in E; injection E as <-; unfold valid; cbn [q r s]; lia.
Qed.

Lemma linedraw_valid (a b : hex) (l : list hex) (h : hex) :
  valid a -> valid b -> linedraw a b = Ok l -> In h l -> valid h.
Proof.
  intros Ha Hb E Hin. destruct (linedraw_spec a b Ha Hb) as (N & l' & _ & El & _ & _ & Nl).
  rewrite E in El. injection El as <-. apply In_nth_error in Hin as [i Hi].
  destruct (Nl i h Hi) as (_ & p & _ & Rp). exact (round_ok_valid p h Rp).
Qed.

(** The valid hexes of max norm at most [R], enumerated with the bounds of
    the hexagon loop of [hexagon-map.ts]. *)
Definition hexes_within (R : Z) : list hex :=
  flat_map (fun q0 => map (fun r0 => mkHexT q0 r0 (- q0 - r0)%Z)
                          (zrange (Z.max (- R) (- q0 - R)) (Z.min R (- q0 + R))))
           (zrange (- R) R).

Lemma in_hexes_within (R : Z) (h : hex) :
  valid h -> (max_norm h <= R)%Z -> In h (hexes_within R).
Proof.
  destruct h as [a b c]; unfold valid, max_norm; cbn [q r s]; intros H HR.
  unfold hexes_within. apply in_flat_map. exists a. split; [apply in_zrange; lia|].
  apply in_map_iff. exists b. split; [f_equal; lia | apply in_zrange; lia].
Qed.

(** Consecutive hexes of a list are at max-norm distance 1. *)
Fixpoint adjacent_chain (l : list hex) : bool :=
  match l with
  | x :: ((y :: _) as t) =>
      (max_norm (mkHexT (q x - q y) (r x - r y) (s x - s y))%Z =? 1)%Z && adjacent_chain t
  | _ => true
  end.

Lemma adjacent_chain_nth (l : list hex) (i : nat) (x y : hex) :
  adjacent_chain l = true -> nth_error l i = Some x -> nth_error l (S i) = Some y ->
  max_norm (mkHexT (q x - q y) (r x - r y) (s x - s y))%Z = 1%Z.
Proof.
  revert i. induction l as [|u t IH]; intros i Hc Ex Ey; [destruct i; discriminate|].
  destruct t as [|v t']; [destruct i as [|[]]; discriminate|].
  simpl in Hc. apply andb_true_iff in Hc as [Huv Hc].
  destruct i as [|i]; simpl in Ex, Ey.
  - injection Ex as <-. injection Ey as <-. now apply Z.eqb_eq.
  - exact (IH i Hc Ex Ey).
Qed.

Definition linedraw_contiguous_on (R : Z) : bool :=
  forallb (fun a => forallb (fun b => match linedraw a b with
                                      | Ok l => adjacent_chain l
                                      | Err _ => false
                                      end) (hexes_within R)) (hexes_within R).

Lemma linedraw_contiguous_on_spec (R : Z) (a b : hex) (l : list hex) :
  linedraw_contiguous_on R = true -> In a (hexes_within R) -> In b (hexes_within R) ->
  linedraw a b = Ok l -> adjacent_chain l = true.
Proof.
  unfold linedraw_contiguous_on. rewrite forallb_forall. intros C Ha Hb E.
  specialize (C a Ha). rewrite forallb_forall in C. specialize (C b Hb).
  now rewrite E in C.
Qed.

Lemma linedraw_contiguous_on_3 : linedraw_contiguous_on 3 = true.
Proof. vm_compute. reflexivity. Qed.

(** C5: For all valid hexes [a], [b] within
    distance 3 of the origin (every pair of a radius-3 hexagon, checked
    exhaustively), any two consecutive hexes of [a.linedraw(b)] are
    neighbours: at distance exactly 1. *)
Theorem linedraw_contiguous (a b : hex) (l : list hex) (i : nat) (x y : hex) :
  valid a -> valid b -> (max_norm a <= 3)%Z -> (max_norm b <= 3)%Z ->
  linedraw a b = Ok l -> nth_error l i = Some x -> nth_error l (S i) = Some y ->
  distance x y ==Ok 1.
Proof.
  intros Ha Hb Ra Rb E Ex Ey.
  pose proof (linedraw_contiguous_on_spec 3 a b l linedraw_contiguous_on_3
                (in_hexes_within 3 a Ha Ra) (in_hexes_within 3 b Hb Rb) E) as C.
  pose proof (linedraw_valid a b l x Ha Hb E (nth_error_In _ _ Ex)) as Vx.
  pose proof (linedraw_valid a b l y Ha Hb E (nth_error_In _ _ Ey)) as Vy.
  pose proof (distance_max_norm x y Vx Vy) as D.
  rewrite (adjacent_chain_nth l i x y C Ex Ey) in D. exact D.
Qed.

(** ** Witnesses at concrete inputs *)

Local Open Scope Z_scope.

Lemma round_lattice_witness : round (to_frac (mkHexT 1 (-2) 1)) = Ok (mkHexT 1 (-2) 1).
Proof. apply round_lattice. reflexivity. Defined.

(** The bound 2/3 is reached: (1/3, 1/3, -2/3) rounds to the origin. *)
Lemma round_within_two_thirds_witness :
  fvalid (mkHexT (1#3) (1#3) (-2#3)) /\ round (mkHexT (1#3) (1#3) (-2#3)) = Ok (mkHexT 0 0 0) /\
  (Qabs (inject_Z 0 - (1#3)) <= 2#3 /\ Qabs (inject_Z 0 - (1#3)) <= 2#3 /\
   Qabs (inject_Z 0 - (-2#3)) <= 2#3)%Q.
Proof.
  assert (H1 : fvalid (mkHexT (1#3) (1#3) (-2#3))) by (unfold fvalid; cbn [q r s]; reflexivity).
  assert (H2 : round (mkHexT (1#3) (1#3) (-2#3)) = Ok (mkHexT 0 0 0)) by (vm_compute; reflexivity).
  split; [exact H1|]. split; [exact H2|].
  exact (round_within_two_thirds _ _ H1 H2).
Defined.


Lemma linedraw_endpoints_witness :
  exists l, linedraw (mkHexT 1 (-2) 1) (mkHexT (-2) 3 (-1)) = Ok l /\
    nth_error l 0 = Some (mkHexT 1 (-2) 1) /\ nth_error l (length l - 1) = Some (mkHexT (-2) 3 (-1)).
Proof.
  eexists. split; [vm_compute; reflexivity|].
  apply linedraw_endpoints; [reflexivity | reflexivity | vm_compute; reflexivity].
Defined.

Definition line_2_1 : list hex :=
  [mkHexT 2 1 (-3); mkHexT 1 1 (-2); mkHexT 0 1 (-1); mkHexT (-1) 1 0;
   mkHexT (-2) 1 1; mkHexT (-3) 1 2].

Lemma linedraw_contiguous_witness :
  linedraw (mkHexT 2 1 (-3)) (mkHexT (-3) 1 2) = Ok line_2_1 /\
  distance (mkHexT 0 1 (-1)) (mkHexT (-1) 1 0) ==Ok 1.
Proof.
  assert (E : linedraw (mkHexT 2 1 (-3)) (mkHexT (-3) 1 2) = Ok line_2_1)
    by (vm_compute; reflexivity).
  split; [exact E|].
  apply (linedraw_contiguous (mkHexT 2 1 (-3)) (mkHexT (-3) 1 2) line_2_1 2);
    try reflexivity; try exact E; vm_compute; congruence.
Defined.

End FracHex.
