(* ===== verification/FloatHex.v ===== *)
(** * FloatHex: [linedraw] of [hex.ts] on IEEE-754 binary64 numbers

    JavaScript numbers are binary64 floats.  On lattice coordinates below
    2^53 every operation of [Hex] is exact, and [Hex] and [FracHex] model
    them over [Z] and [Q].  [linedraw] is different: it adds the literals
    [1e-6] and [2e-6] to the coordinates and then calls the constructor,
    whose test [q + r + s !== 0] is exact.  This file models the class on
    Rocq's primitive binary64 floats ([PrimFloat]), with the same
    definitions as [Hex] and [FracHex] written over [float]:
    [new_Hex_f], [subtract_f], [len_f], [distance_f], [lerp_f], [round_f],
    [linedraw_f].  [Math.round] on a float is computed exactly through the
    float's rational value.

    The loop [for (let i = 0; i <= N; i++)] runs [floor(N) + 1] times for
    a finite [N], never for [NaN], and forever for [N = +Infinity]; the
    last case is the [None] outcome of [linedraw_f].

    The sign of a zero is not tracked by [js_round_f] ([Math.round(-0.3)]
    is [-0]); no later operation of the code can observe it ([===] and the
    arithmetic of [round] and [lerp] treat both zeros alike). *)

From Stdlib Require Import ZArith QArith Qround Qabs List Bool Lia.
From Stdlib Require Import PrimFloat FloatOps SpecFloat Uint63.
From S2P Require Import Prelude Hex FracHex.
Import ListNotations.
Import Hex FracHex.

Module FloatHex.

(** ** JavaScript numbers *)

(** An integer as a JavaScript number (exact for |z| <= 2^53). *)
Definition of_Z (z : Z) : float :=
  if (z <? 0)%Z then PrimFloat.opp (PrimFloat.of_uint63 (Uint63.of_Z (- z)))
  else PrimFloat.of_uint63 (Uint63.of_Z z).

(** The exact rational value of a finite float. *)
Definition to_Q (x : float) : option Q :=
  match Prim2SF x with
  | S754_zero _ => Some 0%Q
  | S754_finite sg m e => Some (Qmake (if sg then Zneg m else Zpos m) 1 * Qpower (2 # 1) e)%Q
  | _ => None
  end.

(** [Math.round(x)]: floats of magnitude at least 2^52 are integers
    already; below, the nearest integer (ties up) is exactly representable. *)
Definition js_round_f (x : float) : float :=
  match to_Q x with
  | Some v => if Qle_bool (inject_Z (2 ^ 52)) (Qabs v) then x else of_Z (js_round v)
  | None => x
  end.

(** The literals [1e-6] and [2e-6] (the binary64 values nearest to
    10^-6 and 2 * 10^-6). *)
Definition lit_1e_6 : float := 0x1.0c6f7a0b5ed8dp-20%float.
Definition lit_2e_6 : float := 0x1.0c6f7a0b5ed8dp-19%float.

Local Open Scope float_scope.

Definition hexf : Type := hexT float.

(** A lattice hex as JavaScript numbers. *)
Definition to_f (h : hex) : hexf := mkHexT (of_Z (q h)) (of_Z (r h)) (of_Z (s h)).

(** ** The class on floats *)

(** [constructor(q, r, s)] with the three arguments given. *)
Definition new_Hex_f (q0 r0 s0 : float) : result hexf :=
  if PrimFloat.eqb (q0 + r0 + s0) 0 then Ok (mkHexT q0 r0 s0) else Err InvalidCoordinate.

Definition subtract_f (a b : hexf) : result hexf :=
  new_Hex_f (q a - q b) (r a - r b) (s a - s b).

(** [len()], with its [isNaN] branch. *)
Definition len_f (h : hexf) : float :=
  let l := (PrimFloat.abs (q h) + PrimFloat.abs (r h) + PrimFloat.abs (s h)) / 2 in
  if PrimFloat.is_nan l then 0 else l.

Definition distance_f (a b : hexf) : result float :=
  let* d := subtract_f a b in Ok (len_f d).

Definition lerp_f (a b : hexf) (t : float) : result hexf :=
  new_Hex_f (q a * (1 - t) + q b * t) (r a * (1 - t) + r b * t) (s a * (1 - t) + s b * t).

Definition round_f (h : hexf) : result hexf :=
  let qi := js_round_f (q h) in
  let ri := js_round_f (r h) in
  let si := js_round_f (s h) in
  let q_diff := PrimFloat.abs (qi - q h) in
  let r_diff := PrimFloat.abs (ri - r h) in
  let s_diff := PrimFloat.abs (si - s h) in
  if (r_diff <? q_diff) && (s_diff <? q_diff) then new_Hex_f (- ri - si) ri si
  else if s_diff <? r_diff then new_Hex_f qi (- qi - si) si
  else new_Hex_f qi ri (- qi - ri).

(** [Math.max(N, 1)] for the [N] of [linedraw] (never [NaN]). *)
Definition max1 (N : float) : float := if 1 <? N then N else 1.

(** The number of iterations of [for (let i = 0; i <= N; i++)], or [None]
    when the loop does not end. *)
Definition trip_count_f (N : float) : option nat :=
  match to_Q N with
  | Some v => Some (trip_count v)
  | None => if PrimFloat.is_nan N then Some O else None
  end.

Definition linedraw_f (a b : hexf) : option (result (list hexf)) :=
  match distance_f a b with
  | Err e => Some (Err e)
  | Ok N =>
      match new_Hex_f (q a + lit_1e_6) (r a + lit_1e_6) (s a - lit_2e_6) with
      | Err e => Some (Err e)
      | Ok a_nudge =>
          match new_Hex_f (q b + lit_1e_6) (r b + lit_1e_6) (s b - lit_2e_6) with
          | Err e => Some (Err e)
          | Ok b_nudge =>
              let step := 1 / max1 N in
              match trip_count_f N with
              | None => None
              | Some n =>
                  Some (mapM (fun i => let* p := lerp_f a_nudge b_nudge
                                                  (step * of_Z (Z.of_nat i)) in round_f p)
                             (seq 0 n))
              end
          end
      end
  end.

(** ** Checks on a bounded region *)

Local Close Scope float_scope.
Local Open Scope Z_scope.

Definition linedraw_f_throws (a b : hex) : bool :=
  match linedraw_f (to_f a) (to_f b) with
  | Some (Err _) => true
  | _ => false
  end.

(** A float hex and a lattice hex with equal coordinates ([===]). *)
Definition same_hex (x : hexf) (y : hex) : bool :=
  PrimFloat.eqb (q x) (of_Z (q y)) && PrimFloat.eqb (r x) (of_Z (r y)) &&
  PrimFloat.eqb (s x) (of_Z (s y)).

Fixpoint same_hexes (xs : list hexf) (ys : list hex) : bool :=
  match xs, ys with
  | [], [] => true
  | x :: xs', y :: ys' => same_hex x y && same_hexes xs' ys'
  | _, _ => false
  end.

(** On every pair of the region, the float [linedraw] terminates, and when
    it returns a list, the exact model returns the same hexes. *)
Definition float_agrees_on (R : Z) : bool :=
  forallb (fun a => forallb (fun b =>
    match linedraw_f (to_f a) (to_f b) with
    | Some (Ok lf) => match linedraw a b with Ok l => same_hexes lf l | Err _ => false end
    | Some (Err _) => true
    | None => false
    end) (hexes_within R)) (hexes_within R).

Lemma float_agrees_on_spec (R : Z) (a b : hex) :
  float_agrees_on R = true -> In a (hexes_within R) -> In b (hexes_within R) ->
  (exists res, linedraw_f (to_f a) (to_f b) = Some res) /\
  (forall lf, linedraw_f (to_f a) (to_f b) = Some (Ok lf) ->
   exists l, linedraw a b = Ok l /\ same_hexes lf l = true).
Proof.
  unfold float_agrees_on. rewrite forallb_forall. intros C Ha Hb.
  specialize (C a Ha). rewrite forallb_forall in C. specialize (C b Hb).
  destruct (linedraw_f (to_f a) (to_f b)) as [[lf|e]|]; [| |discriminate].
  - split; [eauto|]. intros lf' E. injection E as <-.
    destruct (linedraw a b) as [l|]; [eauto | discriminate].
  - split; [eauto|]. discriminate.
Qed.

Lemma float_agrees_on_3 : float_agrees_on 3 = true.
Proof. vm_compute. reflexivity. Qed.

(** A valid hex whose [len()] overflows: [(2^1022, 2^1022, -2^1023)];
    [|q| + |r| + |s| = 2^1024] is past the largest binary64. *)
Definition huge_hex : hexf := mkHexT 0x1p1022%float 0x1p1022%float (-0x1p1023)%float.

(** The float [linedraw] runs forever only on an infinite distance. *)
Lemma linedraw_f_None (a b : hexf) :
  linedraw_f a b = None ->
  exists N, distance_f a b = Ok N /\ to_Q N = None /\ PrimFloat.is_nan N = false.
Proof.
  unfold linedraw_f. destruct (distance_f a b) as [N|]; [|discriminate].
  destruct (new_Hex_f _ _ _); [|discriminate]. destruct (new_Hex_f _ _ _); [|discriminate].
  unfold trip_count_f. destruct (to_Q N) eqn:EQ; [discriminate|].
  destruct (PrimFloat.is_nan N) eqn:E; [discriminate|]. intros _. exists N. auto.
Qed.

(** ** Theorems *)

(** C2: In binary64 the nudged endpoint of
    [Hex(1, 0, -1).linedraw(...)] has [(1 + 1e-6) + (0 + 1e-6) + (-1 - 2e-6)]
    different from 0, so its construction throws ["q + r + s must be 0"]
    and [linedraw] from [Hex(1, 0, -1)] to the origin throws; over all the
    1369 pairs of endpoints of a radius-3 hexagon, [linedraw] throws for
    1338. *)
Theorem nudge_breaks_linedraw :
  new_Hex_f (of_Z 1 + lit_1e_6) (of_Z 0 + lit_1e_6) (of_Z (-1) - lit_2e_6)%float
    = Err InvalidCoordinate /\
  linedraw_f (to_f (mkHexT 1 0 (-1))) (to_f (mkHexT 0 0 0)) = Some (Err InvalidCoordinate) /\
  length (filter (fun ab => linedraw_f_throws (fst ab) (snd ab))
                 (list_prod (hexes_within 3) (hexes_within 3))) = 1338%nat.
Proof. vm_compute. repeat split. Qed.

(** C6: For all valid endpoints within distance
    3 of the origin, [linedraw] on binary64 numbers terminates, and
    whenever it returns a list (instead of throwing) the list is the one
    of the exact-arithmetic model [FracHex.linedraw], hex by hex. *)
Theorem float_linedraw_refines (a b : hex) :
  valid a -> valid b -> (max_norm a <= 3)%Z -> (max_norm b <= 3)%Z ->
  (exists res, linedraw_f (to_f a) (to_f b) = Some res) /\
  (forall lf, linedraw_f (to_f a) (to_f b) = Some (Ok lf) ->
   exists l, linedraw a b = Ok l /\ same_hexes lf l = true).
Proof.
  intros Ha Hb Ra Rb.
  exact (float_agrees_on_spec 3 a b float_agrees_on_3
           (in_hexes_within 3 a Ha Ra) (in_hexes_within 3 b Hb Rb)).
Qed.


(** ** Witness *)

Lemma float_linedraw_refines_witness :
  (exists res, linedraw_f (to_f (mkHexT 1 1 (-2))) (to_f (mkHexT (-1) (-1) 2)) = Some res) /\
  (forall lf, linedraw_f (to_f (mkHexT 1 1 (-2))) (to_f (mkHexT (-1) (-1) 2)) = Some (Ok lf) ->
   exists l, linedraw (mkHexT 1 1 (-2)) (mkHexT (-1) (-1) 2) = Ok l /\ same_hexes lf l = true).
Proof. apply float_linedraw_refines; [reflexivity | reflexivity | vm_compute; discriminate ..]. Defined.

End FloatHex.
