(* ===== verification/Coords.v ===== *)
(** * Coords: [HexOffsetCoord] and [HexDoubledCoord] of [src/src/lib/hex/coords.ts]

    Offset coordinates shift every other column (q-offset) or row
    (r-offset) by half a hex; the parity selector is [EVEN = 1] or
    [ODD = -1] and any other value makes the conversion throw.  The shift
    is [(x + offset * (x & 1)) / 2]: JavaScript divides exactly, and the
    numerator is always even ([offset_numerator_even]), so the model's
    [Z.div] by 2 is that exact division.

    Doubled coordinates double one axis.  [qDoubledToCube] and
    [rDoubledToCube] divide [(row - col)] (resp. [(col - row)]) by 2, which
    is fractional when the pair has odd parity: the model returns the
    fractional hex the code builds ([fhex] of [FracHex]). *)

From Stdlib Require Import ZArith QArith Lia Lqa Bool.
From S2P Require Import Prelude Hex FracHex.
Import Hex FracHex.

Module Coords.

Local Open Scope Z_scope.

(** ** Offset coordinates *)

Record HexOffsetCoord : Type := mkOffset { col : Z; row : Z }.

Definition EVEN : Z := 1.
Definition ODD : Z := -1.

(** [offset !== HexOffsetCoord.EVEN && offset !== HexOffsetCoord.ODD] *)
Definition bad_parity (offset : Z) : bool := negb (offset =? EVEN) && negb (offset =? ODD).

(** The half-row (or half-column) shift [(x + offset * (x & 1)) / 2]. *)
Definition shift (offset x : Z) : Z := (x + offset * Z.land x 1) / 2.

Definition qOffsetFromCube (offset : Z) (h : hex) : result HexOffsetCoord :=
  if bad_parity offset then Err InvalidParity
  else Ok (mkOffset (q h) (r h + shift offset (q h))).

Definition qOffsetToCube (offset : Z) (oc : HexOffsetCoord) : result hex :=
  if bad_parity offset then Err InvalidParity
  else new_Hex (col oc) (row oc - shift offset (col oc)) None.

Definition rOffsetFromCube (offset : Z) (h : hex) : result HexOffsetCoord :=
  if bad_parity offset then Err InvalidParity
  else Ok (mkOffset (q h + shift offset (r h)) (r h)).

Definition rOffsetToCube (offset : Z) (oc : HexOffsetCoord) : result hex :=
  if bad_parity offset then Err InvalidParity
  else new_Hex (col oc - shift offset (row oc)) (row oc) None.

(** ** Doubled coordinates *)

Record HexDoubledCoord : Type := mkDoubled { dcol : Z; drow : Z }.

Definition qDoubledFromCube (h : hex) : HexDoubledCoord :=
  mkDoubled (q h) (2 * r h + q h).

Definition qDoubledToCube (dc : HexDoubledCoord) : result fhex :=
  new_FHex (inject_Z (dcol dc)) ((inject_Z (drow dc) - inject_Z (dcol dc)) / inject_Z 2) None.

Definition rDoubledFromCube (h : hex) : HexDoubledCoord :=
  mkDoubled (2 * q h + r h) (r h).

Definition rDoubledToCube (dc : HexDoubledCoord) : result fhex :=
  new_FHex ((inject_Z (dcol dc) - inject_Z (drow dc)) / inject_Z 2) (inject_Z (drow dc)) None.

(** ** Lemmas *)

Lemma good_parity (offset : Z) : offset = EVEN \/ offset = ODD -> bad_parity offset = false.
Proof. unfold bad_parity, EVEN, ODD. intros [-> | ->]; reflexivity. Qed.

Lemma bad_parity_true (offset : Z) : offset <> EVEN -> offset <> ODD -> bad_parity offset = true.
Proof.
  unfold bad_parity; intros H1 H2.
  rewrite (proj2 (Z.eqb_neq _ _) H1), (proj2 (Z.eqb_neq _ _) H2). reflexivity.
Qed.

Lemma new_Hex_None (q0 r0 : Z) : new_Hex q0 r0 None = Ok (mkHexT q0 r0 (- q0 - r0)).
Proof. unfold new_Hex. rewrite (proj2 (Z.eqb_eq _ _)) by lia. reflexivity. Qed.

Lemma valid_s (h : hex) : valid h -> mkHexT (q h) (r h) (- q h - r h) = h.
Proof. destruct h as [a b c]; unfold valid; cbn [q r s]; intros H. f_equal. lia. Qed.

Lemma new_FHex_None (q0 r0 : Q) : new_FHex q0 r0 None = Ok (mkHexT q0 r0 (- q0 - r0)%Q).
Proof. unfold new_FHex. rewrite (proj2 (Qeq_bool_iff _ _)) by ring. reflexivity. Qed.

Lemma Ok_mkHexT {A : Type} (a b c a' b' c' : A) :
  a = a' -> b = b' -> c = c' -> @Ok (hexT A) (mkHexT a b c) = Ok (mkHexT a' b' c').
Proof. intros -> -> ->. reflexivity. Qed.

Lemma shift_exact (offset x : Z) :
  offset = EVEN \/ offset = ODD -> 2 * shift offset x = x + offset * Z.land x 1.
Proof.
  unfold shift, EVEN, ODD. rewrite Z_land_1. intros [-> | ->]; Z.div_mod_to_equations; lia.
Qed.

Lemma inject_Z_half (z : Z) : (inject_Z (2 * z) / inject_Z 2 == inject_Z z)%Q.
Proof. rewrite inject_Z_mult. field. Qed.

(** ** Theorems *)

(** C10: Converting a valid hex to q-offset or
    r-offset coordinates and back, with the same parity [EVEN] or [ODD],
    gives the hex back. *)
Theorem offset_roundtrip_cube (offset : Z) (h : hex) :
  offset = EVEN \/ offset = ODD -> valid h ->
  bind (qOffsetFromCube offset h) (qOffsetToCube offset) = Ok h /\
  bind (rOffsetFromCube offset h) (rOffsetToCube offset) = Ok h.
Proof.
  intros Ho Hh. unfold qOffsetFromCube, qOffsetToCube, rOffsetFromCube, rOffsetToCube.
  rewrite good_parity by exact Ho. simpl. rewrite !new_Hex_None.
  destruct h as [a b c]; unfold valid in Hh; cbn [q r s] in *.
  split; apply Ok_mkHexT; lia.
Qed.

(** C15: Converting any integer offset coordinate
    to a cube hex and back, with the same parity, gives the coordinate
    back: the offset conversions are bijections. *)
Theorem offset_roundtrip_offset (offset : Z) (oc : HexOffsetCoord) :
  offset = EVEN \/ offset = ODD ->
  bind (qOffsetToCube offset oc) (qOffsetFromCube offset) = Ok oc /\
  bind (rOffsetToCube offset oc) (rOffsetFromCube offset) = Ok oc.
Proof.
  intros Ho. destruct oc as [c w].
  unfold qOffsetFromCube, qOffsetToCube, rOffsetFromCube, rOffsetToCube.
  rewrite good_parity by exact Ho. rewrite !new_Hex_None. simpl.
  split; f_equal; cbn [q r s]; f_equal; lia.
Qed.

(** A parity selector other than [EVEN] (+1) and
    [ODD] (-1) makes all four offset conversions throw the parity error. *)
Theorem offset_bad_parity (offset : Z) (h : hex) (oc : HexOffsetCoord) :
  offset <> EVEN -> offset <> ODD ->
  qOffsetFromCube offset h = Err InvalidParity /\ qOffsetToCube offset oc = Err InvalidParity /\
  rOffsetFromCube offset h = Err InvalidParity /\ rOffsetToCube offset oc = Err InvalidParity.
Proof.
  intros H1 H2. unfold qOffsetFromCube, qOffsetToCube, rOffsetFromCube, rOffsetToCube.
  rewrite (bad_parity_true _ H1 H2). repeat split.
Qed.

(** C16: Converting a valid hex to q-doubled or
    r-doubled coordinates and back gives the hex back (as a hex with the
    same rational coordinates); a doubled pair of even parity converts to a
    lattice hex that converts back to the same pair. *)
Theorem doubled_roundtrip (h : hex) (dc : HexDoubledCoord) :
  valid h ->
  (exists f, qDoubledToCube (qDoubledFromCube h) = Ok f /\ feq f (to_frac h)) /\
  (exists f, rDoubledToCube (rDoubledFromCube h) = Ok f /\ feq f (to_frac h)) /\
  (Z.even (drow dc - dcol dc) = true ->
   exists f h', qDoubledToCube dc = Ok f /\ round f = Ok h' /\ qDoubledFromCube h' = dc).
Proof.
  intros Hh. unfold valid in Hh. unfold qDoubledToCube, rDoubledToCube, qDoubledFromCube, rDoubledFromCube.
  rewrite !new_FHex_None. cbn [dcol drow]. split; [|split].
  - eexists; split; [reflexivity|]. unfold to_frac, feq; cbn [q r s].
    replace (2 * r h + q h - q h) with (2 * r h) by lia.
    setoid_replace (inject_Z (2 * r h + q h) - inject_Z (q h))%Q with (inject_Z (2 * r h))
      by (rewrite inject_Z_plus; ring).
    rewrite inject_Z_half. split; [reflexivity|]. split; [reflexivity|].
    replace (s h) with (- q h - r h) by lia. rewrite inject_Z_sub, inject_Z_opp. ring.
  - eexists; split; [reflexivity|]. unfold to_frac, feq; cbn [q r s].
    setoid_replace (inject_Z (2 * q h + r h) - inject_Z (r h))%Q with (inject_Z (2 * q h))
      by (rewrite inject_Z_plus; ring).
    rewrite inject_Z_half. split; [reflexivity|]. split; [reflexivity|].
    replace (s h) with (- q h - r h) by lia. rewrite inject_Z_sub, inject_Z_opp. ring.
  - destruct dc as [c w]; cbn [dcol drow]. intros He.
    apply Z.even_spec in He as [k Hk].
    assert (Hf : feq (mkHexT (inject_Z c) ((inject_Z w - inject_Z c) / inject_Z 2)
                         (- inject_Z c - (inject_Z w - inject_Z c) / inject_Z 2))%Q
                     (to_frac (mkHexT c k (- c - k)))).
    { unfold feq, to_frac; cbn [q r s].
      setoid_replace (inject_Z w - inject_Z c)%Q with (inject_Z (2 * k))
        by (rewrite <- inject_Z_sub, Hk; reflexivity).
      rewrite inject_Z_half, inject_Z_sub, inject_Z_opp. repeat split; ring. }
    exists (mkHexT (inject_Z c) ((inject_Z w - inject_Z c) / inject_Z 2)
                   (- inject_Z c - (inject_Z w - inject_Z c) / inject_Z 2))%Q, (mkHexT c k (- c - k)).
    split; [reflexivity|]. split.
    + rewrite Hf. apply round_lattice. unfold valid; cbn [q r s]; lia.
    + cbn [q r]. f_equal; lia.
Qed.

(** C24: A doubled pair of odd parity is not
    rejected: [qDoubledToCube] returns a hex whose [r] is not an integer
    (the spec assumes doubled pairs always have even parity). *)
Theorem doubled_odd_fractional (dc : HexDoubledCoord) :
  Z.odd (drow dc - dcol dc) = true ->
  exists f, qDoubledToCube dc = Ok f /\ forall z, ~ (r f == inject_Z z)%Q.
Proof.
  destruct dc as [c w]; cbn [dcol drow]. intros Ho. apply Z.odd_spec in Ho as [k Hk].
  unfold qDoubledToCube. rewrite new_FHex_None. eexists; split; [reflexivity|].
  intros z Hz. cbn [r dcol drow] in Hz.
  setoid_replace (inject_Z w - inject_Z c)%Q with (inject_Z (2 * k + 1)) in Hz
    by (rewrite <- inject_Z_sub, Hk; reflexivity).
  assert (E : (inject_Z (2 * k + 1) == inject_Z (2 * z))%Q).
  { rewrite inject_Z_mult, <- Hz. field. }
  rewrite inject_Z_injective in E. lia.
Qed.

(** ** Witnesses at concrete inputs *)


(** The spec's scenario: [qOffsetFromCube(EVEN, Hex(1,1,-2))] then
    [qOffsetToCube(EVEN, ...)] gives [Hex(1,1,-2)]. *)
Lemma offset_roundtrip_cube_witness :
  bind (qOffsetFromCube EVEN (mkHexT 1 1 (-2))) (qOffsetToCube EVEN) = Ok (mkHexT 1 1 (-2)) /\
  bind (rOffsetFromCube EVEN (mkHexT 1 1 (-2))) (rOffsetToCube EVEN) = Ok (mkHexT 1 1 (-2)).
Proof. apply offset_roundtrip_cube; [left; reflexivity | reflexivity]. Defined.

Lemma offset_roundtrip_offset_witness :
  bind (qOffsetToCube ODD (mkOffset 3 (-4))) (qOffsetFromCube ODD) = Ok (mkOffset 3 (-4)) /\
  bind (rOffsetToCube ODD (mkOffset 3 (-4))) (rOffsetFromCube ODD) = Ok (mkOffset 3 (-4)).
Proof. apply offset_roundtrip_offset. right; reflexivity. Defined.


Lemma doubled_roundtrip_witness :
  (exists f, qDoubledToCube (qDoubledFromCube (mkHexT 1 1 (-2))) = Ok f /\
             feq f (to_frac (mkHexT 1 1 (-2)))) /\
  (exists f, rDoubledToCube (rDoubledFromCube (mkHexT 1 1 (-2))) = Ok f /\
             feq f (to_frac (mkHexT 1 1 (-2)))) /\
  (Z.even (drow (mkDoubled 3 5) - dcol (mkDoubled 3 5)) = true ->
   exists f h', qDoubledToCube (mkDoubled 3 5) = Ok f /\ round f = Ok h' /\
                qDoubledFromCube h' = mkDoubled 3 5).
Proof. apply doubled_roundtrip. reflexivity. Defined.

Lemma doubled_odd_fractional_witness :
  exists f, qDoubledToCube (mkDoubled 0 1) = Ok f /\ forall z, ~ (r f == inject_Z z)%Q.
Proof. apply doubled_odd_fractional. reflexivity. Defined.

End Coords.
