(* ===== verification/Hash.v ===== *)
(** * Hash: the string forms of [Hex], [HexOffsetCoord], [HexDoubledCoord]

    [src/src/lib/hex/hex.ts] caches the string [`${q},${r},${s}`] in the
    field [id] when a hex is constructed, and [hash()] returns that field;
    [toString()] formats the current coordinates.  The setters of [q], [r]
    and [s] write the coordinate array only.  [src/src/lib/hex/coords.ts]
    computes [hash()] and [toString()] of the two coordinate classes from
    their fields on every call, and compares them with [equals].

    A number in a template literal is printed by [Number.prototype.toString]:
    for an integer below 10^21 in magnitude (so for every lattice
    coordinate, all below 2^53) that is its decimal digits with a leading
    [-] when negative, which is [js_string], built on the Standard
    Library's decimal representation of [Z].  [js_parse] reads such a
    string back and [split_comma] cuts a hash at its commas; they are the
    decoders of the round-trip theorems, not code of the program.

    Theorems: a hash decodes to the coordinates of the hex it was built
    for, so two constructed hexes have the same hash exactly when they are
    [equals]; the same holds of the two coordinate classes; after a setter
    the cached hash no longer describes the coordinates. *)

From Stdlib Require Import ZArith String Ascii List Bool Lia.
From Stdlib Require Import Decimal DecimalString DecimalZ DecimalPos.
From S2P Require Import Prelude Hex Coords.
Import ListNotations.
Import Hex Coords.

Module Hash.

Local Open Scope string_scope.

(** ** Numbers as strings *)

(** [`${n}`] for an integer-valued number [n]. *)
Definition js_string (n : Z) : string := NilZero.string_of_int (Z.to_int n).

(** The decimal reader, inverse of [js_string]. *)
Definition js_parse (s : string) : option Z := option_map Z.of_int (NilZero.int_of_string s).

(** Cut a string at every comma. *)
Fixpoint split_comma (s : string) : list string :=
  match s with
  | EmptyString => [EmptyString]
  | String c s' =>
      if Ascii.eqb c "," then EmptyString :: split_comma s'
      else match split_comma s' with
           | [] => [String c EmptyString]
           | w :: ws => String c w :: ws
           end
  end.

(** ** [Hex] objects with their cached [id] *)

Record HexObj := mkHexObj { coords : hex; id : string }.

(** [`${q},${r},${s}`] *)
Definition hex_id (q0 r0 s0 : Z) : string :=
  js_string q0 ++ "," ++ js_string r0 ++ "," ++ js_string s0.

(** [new Hex(q, r, s?)]: the checks of [new_Hex], then
    [this.coords = [q, r, s]] and [this.id = `${q},${r},${s}`]. *)
Definition new_HexObj (q0 r0 : Z) (s0 : option Z) : result HexObj :=
  let* h := new_Hex q0 r0 s0 in Ok (mkHexObj h (hex_id (q h) (r h) (s h))).

(** The setters write [this.coords[i]] and leave [this.id]. *)
Definition obj_set_q (o : HexObj) (v : Z) : HexObj := mkHexObj (set_q (coords o) v) (id o).
Definition obj_set_r (o : HexObj) (v : Z) : HexObj := mkHexObj (set_r (coords o) v) (id o).
Definition obj_set_s (o : HexObj) (v : Z) : HexObj := mkHexObj (set_s (coords o) v) (id o).

(** [eq(b)] and [equals(b)] read the coordinates. *)
Definition obj_equals (a b : HexObj) : bool := equals (coords a) (coords b).

Definition hash (o : HexObj) : string := id o.

Definition toString (o : HexObj) : string :=
  "Hex(" ++ js_string (q (coords o)) ++ ", " ++ js_string (r (coords o)) ++ ", "
         ++ js_string (s (coords o)) ++ ")".

(** ** The coordinate classes *)

Definition offset_equals (a b : HexOffsetCoord) : bool := (col a =? col b)%Z && (row a =? row b)%Z.
Definition offset_hash (c : HexOffsetCoord) : string := js_string (col c) ++ "," ++ js_string (row c).
Definition offset_toString (c : HexOffsetCoord) : string :=
  "OffsetCoord(" ++ js_string (col c) ++ ", " ++ js_string (row c) ++ ")".

Definition doubled_equals (a b : HexDoubledCoord) : bool :=
  (dcol a =? dcol b)%Z && (drow a =? drow b)%Z.
Definition doubled_hash (c : HexDoubledCoord) : string :=
  js_string (dcol c) ++ "," ++ js_string (drow c).
Definition doubled_toString (c : HexDoubledCoord) : string :=
  "DoubledCoord(" ++ js_string (dcol c) ++ ", " ++ js_string (drow c) ++ ")".

(** The decoders of the hashes. *)
Definition parse_pair (s : string) : option (Z * Z) :=
  match split_comma s with
  | [a; b] => match js_parse a, js_parse b with Some x, Some y => Some (x, y) | _, _ => None end
  | _ => None
  end.

Definition parse_triple (s : string) : option (Z * Z * Z) :=
  match split_comma s with
  | [a; b; c] =>
      match js_parse a, js_parse b, js_parse c with
      | Some x, Some y, Some z => Some (x, y, z)
      | _, _, _ => None
      end
  | _ => None
  end.

(** Strings without a comma. *)
Fixpoint comma_free (s : string) : bool :=
  match s with
  | EmptyString => true
  | String c s' => negb (Ascii.eqb c ",") && comma_free s'
  end.

(** ** Lemmas *)

Lemma to_int_not_nil (z : Z) : Z.to_int z <> Decimal.Pos Nil /\ Z.to_int z <> Decimal.Neg Nil.
Proof.
  destruct z as [|p|p]; simpl; split; try discriminate;
    intros [= E]; exact (DecimalPos.Unsigned.to_uint_nonnil p E).
Qed.

Lemma js_parse_string (z : Z) : js_parse (js_string z) = Some z.
Proof.
  unfold js_parse, js_string. destruct (to_int_not_nil z) as [H1 H2].
  rewrite (NilZero.isi _ H1 H2). simpl. f_equal. apply DecimalZ.of_to.
Qed.

Lemma js_string_inj (a b : Z) : js_string a = js_string b -> a = b.
Proof.
  intros E. apply (f_equal js_parse) in E. rewrite !js_parse_string in E. congruence.
Qed.

Lemma uint_comma_free (d : uint) : comma_free (NilEmpty.string_of_uint d) = true.
Proof. induction d; simpl; auto. Qed.

Lemma js_string_comma_free (z : Z) : comma_free (js_string z) = true.
Proof.
  unfold js_string, NilZero.string_of_int, NilZero.string_of_uint.
  destruct (Z.to_int z) as [d|d]; destruct d; simpl; rewrite ?uint_comma_free; reflexivity.
Qed.

Lemma split_comma_app (w rest : string) :
  comma_free w = true -> split_comma (w ++ String "," rest) = w :: split_comma rest.
Proof.
  induction w as [|c w IH]; [reflexivity|]. simpl.
  destruct (Ascii.eqb c ",") eqn:E; [discriminate|]. simpl. intros H. rewrite (IH H). reflexivity.
Qed.

Lemma split_comma_single (w : string) : comma_free w = true -> split_comma w = [w].
Proof.
  induction w as [|c w IH]; [reflexivity|]. simpl.
  destruct (Ascii.eqb c ",") eqn:E; [discriminate|]. simpl. intros H. rewrite (IH H). reflexivity.
Qed.

#[local] Hint Resolve js_string_comma_free : core.

Lemma parse_pair_print (a b : Z) : parse_pair (js_string a ++ "," ++ js_string b) = Some (a, b).
Proof.
  unfold parse_pair. simpl. rewrite split_comma_app, split_comma_single by auto.
  rewrite !js_parse_string. reflexivity.
Qed.

Lemma parse_triple_hex_id (a b c : Z) : parse_triple (hex_id a b c) = Some (a, b, c).
Proof.
  unfold parse_triple, hex_id. simpl. rewrite !split_comma_app, split_comma_single by auto.
  rewrite !js_parse_string. reflexivity.
Qed.

Lemma hex_id_inj (a b c a' b' c' : Z) : hex_id a b c = hex_id a' b' c' -> a = a' /\ b = b' /\ c = c'.
Proof.
  intros E. apply (f_equal parse_triple) in E. rewrite !parse_triple_hex_id in E.
  injection E. auto.
Qed.

Lemma new_HexObj_id (q0 r0 : Z) (s0 : option Z) (o : HexObj) :
  new_HexObj q0 r0 s0 = Ok o -> valid (coords o) /\ id o = hex_id (q (coords o)) (r (coords o)) (s (coords o)).
Proof.
  unfold new_HexObj. destruct (new_Hex q0 r0 s0) as [h|e] eqn:E; [|discriminate].
  rewrite bind_Ok. intros [= <-]. simpl. split; [exact (new_Hex_valid _ _ _ _ E) | reflexivity].
Qed.

Lemma obj_equals_coords (a b : HexObj) :
  obj_equals a b = true <-> q (coords a) = q (coords b) /\ r (coords a) = r (coords b) /\ s (coords a) = s (coords b).
Proof.
  unfold obj_equals. rewrite equals_spec.
  destruct (coords a) as [qa ra sa], (coords b) as [qb rb sb]; simpl.
  split; [intros [= -> -> ->]; auto | intros (-> & -> & ->); reflexivity].
Qed.

Lemma pair_print_inj (a b a' b' : Z) :
  js_string a ++ "," ++ js_string b = js_string a' ++ "," ++ js_string b' <-> a = a' /\ b = b'.
Proof.
  split; [|intros [-> ->]; reflexivity].
  intros E. apply (f_equal parse_pair) in E. rewrite !parse_pair_print in E. injection E. auto.
Qed.

(** ** Theorems *)

(** C22: [hash()] is a faithful key for hexes built by
    [new Hex(q, r, s?)]: it is the string [`${q},${r},${s}`] of the
    coordinates, which cut at its commas and read as decimal numbers gives
    back exactly [(q, r, s)]; so two constructed hexes have the same hash
    exactly when [a.equals(b)]. *)
Theorem hash_faithful (qa ra qb rb : Z) (sa sb : option Z) (a b : HexObj) :
  new_HexObj qa ra sa = Ok a -> new_HexObj qb rb sb = Ok b ->
  parse_triple (hash a) = Some (q (coords a), r (coords a), s (coords a)) /\
  (hash a = hash b <-> obj_equals a b = true).
Proof.
  intros Ea Eb. destruct (new_HexObj_id _ _ _ _ Ea) as [_ Ha], (new_HexObj_id _ _ _ _ Eb) as [_ Hb].
  unfold hash. rewrite Ha, Hb, obj_equals_coords, parse_triple_hex_id. split; [reflexivity|].
  split; [apply hex_id_inj | intros (-> & -> & ->); reflexivity].
Qed.

(** [hash()] of [HexOffsetCoord] and of [HexDoubledCoord],
    [`${col},${row}`], is a faithful key: two coordinates have the same
    hash exactly when [equals] holds, and the hash reads back as
    [(col, row)]. *)
Theorem coord_hash_iff_equals (a b : HexOffsetCoord) (c d : HexDoubledCoord) :
  (offset_hash a = offset_hash b <-> offset_equals a b = true) /\
  (doubled_hash c = doubled_hash d <-> doubled_equals c d = true) /\
  parse_pair (offset_hash a) = Some (col a, row a) /\
  parse_pair (doubled_hash c) = Some (dcol c, drow c).
Proof.
  unfold offset_hash, offset_equals, doubled_hash, doubled_equals.
  rewrite !pair_print_inj, !andb_true_iff, !Z.eqb_eq, !parse_pair_print. tauto.
Qed.

(** C23: The setters leave the cached [id]: after [h.q = v] with [v]
    different from [h.q] on a constructed hex, [hash()] is unchanged
    although [equals] tells the two states apart, and it no longer is the
    string of the current coordinates (which [toString()] does follow). *)
Theorem setter_stale_hash (q0 r0 : Z) (s0 : option Z) (o : HexObj) (v : Z) :
  new_HexObj q0 r0 s0 = Ok o -> v <> q (coords o) ->
  hash (obj_set_q o v) = hash o /\ obj_equals (obj_set_q o v) o = false /\
  hash (obj_set_q o v) <> hex_id (q (coords (obj_set_q o v))) (r (coords (obj_set_q o v)))
                                 (s (coords (obj_set_q o v))).
Proof.
  intros E Hv. destruct (new_HexObj_id _ _ _ _ E) as [_ Hid].
  split; [reflexivity|]. split.
  - apply not_true_iff_false. rewrite obj_equals_coords. simpl. intros (? & _). congruence.
  - unfold hash. simpl. rewrite Hid. intros (? & _)%hex_id_inj. congruence.
Qed.

(** ** Witnesses *)

Local Open Scope Z_scope.

Lemma hash_faithful_witness :
  exists a b, new_HexObj 1 (-2) None = Ok a /\ new_HexObj 1 (-2) (Some 1) = Ok b /\
    parse_triple (hash a) = Some (q (coords a), r (coords a), s (coords a)) /\
    (hash a = hash b <-> obj_equals a b = true).
Proof.
  exists (mkHexObj (mkHexT 1 (-2) 1) "1,-2,1"), (mkHexObj (mkHexT 1 (-2) 1) "1,-2,1").
  split; [reflexivity|]. split; [reflexivity|].
  apply (hash_faithful 1 (-2) 1 (-2) None (Some 1)); reflexivity.
Defined.

Lemma setter_stale_hash_witness :
  exists o, new_HexObj 1 (-2) None = Ok o /\
    hash (obj_set_q o 5) = hash o /\ obj_equals (obj_set_q o 5) o = false /\
    hash (obj_set_q o 5) <> hex_id (q (coords (obj_set_q o 5))) (r (coords (obj_set_q o 5)))
                                   (s (coords (obj_set_q o 5))).
Proof.
  exists (mkHexObj (mkHexT 1 (-2) 1) "1,-2,1"). split; [reflexivity|].
  apply (setter_stale_hash 1 (-2) None); [reflexivity | simpl; lia].
Defined.

End Hash.
