(* ===== verification/HexMap.v ===== *)
(** * HexMap: [src/src/lib/hex/maps/index.ts] and [maps/hexagon-map.ts]

    [HexMap<TData>] wraps a JavaScript [Map<Hex, TData>].  A [Map] compares
    object keys by reference, so the model has a heap of [Hex] objects:
    [new Hex(...)] allocates a fresh reference [loc] holding the hex's
    value, and the map's entries are pairs of references and payloads, in
    insertion order (the order of [forEach]).  [set] on a present key
    replaces the payload in place; on an absent key it appends.  [get]
    returns [this.hexData.get(hex) || null]: a falsy payload reads as
    [null], so [get] is parameterised by the payload's truthiness.

    [HexagonHexMap(size, getHexColor)] runs the double loop of the
    constructor, allocating one [Hex] per iteration and setting its
    colour.  The loops are [foldM] over the [zrange] of their bounds. *)

From Stdlib Require Import ZArith QArith List String Lia.
From stdpp Require Import base gmap list.
From S2P Require Import Prelude Hex FracHex.
Import ListNotations.
Import Hex FracHex.

Module HexMap.

(** ** Object references and the heap of [Hex] objects *)

Record loc := Loc { loc_car : positive }.

#[export] Instance loc_eq_dec : EqDecision loc.
Proof. solve_decision. Defined.

#[export] Instance loc_countable : Countable loc.
Proof. by apply (inj_countable' loc_car Loc); intros []. Defined.

(** The [Hex] objects allocated so far, and the next fresh reference. *)
Record heap := mkHeap { objs : gmap loc hex; next : positive }.

(** Every allocated reference is below [next]. *)
Definition heap_wf (H : heap) : Prop :=
  forall l, is_Some (objs H !! l) -> (loc_car l < next H)%positive.

Definition alloc (h : hex) (H : heap) : loc * heap :=
  (Loc (next H), mkHeap (<[Loc (next H) := h]> (objs H)) (Pos.succ (next H))).

(** [new Hex(q, r, s)]: the constructor's check, then a fresh object. *)
Definition new_Hex_obj (q0 r0 : Z) (s0 : option Z) (H : heap) : result (loc * heap) :=
  let* h := new_Hex q0 r0 s0 in Ok (alloc h H).

(** ** [Map<Hex, D>] *)

Section JSMap.
Context {D : Type}.

(** The entries of a [Map], in insertion order. *)
Definition jsmap : Type := list (loc * D).

(** [Map.prototype.get] ([None] is [undefined]). *)
Fixpoint map_get (k : loc) (m : jsmap) : option D :=
  match m with
  | [] => None
  | (k', d) :: m' => if decide (k = k') then Some d else map_get k m'
  end.

(** [Map.prototype.set]: an existing key keeps its position. *)
Fixpoint map_set (k : loc) (d : D) (m : jsmap) : jsmap :=
  match m with
  | [] => [(k, d)]
  | (k', d') :: m' => if decide (k = k') then (k', d) :: m' else (k', d') :: map_set k d m'
  end.

Definition map_has (k : loc) (m : jsmap) : bool :=
  match map_get k m with Some _ => true | None => false end.

Definition map_delete (k : loc) (m : jsmap) : jsmap :=
  List.filter (fun e => negb (bool_decide (e.1 = k))) m.

(** The keys of a [Map] are pairwise distinct. *)
Definition keys_unique (m : jsmap) : Prop := NoDup (map fst m).

End JSMap.

Arguments jsmap : clear implicits.

(** ** The class [HexMap<TData>] *)

Record HexMap (D : Type) := mkHexMap { hexData : jsmap D }.
Arguments mkHexMap {D} _.
Arguments hexData {D} _.

Section HexMapMethods.
Context {D : Type}.

(** [ToBoolean] of a payload, for [get]'s [|| null]. *)
Variable truthy : D -> bool.

Definition empty : HexMap D := mkHexMap [].

(** [forEach(callback)]: the calls [callback(data, hex)], in order. *)
Definition forEach (hm : HexMap D) : list (D * loc) :=
  map (fun e => (e.2, e.1)) (hexData hm).

Definition has (hm : HexMap D) (hex : loc) : bool := map_has hex (hexData hm).

Definition get (hm : HexMap D) (hex : loc) : option D :=
  match map_get hex (hexData hm) with
  | Some d => if truthy d then Some d else None
  | None => None
  end.

Definition set (hm : HexMap D) (hex : loc) (data : D) : HexMap D :=
  mkHexMap (map_set hex data (hexData hm)).

Definition delete (hm : HexMap D) (hex : loc) : HexMap D :=
  mkHexMap (map_delete hex (hexData hm)).

End HexMapMethods.

(** ** Lemmas on [Map] *)

Section JSMapLemmas.
Context {D : Type}.
Implicit Types (m : jsmap D) (k : loc) (d : D).

Lemma map_get_set_eq m k d : map_get k (map_set k d m) = Some d.
Proof.
  induction m as [|[k' d'] m IH]; simpl; [by rewrite decide_True|].
  case_decide; simpl; [by rewrite decide_True|]. by rewrite decide_False.
Qed.

Lemma map_get_set_ne m k k' d : k' <> k -> map_get k' (map_set k d m) = map_get k' m.
Proof.
  intros Hne. induction m as [|[k0 d0] m IH]; simpl; [by rewrite decide_False|].
  case_decide as E; simpl; [subst; by repeat case_decide|]. by rewrite IH.
Qed.

Lemma map_get_delete m k k' :
  map_get k' (map_delete k m) = if decide (k' = k) then None else map_get k' m.
Proof.
  induction m as [|[k0 d0] m IH]; simpl; [by case_decide|].
  unfold map_delete in *. simpl. case_bool_decide; simpl; rewrite IH;
    repeat case_decide; congruence.
Qed.

Lemma map_get_In m k d : map_get k m = Some d -> In (k, d) m.
Proof.
  induction m as [|[k0 d0] m IH]; simpl; [discriminate|].
  case_decide; [intros [= ->]; subst; by left | by right; apply IH].
Qed.

Lemma In_map_get m k d : keys_unique m -> In (k, d) m -> map_get k m = Some d.
Proof.
  unfold keys_unique. induction m as [|[k0 d0] m IH]; simpl; [done|].
  intros Hu. inversion Hu as [|? ? Hn Hu']; subst.
  intros [[= -> ->] | Hin]; [by rewrite decide_True|].
  rewrite decide_False; [by apply IH|]. intros ->. apply Hn.
  apply list_elem_of_In, in_map_iff. by exists (k0, d).
Qed.

(** [set] on a present key keeps the key list; on an absent key it appends. *)
Lemma map_set_keys_in m k d : k ∈ map fst m -> map fst (map_set k d m) = map fst m.
Proof.
  induction m as [|[k0 d0] m IH]; simpl; intros Hin; [by apply elem_of_nil in Hin|].
  case_decide; simpl; [congruence|].
  rewrite IH; [done|]. apply elem_of_cons in Hin as [|]; [congruence | done].
Qed.

Lemma map_set_new m k d : k ∉ map fst m -> map_set k d m = m ++ [(k, d)].
Proof.
  induction m as [|[k0 d0] m IH]; simpl; [done|].
  intros [Hne Hn]%not_elem_of_cons. rewrite decide_False by done. by rewrite IH.
Qed.

Lemma map_set_unique m k d : keys_unique m -> keys_unique (map_set k d m).
Proof.
  unfold keys_unique. intros Hu. destruct (decide (k ∈ map fst m)) as [Hin|Hn].
  - by rewrite map_set_keys_in.
  - rewrite map_set_new, List.map_app by done. apply NoDup_app. split; [done|].
    split; [|apply NoDup_singleton]. intros x Hx ->%list_elem_of_singleton. done.
Qed.

Lemma map_delete_keys m k x : x ∈ map fst (map_delete k m) -> x ∈ map fst m.
Proof.
  rewrite !list_elem_of_In, !in_map_iff. intros (e & <- & He).
  apply filter_In in He as [He _]. eauto.
Qed.

Lemma map_delete_unique m k : keys_unique m -> keys_unique (map_delete k m).
Proof.
  unfold keys_unique. induction m as [|[k0 d0] m IH]; [done|].
  simpl. intros [Hn Hu]%NoDup_cons. unfold map_delete; simpl.
  case_bool_decide; simpl; [by apply IH|].
  apply NoDup_cons. split; [|by apply IH]. intros Hin. by apply Hn, (map_delete_keys m k).
Qed.

End JSMapLemmas.

(** ** The hexagon enumeration *)

Section Hexagon.
Local Open Scope Z_scope.

(** The bounds of the inner loop of [HexagonHexMap]. *)
Definition row_lo (size q0 : Z) : Z := Z.max (- size) (- q0 - size).
Definition row_hi (size q0 : Z) : Z := Z.min size (- q0 + size).

Lemma hexes_within_in (R : Z) (h : hex) :
  In h (hexes_within R) -> valid h /\ max_norm h <= R.
Proof.
  unfold hexes_within. intros (q0 & Hq & Hh)%in_flat_map.
  apply in_map_iff in Hh as (r0 & <- & Hr). apply in_zrange in Hq, Hr.
  unfold valid, max_norm. cbn [q r s]. split; lia.
Qed.

Lemma NoDup_flat_map_by {A B} (f : A -> list B) (g : B -> A) (l : list A) :
  NoDup l -> (forall x, NoDup (f x)) -> (forall x y, In y (f x) -> g y = x) ->
  NoDup (flat_map f l).
Proof.
  intros Hl Hf Hg. induction Hl as [|x l Hn Hl IH]; simpl; [constructor|].
  apply NoDup_app. split; [done|]. split; [|done].
  intros y Hy1 Hy2. apply list_elem_of_In in Hy1, Hy2.
  apply in_flat_map in Hy2 as (x' & Hx' & Hy2). apply Hn, list_elem_of_In.
  by rewrite <- (Hg x y Hy1), (Hg x' y Hy2).
Qed.

Lemma NoDup_zrange' (lo hi : Z) : NoDup (zrange lo hi).
Proof. apply NoDup_ListNoDup, NoDup_zrange. Qed.

(** The enumeration lists each hex once. *)
Lemma hexes_within_NoDup (R : Z) : NoDup (hexes_within R).
Proof.
  apply (NoDup_flat_map_by _ q); [apply NoDup_zrange'| |].
  - intros q0. apply NoDup_ListNoDup, NoDup_map_NoDup_ForallPairs;
      [|apply NoDup_ListNoDup, NoDup_zrange'].
    intros a b _ _ E. by injection E.
  - intros q0 h (r0 & <- & _)%in_map_iff. done.
Qed.

Lemma sum_seq_up (b n c : nat) :
  (2 * list_sum (map (fun k => c + k) (seq b n)) + n = n * (2 * c + 2 * b + n))%nat.
Proof. revert b. induction n as [|n IH]; intros b; simpl; [lia|]. rewrite Nat.add_0_r. specialize (IH (S b)). nia. Qed.

Lemma sum_seq_down (b n c : nat) :
  (b + n <= c + 1 ->
   2 * list_sum (map (fun k => c - k) (seq b n)) + 2 * n * b + n * n = 2 * n * c + n)%nat.
Proof. revert b. induction n as [|n IH]; intros b Hb; simpl; [lia|]. specialize (IH (S b) ltac:(lia)). nia. Qed.

(** The hexagonal number: [3 R^2 + 3 R + 1] hexes of max norm at most [R]. *)
Lemma hexes_within_length (R : Z) :
  0 <= R -> Z.of_nat (length (hexes_within R)) = 3 * R * R + 3 * R + 1.
Proof.
  intros HR. unfold hexes_within, zrange. rewrite length_flat_map, map_map.
  set (n := Z.to_nat R).
  replace (Z.to_nat (R - - R + 1)) with (S n + n)%nat by lia.
  rewrite seq_app, map_app, list_sum_app. simpl (0 + S n)%nat.
  rewrite (map_ext_in _ (fun k => S n + k)%nat (seq 0 (S n))), (map_ext_in _ (fun k => 3 * n + 1 - k)%nat (seq (S n) n)).
  - pose proof (sum_seq_up 0 (S n) (S n)). pose proof (sum_seq_down (S n) n (3 * n + 1) ltac:(lia)). nia.
  - intros k Hk%in_seq. rewrite !length_map, length_seq. lia.
  - intros k Hk%in_seq. rewrite !length_map, length_seq. lia.
Qed.

End Hexagon.

Lemma flat_map_singleton {A B} (f : A -> B) (l : list A) :
  flat_map (fun x => [f x]) l = map f l.
Proof. induction l as [|x l IH]; simpl; [done|]. by rewrite IH. Qed.

Lemma map_flat_map {A B C} (g : B -> C) (f : A -> list B) (l : list A) :
  map g (flat_map f l) = flat_map (fun x => map g (f x)) l.
Proof. induction l as [|x l IH]; simpl; [done|]. by rewrite List.map_app, IH. Qed.

(** ** [HexagonHexMap] *)

(** [type TestData = { color: string }] *)
Record TestData := mkTestData { color : string }.

(** The default [getHexColor]: [() => 'gray']. *)
Definition default_color (_ : hex) : string := "gray"%string.

(** The heap and the map under construction. *)
Definition pop_state : Type := heap * HexMap TestData.

Section Populate.
Local Open Scope Z_scope.
Variable getHexColor : hex -> string.

(** The body of the inner loop:
    [const hex = new Hex(q, r, -q - r); this.set(hex, { color: getHexColor(hex) })] *)
Definition populate_cell (q0 : Z) (st : pop_state) (r0 : Z) : result pop_state :=
  let* h := new_Hex q0 r0 (Some (- q0 - r0))%Z in
  let (l, H') := alloc h st.1 in
  Ok (H', set st.2 l (mkTestData (getHexColor h))).

(** [for (let r = r1; r <= r2; r++)] *)
Definition populate_column (size : Z) (st : pop_state) (q0 : Z) : result pop_state :=
  foldM (populate_cell q0) (zrange (row_lo size q0) (row_hi size q0)) st.

(** [new HexagonHexMap(size, getHexColor)], allocating on the heap [H]:
    [for (let q = -size; q <= size; q++)] *)
Definition HexagonHexMap (size : Z) (H : heap) : result pop_state :=
  foldM (populate_column size) (zrange (- size) size) (H, empty).

(** The state invariant of the construction: the heap is well formed and
    the map's keys are distinct, allocated references. *)
Definition pop_inv (st : pop_state) : Prop :=
  heap_wf st.1 /\ keys_unique (hexData st.2) /\
  forall l, l ∈ map fst (hexData st.2) -> is_Some (objs st.1 !! l).

(** The entries as [forEach] sees them, with the keys dereferenced. *)
Definition deref_entries (st : pop_state) : list (option hex * TestData) :=
  map (fun e => (objs st.1 !! e.1, e.2)) (hexData st.2).

Definition cell_out (h : hex) : option hex * TestData := (Some h, mkTestData (getHexColor h)).

Lemma alloc_fresh (H : heap) : heap_wf H -> objs H !! Loc (next H) = None.
Proof.
  intros Hwf. destruct (objs H !! Loc (next H)) eqn:E; [|done].
  specialize (Hwf _ (mk_is_Some _ _ E)). simpl in Hwf. lia.
Qed.

Lemma alloc_wf (h : hex) (H : heap) : heap_wf H -> heap_wf (alloc h H).2.
Proof.
  intros Hwf l. simpl. rewrite lookup_insert_is_Some.
  intros [<- | [_ Hl]]; simpl; [lia|]. specialize (Hwf l Hl). lia.
Qed.

Lemma fresh_not_key (st : pop_state) :
  pop_inv st -> Loc (next st.1) ∉ map fst (hexData st.2).
Proof.
  intros (Hwf & _ & Hk) Hin. destruct (Hk _ Hin) as [x Hx].
  by rewrite alloc_fresh in Hx.
Qed.

(** One iteration succeeds, keeps the invariant and appends one entry. *)
Lemma populate_cell_step (q0 : Z) (st : pop_state) (r0 : Z) :
  pop_inv st -> exists st', populate_cell q0 st r0 = Ok st' /\ pop_inv st' /\
    deref_entries st' = deref_entries st ++ [cell_out (mkHexT q0 r0 (- q0 - r0))].
Proof.
  intros Hi. pose proof (fresh_not_key st Hi) as Hn.
  destruct st as [H hm], Hi as (Hwf & Hu & Hk). simpl in *.
  unfold populate_cell. rewrite new_Hex_Some_ok by lia. rewrite bind_Ok. simpl.
  eexists. split; [reflexivity|]. unfold set, deref_entries. simpl.
  split; [split; [apply (alloc_wf _ H Hwf) | split; [by apply map_set_unique|]]|].
  - intros l. rewrite map_set_new by done. simpl. rewrite List.map_app.
    intros [Hl | ->%list_elem_of_singleton]%elem_of_app.
    + apply lookup_insert_is_Some. right. split; [|by apply Hk]. intros <-. by apply Hn.
    + by rewrite lookup_insert_eq.
  - rewrite map_set_new by done. simpl. rewrite List.map_app. simpl. rewrite lookup_insert_eq. f_equal.
    apply map_ext_in. intros [l d] Hin. simpl. rewrite lookup_insert_ne; [done|].
    intros <-. apply Hn, list_elem_of_In, in_map_iff. by exists (Loc (next H), d).
Qed.

Lemma pop_inv_init (H : heap) : heap_wf H -> pop_inv (H, empty).
Proof. intros Hwf. split; [done|]. split; [constructor|]. intros l Hl. by apply elem_of_nil in Hl. Qed.

(** The construction never throws; it ends in a state of the invariant
    whose entries are the hexagon enumeration with its colours. *)
Lemma HexagonHexMap_spec (size : Z) (H : heap) :
  heap_wf H -> exists st, HexagonHexMap size H = Ok st /\ pop_inv st /\
    deref_entries st = map cell_out (hexes_within size).
Proof.
  intros Hwf. unfold HexagonHexMap.
  destruct (foldM_append pop_inv deref_entries (populate_column size)
             (fun q0 => map (fun r0 => cell_out (mkHexT q0 r0 (- q0 - r0)))
                            (zrange (row_lo size q0) (row_hi size q0))))
    with (l := zrange (- size) size) (st := (H, empty : HexMap TestData)) as (st & E & Hi & V).
  - intros st q0 Hst. unfold populate_column.
    destruct (foldM_append pop_inv deref_entries (populate_cell q0)
               (fun r0 => [cell_out (mkHexT q0 r0 (- q0 - r0))])
               (fun st r0 Hst => populate_cell_step q0 st r0 Hst)
               (zrange (row_lo size q0) (row_hi size q0)) st Hst) as (st' & E' & Hi' & V').
    exists st'. by rewrite flat_map_singleton in V'.
  - by apply pop_inv_init.
  - exists st. split; [done|]. split; [done|]. rewrite V. simpl.
    unfold hexes_within. rewrite map_flat_map. apply flat_map_ext. intros q0.
    by rewrite map_map.
Qed.

End Populate.

(** ** Lemmas for the theorems *)

Lemma map_get_None {D} (m : jsmap D) (k : loc) : k ∉ map fst m -> map_get k m = None.
Proof.
  intros Hn. destruct (map_get k m) as [d|] eqn:E; [|done]. exfalso. apply Hn.
  apply list_elem_of_In, in_map_iff. exists (k, d). split; [done|]. by apply map_get_In.
Qed.

(** The hexes held by the entries of a state are those of the list it
    dereferences to. *)
Lemma entries_iff (g : hex -> string) (st : pop_state) (l0 : list hex) (h : hex) :
  deref_entries st = map (cell_out g) l0 ->
  (exists l d, In (l, d) (hexData st.2) /\ objs st.1 !! l = Some h) <-> In h l0.
Proof.
  intros V. split.
  - intros (l & d & Hin & Hl).
    assert (In (Some h, d) (map (cell_out g) l0)) as Hc.
    { rewrite <- V, <- Hl. apply (in_map (fun e => (objs st.1 !! e.1, e.2)) _ _ Hin). }
    apply in_map_iff in Hc as (h' & [= -> _] & Hh). done.
  - intros Hh. apply (in_map (cell_out g)) in Hh. rewrite <- V in Hh.
    apply in_map_iff in Hh as ([l d] & [= Hl _] & Hin). eauto.
Qed.

Lemma len_le_iff (h : hex) (R : Z) :
  valid h -> (len h <= inject_Z R)%Q <-> (max_norm h <= R)%Z.
Proof. intros Hv. rewrite (len_max_norm h Hv), Zle_Qle. reflexivity. Qed.

(** ** Theorems *)

(** C30: [new HexagonHexMap(size, getHexColor)] never throws, for every
    [size] and colour function; its [Map] has distinct keys, and its entries,
    in insertion (hence [forEach]) order, hold freshly allocated [Hex]
    objects whose values are the hexes of the hexagon enumeration
    [hexes_within size] (the loop's own order), each with the payload
    [{ color: getHexColor(hex) }]. *)
Theorem hexagon_map_contents (getHexColor : hex -> string) (size : Z) (H : heap) :
  heap_wf H ->
  exists H' hm, HexagonHexMap getHexColor size H = Ok (H', hm) /\ keys_unique (hexData hm) /\
    map (fun e => (objs H' !! e.1, e.2)) (hexData hm)
    = map (fun h => (Some h, mkTestData (getHexColor h))) (hexes_within size).
Proof.
  intros Hwf.
  destruct (HexagonHexMap_spec getHexColor size H Hwf) as ([H' hm] & E & (_ & Hu & _) & V).
  exists H', hm. auto.
Qed.

(** C31: A hexagon map of radius [size >= 0] has exactly
    [3 size^2 + 3 size + 1] entries. *)
Theorem hexagon_map_count (getHexColor : hex -> string) (size : Z) (H : heap) :
  heap_wf H -> (0 <= size)%Z ->
  exists H' hm, HexagonHexMap getHexColor size H = Ok (H', hm) /\
    Z.of_nat (length (hexData hm)) = (3 * size * size + 3 * size + 1)%Z.
Proof.
  intros Hwf Hs.
  destruct (HexagonHexMap_spec getHexColor size H Hwf) as ([H' hm] & E & _ & V).
  exists H', hm. split; [done|]. apply (f_equal length) in V.
  unfold deref_entries in V. rewrite !length_map in V. simpl in V.
  rewrite V. by apply hexes_within_length.
Qed.

(** C32: The hexes of a hexagon map are pairwise distinct, and a hex is in
    the map exactly when it is valid and [len() <= size]. *)
Theorem hexagon_map_hexes (getHexColor : hex -> string) (size : Z) (H : heap) :
  heap_wf H ->
  exists H' hm, HexagonHexMap getHexColor size H = Ok (H', hm) /\
    NoDup (map (fun e => objs H' !! e.1) (hexData hm)) /\
    forall h, (exists l d, In (l, d) (hexData hm) /\ objs H' !! l = Some h)
              <-> valid h /\ (len h <= inject_Z size)%Q.
Proof.
  intros Hwf.
  destruct (HexagonHexMap_spec getHexColor size H Hwf) as ([H' hm] & E & _ & V).
  exists H', hm. split; [done|]. split.
  - replace (map (fun e => objs H' !! e.1) (hexData hm)) with (map fst (deref_entries (H', hm)))
      by (unfold deref_entries; by rewrite map_map).
    rewrite V, map_map. apply NoDup_ListNoDup, NoDup_map_NoDup_ForallPairs;
      [|apply NoDup_ListNoDup, hexes_within_NoDup].
    intros a b _ _ [= ->]. done.
  - intros h. rewrite (entries_iff getHexColor (H', hm) _ h V). split.
    + intros Hh. destruct (hexes_within_in size h Hh). split; [done|]. by apply len_le_iff.
    + intros [Hv Hl]. apply in_hexes_within; [done|]. by apply (len_le_iff h size Hv).
Qed.

(** C33: Keys are compared by reference, not by value: for a hex [h] of
    the hexagon, the map holds an object equal to [h], yet for a new object
    [new Hex(h.q, h.r, h.s)] with the same coordinates [has] is [false] and
    [get] is [null]. *)
Theorem hexmap_has_by_reference (getHexColor : hex -> string) (size : Z) (H : heap) (h : hex) :
  heap_wf H -> valid h -> (max_norm h <= size)%Z ->
  exists H' hm, HexagonHexMap getHexColor size H = Ok (H', hm) /\
    (exists l0, objs H' !! l0 = Some h /\ has hm l0 = true) /\
    forall l H'', new_Hex_obj (q h) (r h) (Some (s h)) H' = Ok (l, H'') ->
      has hm l = false /\ get (fun _ => true) hm l = None.
Proof.
  intros Hwf Hv Hh.
  destruct (HexagonHexMap_spec getHexColor size H Hwf) as ([H' hm] & E & Hi & V).
  exists H', hm. split; [done|]. split.
  - destruct (proj2 (entries_iff getHexColor (H', hm) _ h V) (in_hexes_within size h Hv Hh))
      as (l0 & d & Hin & Hl0).
    exists l0. split; [done|]. unfold has, map_has.
    by rewrite (In_map_get (hexData hm) l0 d (proj1 (proj2 Hi)) Hin).
  - intros l H''. unfold new_Hex_obj. rewrite new_Hex_Some_ok by exact Hv.
    rewrite bind_Ok. intros [= <- _].
    unfold has, get, map_has. by rewrite map_get_None by apply (fresh_not_key (H', hm) Hi).
Qed.

(** [forEach] on a map with distinct keys calls its callback once per
    entry: the keys of the calls are pairwise distinct, and
    [callback(d, k)] is called exactly when [k] is a key with payload [d]. *)
Lemma forEach_once_per_entry {D} (hm : HexMap D) :
  keys_unique (hexData hm) ->
  NoDup (map snd (forEach hm)) /\
  forall k d, In (d, k) (forEach hm) <-> map_get k (hexData hm) = Some d.
Proof.
  intros Hu. unfold forEach. rewrite map_map. simpl. split; [exact Hu|].
  intros k d. rewrite in_map_iff. split.
  - intros ([k' d'] & [= <- <-] & Hin). by apply In_map_get.
  - intros E. exists (k, d). split; [done|]. by apply map_get_In.
Qed.


(** ** Witnesses *)

Lemma empty_heap_wf : heap_wf (mkHeap ∅ 1).
Proof. intros l. simpl. rewrite lookup_empty. by intros []. Defined.

Lemma hexagon_map_contents_witness :
  exists H' hm, HexagonHexMap default_color 2 (mkHeap ∅ 1) = Ok (H', hm) /\
    keys_unique (hexData hm) /\
    map (fun e => (objs H' !! e.1, e.2)) (hexData hm)
    = map (fun h => (Some h, mkTestData (default_color h))) (hexes_within 2).
Proof. apply hexagon_map_contents, empty_heap_wf. Defined.

Lemma hexagon_map_count_witness :
  exists H' hm, HexagonHexMap default_color 2 (mkHeap ∅ 1) = Ok (H', hm) /\
    Z.of_nat (length (hexData hm)) = (3 * 2 * 2 + 3 * 2 + 1)%Z.
Proof. apply hexagon_map_count; [apply empty_heap_wf | lia]. Defined.

Lemma hexagon_map_hexes_witness :
  exists H' hm, HexagonHexMap default_color 1 (mkHeap ∅ 1) = Ok (H', hm) /\
    NoDup (map (fun e => objs H' !! e.1) (hexData hm)) /\
    forall h, (exists l d, In (l, d) (hexData hm) /\ objs H' !! l = Some h)
              <-> valid h /\ (len h <= inject_Z 1)%Q.
Proof. apply hexagon_map_hexes, empty_heap_wf. Defined.

Lemma hexmap_has_by_reference_witness :
  exists H' hm, HexagonHexMap default_color 1 (mkHeap ∅ 1) = Ok (H', hm) /\
    (exists l0, objs H' !! l0 = Some (mkHexT 0 0 0)%Z /\ has hm l0 = true) /\
    forall l H'', new_Hex_obj 0 0 (Some 0%Z) H' = Ok (l, H'') ->
      has hm l = false /\ get (fun _ => true) hm l = None.
Proof.
  apply (hexmap_has_by_reference default_color 1 (mkHeap ∅ 1) (mkHexT 0 0 0)%Z);
    [apply empty_heap_wf | reflexivity | vm_compute; discriminate].
Defined.



End HexMap.
