(* ===== verification/Population.v ===== *)
(** * Population: the loops of the [HexagonHexMap] constructor, step by step

    [src/src/lib/hex/maps/hexagon-map.ts] fills the map with two nested
    [for] loops.  [HexMap] models them as nested [foldM]s (big-step).  This
    file gives the same loops as a small-step machine whose states are the
    points of control of the constructor: the test of the outer loop
    ([Outer q]), the test of the inner loop ([Inner q r]), the end of the
    constructor ([Done]) and an exception ([Thrown]).  The body of the
    inner loop is [populate_cell] of [HexMap].

    Theorems: the machine is deterministic; every run from the start is
    finite (a measure decreases along the invariant of the loop counters);
    the run from the start reaches the end, in the state that the big-step
    model computes, and no run gets stuck or throws. *)

From Stdlib Require Import ZArith List String Lia.
From stdpp Require Import base gmap list.
From S2P Require Import Prelude Hex FracHex HexMap.
Import ListNotations.
Import Hex FracHex HexMap.

Module Population.

Section Loop.
Local Open Scope Z_scope.

Variable getHexColor : hex -> string.
Variable size : Z.

(** The points of control of the constructor. *)
Inductive loop_state :=
  | Outer (q0 : Z) (st : pop_state)       (* at [q <= size] *)
  | Inner (q0 r0 : Z) (st : pop_state)    (* at [r <= r2] *)
  | Done (st : pop_state)
  | Thrown (e : js_error).

Inductive step : loop_state -> loop_state -> Prop :=
  | step_enter q0 st :
      q0 <= size -> step (Outer q0 st) (Inner q0 (row_lo size q0) st)
  | step_exit q0 st :
      size < q0 -> step (Outer q0 st) (Done st)
  | step_body q0 r0 st st' :
      r0 <= row_hi size q0 -> populate_cell getHexColor q0 st r0 = Ok st' ->
      step (Inner q0 r0 st) (Inner q0 (r0 + 1) st')
  | step_throw q0 r0 st e :
      r0 <= row_hi size q0 -> populate_cell getHexColor q0 st r0 = Err e ->
      step (Inner q0 r0 st) (Thrown e)
  | step_next q0 r0 st :
      row_hi size q0 < r0 -> step (Inner q0 r0 st) (Outer (q0 + 1) st).

(** [super()], then the outer loop from [q = -size], on the heap [H]. *)
Definition init (H : heap) : loop_state := Outer (- size) (H, empty).

(** ** Lemmas *)

Lemma step_det (s s1 s2 : loop_state) : step s s1 -> step s s2 -> s1 = s2.
Proof. intros H1 H2. inversion H1; subst; inversion H2; subst; congruence || lia. Qed.

Lemma final_irreducible (s : loop_state) :
  irreducible step s <-> (exists st, s = Done st) \/ (exists e, s = Thrown e).
Proof.
  split.
  - intros Hirr. destruct s as [q0 st|q0 r0 st|st|e]; eauto; exfalso.
    + destruct (Z_le_gt_dec q0 size); eapply Hirr; constructor; lia.
    + destruct (Z_le_gt_dec r0 (row_hi size q0)).
      * destruct (populate_cell getHexColor q0 st r0) as [st'|e] eqn:E;
          eapply Hirr; [eapply step_body | eapply step_throw]; eauto.
      * eapply Hirr. apply step_next. lia.
  - intros [[st ->] | [e ->]] s' Hs; inversion Hs.
Qed.

(** The inner loop from [r] runs its [foldM]. *)
Lemma inner_run (q0 : Z) (n : nat) : forall r0 st st',
  n = Z.to_nat (row_hi size q0 - r0 + 1) ->
  foldM (populate_cell getHexColor q0) (zrange r0 (row_hi size q0)) st = Ok st' ->
  exists r', star step (Inner q0 r0 st) (Inner q0 r' st') /\ row_hi size q0 < r'.
Proof.
  induction n as [|n IH]; intros r0 st st' Hn E.
  - rewrite zrange_nil in E by lia. injection E as <-. exists r0. split; [constructor | lia].
  - rewrite zrange_cons in E by lia. simpl in E.
    destruct (populate_cell getHexColor q0 st r0) as [st1|e] eqn:E1; [|discriminate].
    rewrite bind_Ok in E. destruct (IH (r0 + 1) st1 st') as (r' & Hr & Hlt); [lia | exact E|].
    exists r'. split; [|exact Hlt]. eapply star_step; [apply step_body; eauto; lia | exact Hr].
Qed.

(** The outer loop from [q] runs its [foldM]. *)
Lemma outer_run (n : nat) : forall q0 st st',
  n = Z.to_nat (size - q0 + 1) ->
  foldM (populate_column getHexColor size) (zrange q0 size) st = Ok st' ->
  star step (Outer q0 st) (Done st').
Proof.
  induction n as [|n IH]; intros q0 st st' Hn E.
  - rewrite zrange_nil in E by lia. injection E as <-. apply star_one, step_exit. lia.
  - rewrite zrange_cons in E by lia. simpl in E.
    destruct (populate_column getHexColor size st q0) as [st1|e] eqn:E1; [|discriminate].
    rewrite bind_Ok in E. unfold populate_column in E1.
    destruct (inner_run q0 _ (row_lo size q0) st st1 eq_refl E1) as (r' & Hr & Hlt).
    eapply star_step; [apply step_enter; lia|]. eapply star_trans; [exact Hr|].
    eapply star_step; [apply step_next; exact Hlt|]. apply (IH (q0 + 1)); [lia | exact E].
Qed.

(** The invariant of the loop counters. *)
Definition counters_ok (s : loop_state) : Prop :=
  match s with
  | Outer q0 _ => - size <= q0
  | Inner q0 r0 _ => - size <= q0 <= size /\ row_lo size q0 <= r0 <= row_hi size q0 + 1
  | _ => True
  end.

(** The number of tests left, bounded through the width [2 size + 4] of a
    row. *)
Definition measure (s : loop_state) : nat :=
  match s with
  | Outer q0 _ => S (Z.to_nat ((size - q0 + 1) * (2 * size + 4)))
  | Inner q0 r0 _ => S (Z.to_nat ((size - q0) * (2 * size + 4) + (row_hi size q0 - r0 + 2)))
  | _ => O
  end.

Lemma step_measure (a b : loop_state) :
  counters_ok a -> step a b -> counters_ok b /\ (measure b < measure a)%nat.
Proof.
  intros Ha Hs. unfold row_lo, row_hi in *.
  inversion Hs; subst; simpl in *; unfold row_lo, row_hi in *; split; try lia; nia.
Qed.

End Loop.

(** ** Theorems *)

(** C12: The constructor's loops always finish: on a well-formed heap
    every run of the machine from the start is finite, the run reaches the
    end [Done st] where [st] is the state the big-step model
    [HexagonHexMap] computes, and every run that stops stops there (it never
    gets stuck and never throws). *)
Theorem hexagon_loop_live (getHexColor : hex -> string) (size : Z) (H : heap) :
  heap_wf H ->
  Acc (fun y x => step getHexColor size x y) (init size H) /\
  exists st, HexagonHexMap getHexColor size H = Ok st /\
    star (step getHexColor size) (init size H) (Done st) /\
    forall s, star (step getHexColor size) (init size H) s ->
              irreducible (step getHexColor size) s -> s = Done st.
Proof.
  intros Hwf. split.
  - apply (acc_by_measure _ (counters_ok size) (measure size)); [apply step_measure|].
    simpl. lia.
  - destruct (HexagonHexMap_spec getHexColor size H Hwf) as (st & E & _).
    assert (Hrun : star (step getHexColor size) (init size H) (Done st))
      by (apply (outer_run getHexColor size _ (- size) _ _ eq_refl); exact E).
    exists st. split; [exact E|]. split; [exact Hrun|]. intros s' Hs Hirr.
    apply star_irreducible_eq with (R := step getHexColor size); [|exact Hirr].
    apply (star_star_inv _ (step_det getHexColor size) (init size H)); [exact Hs | exact Hrun|].
    apply final_irreducible. eauto.
Qed.

(** ** Witness *)

Lemma hexagon_loop_live_witness :
  Acc (fun y x => step default_color 2 x y) (init 2 (mkHeap ∅ 1)) /\
  exists st, HexagonHexMap default_color 2 (mkHeap ∅ 1) = Ok st /\
    star (step default_color 2) (init 2 (mkHeap ∅ 1)) (Done st) /\
    forall s, star (step default_color 2) (init 2 (mkHeap ∅ 1)) s ->
              irreducible (step default_color 2) s -> s = Done st.
Proof. apply hexagon_loop_live, empty_heap_wf. Defined.

End Population.
