(* ===== verification/Config.v ===== *)
(** * Config: [src/src/lib/hex/config.ts]

    [HexMapConfig] pairs a [populate] callback, which fills a map in place,
    with a [render] callback, which draws a map on a canvas context.  Both
    are mutations, so the model gives them as functions on a state [St]
    (the heap holding the map) and on a context [Ctx] (the canvas' calls).
    The class's builders return new configurations and never touch the old
    one. *)

From S2P Require Import Prelude.

Module Config.

Section Config.
Context {St Ctx : Type}.

Record HexMapConfig := mkHexMapConfig {
  populate : St -> St;
  render : Ctx -> St -> Ctx }.

(** The field initialisers [() => {}], overwritten by the constructor. *)
Definition default_populate : St -> St := fun s => s.
Definition default_render : Ctx -> St -> Ctx := fun ctx _ => ctx.

(** [new HexMapConfig(populate, render)]: the initialisers run, then the
    constructor's assignments replace both fields. *)
Definition new_HexMapConfig (populate' : St -> St) (render' : Ctx -> St -> Ctx) : HexMapConfig :=
  let this := mkHexMapConfig default_populate default_render in
  let this := mkHexMapConfig populate' (render this) in
  mkHexMapConfig (populate this) render'.

Definition withPopulate (c : HexMapConfig) (populate' : St -> St) : HexMapConfig :=
  new_HexMapConfig populate' (render c).

Definition withRender (c : HexMapConfig) (render' : Ctx -> St -> Ctx) : HexMapConfig :=
  new_HexMapConfig (populate c) render'.

Definition withPopulateAndRender (c : HexMapConfig) (populate' : St -> St)
    (render' : Ctx -> St -> Ctx) : HexMapConfig :=
  new_HexMapConfig populate' render'.

End Config.

End Config.
