(* ===== verification/Layout.v ===== *)
(** * Layout: [src/src/lib/hex/orientation.ts] and [src/src/lib/hex/layout.ts]

    A [HexLayout] is an orientation (the forward matrix [f0..f3], the
    inverse matrix [b0..b3] and the start angle), a [size] and an [origin].
    [hexToPixel] applies the forward matrix to [(q, r)], scales by [size]
    and translates by [origin]; [pixelToHex] undoes the translation and the
    scaling and applies the inverse matrix, returning a [Point] [(q, r)].
    [hexCornerOffset(corner)] throws outside [0..5] and otherwise is
    [size ⊙ (cos a, sin a)] for [a = 2π (start_angle - corner) / 6];
    [polygonCorners] adds the six offsets to the centre.

    Numbers are real numbers ([R]): [Math.sqrt(3.0)] is [sqrt 3],
    [Math.PI] is [PI], [Math.cos] and [Math.sin] are [cos] and [sin].  The
    theorems are the exact laws of which the floating-point code computes
    a rounding; rounding is not modelled here (FloatHex treats it for
    [linedraw], where it changes the outcome). *)

From Stdlib Require Import ZArith Bool Reals Lra Lia List.
From S2P Require Import Prelude Hex.
Import ListNotations.
Import Hex.

Module Layout.

Local Open Scope R_scope.

(** [class Point { x; y }] *)
Record Point := mkPoint { x : R; y : R }.

(** [class HexOrientation] *)
Record HexOrientation := mkOrientation {
  f0 : R; f1 : R; f2 : R; f3 : R;
  b0 : R; b1 : R; b2 : R; b3 : R;
  start_angle : R }.

(** [HexOrientation.pointy] *)
Definition pointy : HexOrientation :=
  mkOrientation (sqrt 3) (sqrt 3 / 2) 0 (3 / 2) (sqrt 3 / 3) (-1 / 3) 0 (2 / 3) 0.5.

(** [HexOrientation.flat] *)
Definition flat : HexOrientation :=
  mkOrientation (3 / 2) 0 (sqrt 3 / 2) (sqrt 3) (2 / 3) 0 (-1 / 3) (sqrt 3 / 3) 0.

(** [class HexLayout { orientation; size; origin }] *)
Record HexLayout := mkLayout { orientation : HexOrientation; size : Point; origin : Point }.

(** [HexLayout.corners = [0, 1, 2, 3, 4, 5]] *)
Definition corners : list Z := [0; 1; 2; 3; 4; 5]%Z.

Section Methods.
Variable L : HexLayout.

Definition hexToPixel (h : hex) : Point :=
  let M := orientation L in
  let x0 := (f0 M * IZR (q h) + f1 M * IZR (r h)) * x (size L) in
  let y0 := (f2 M * IZR (q h) + f3 M * IZR (r h)) * y (size L) in
  mkPoint (x0 + x (origin L)) (y0 + y (origin L)).

Definition pixelToHex (p : Point) : Point :=
  let M := orientation L in
  let pt := mkPoint ((x p - x (origin L)) / x (size L)) ((y p - y (origin L)) / y (size L)) in
  mkPoint (b0 M * x pt + b1 M * y pt) (b2 M * x pt + b3 M * y pt).

Definition hexCornerOffset (corner : Z) : result Point :=
  if ((corner <? 0)%Z || (corner >? 5)%Z)%bool then Err IndexOutOfRange
  else
    let M := orientation L in
    let angle := 2 * PI * (start_angle M - IZR corner) / 6 in
    Ok (mkPoint (x (size L) * cos angle) (y (size L) * sin angle)).

Definition polygonCorners (h : hex) : result (list Point) :=
  let center := hexToPixel h in
  mapM (fun i => let* offset := hexCornerOffset i in
                 Ok (mkPoint (x center + x offset) (y center + y offset))) corners.

End Methods.

(** ** Lemmas *)

(** The inverse matrix of an orientation is a left inverse of its forward
    matrix. *)
Definition orient_inverse (M : HexOrientation) : Prop :=
  b0 M * f0 M + b1 M * f2 M = 1 /\ b0 M * f1 M + b1 M * f3 M = 0 /\
  b2 M * f0 M + b3 M * f2 M = 0 /\ b2 M * f1 M + b3 M * f3 M = 1.

Lemma sqrt3_sq : sqrt 3 * sqrt 3 = 3.
Proof. apply sqrt_sqrt. lra. Qed.

Lemma pointy_inverse : orient_inverse pointy.
Proof.
  unfold orient_inverse, pointy; simpl. pose proof sqrt3_sq.
  repeat split; field_simplify; lra.
Qed.

Lemma flat_inverse : orient_inverse flat.
Proof.
  unfold orient_inverse, flat; simpl. pose proof sqrt3_sq.
  repeat split; field_simplify; lra.
Qed.

Lemma unscale (a s o : R) : s <> 0 -> (a * s + o - o) / s = a.
Proof. intros Hs. field. exact Hs. Qed.

Lemma pixelToHex_hexToPixel (L : HexLayout) (h : hex) :
  orient_inverse (orientation L) -> x (size L) <> 0 -> y (size L) <> 0 ->
  pixelToHex L (hexToPixel L h) = mkPoint (IZR (q h)) (IZR (r h)).
Proof.
  intros (E1 & E2 & E3 & E4) Hx Hy. unfold pixelToHex, hexToPixel; simpl.
  rewrite !unscale by assumption. set (M := orientation L) in *. f_equal.
  - transitivity ((b0 M * f0 M + b1 M * f2 M) * IZR (q h) + (b0 M * f1 M + b1 M * f3 M) * IZR (r h));
      [ring | rewrite E1, E2; ring].
  - transitivity ((b2 M * f0 M + b3 M * f2 M) * IZR (q h) + (b2 M * f1 M + b3 M * f3 M) * IZR (r h));
      [ring | rewrite E3, E4; ring].
Qed.

(** The squared distance of two points. *)
Definition dist2 (a b : Point) : R := (x a - x b) ^ 2 + (y a - y b) ^ 2.

(** The angle of corner [i]. *)
Definition corner_angle (L : HexLayout) (i : Z) : R :=
  2 * PI * (start_angle (orientation L) - IZR i) / 6.

(** Corner [i] of the hex [h]. *)
Definition corner_point (L : HexLayout) (h : hex) (i : Z) : Point :=
  mkPoint (x (hexToPixel L h) + x (size L) * cos (corner_angle L i))
          (y (hexToPixel L h) + y (size L) * sin (corner_angle L i)).

Lemma hexCornerOffset_ok (L : HexLayout) (i : Z) :
  (0 <= i <= 5)%Z ->
  hexCornerOffset L i = Ok (mkPoint (x (size L) * cos (corner_angle L i))
                                    (y (size L) * sin (corner_angle L i))).
Proof.
  intros Hi. unfold hexCornerOffset.
  replace ((i <? 0)%Z || (i >? 5)%Z)%bool with false; [reflexivity|].
  symmetry. apply orb_false_iff. rewrite Z.gtb_ltb. split; apply Z.ltb_ge; lia.
Qed.

Lemma polygonCorners_ok (L : HexLayout) (h : hex) :
  polygonCorners L h = Ok (map (corner_point L h) corners).
Proof.
  apply mapM_ok. intros i Hi. rewrite hexCornerOffset_ok; [reflexivity|].
  simpl in Hi. lia.
Qed.

Lemma dist2_corner_center (L : HexLayout) (h : hex) (i : Z) :
  x (size L) = y (size L) -> dist2 (corner_point L h i) (hexToPixel L h) = x (size L) ^ 2.
Proof.
  intros E. unfold dist2, corner_point; simpl. rewrite <- E.
  pose proof (sin2_cos2 (corner_angle L i)) as T. unfold Rsqr in T. nra.
Qed.

Lemma dist2_corners (L : HexLayout) (h : hex) (i j : Z) :
  x (size L) = y (size L) ->
  dist2 (corner_point L h i) (corner_point L h j)
  = x (size L) ^ 2 * (2 - 2 * cos (corner_angle L i - corner_angle L j)).
Proof.
  intros E. unfold dist2, corner_point; simpl. rewrite <- E, cos_minus.
  pose proof (sin2_cos2 (corner_angle L i)) as T1. pose proof (sin2_cos2 (corner_angle L j)) as T2.
  unfold Rsqr in T1, T2. nra.
Qed.

Lemma corner_step (L : HexLayout) (i j : Z) :
  j = (i + 1)%Z -> cos (corner_angle L i - corner_angle L j) = 1 / 2.
Proof.
  intros ->. unfold corner_angle. rewrite plus_IZR.
  replace (2 * PI * (start_angle (orientation L) - IZR i) / 6
           - 2 * PI * (start_angle (orientation L) - (IZR i + 1)) / 6) with (PI / 3) by field.
  rewrite cos_PI3. field.
Qed.

Lemma corner_wrap (L : HexLayout) : cos (corner_angle L 5 - corner_angle L 0) = 1 / 2.
Proof.
  unfold corner_angle.
  replace (2 * PI * (start_angle (orientation L) - IZR 5) / 6
           - 2 * PI * (start_angle (orientation L) - IZR 0) / 6) with (PI / 3 - 2 * PI)
    by (simpl; field).
  rewrite cos_minus, cos_2PI, sin_2PI, cos_PI3. field.
Qed.

(** ** Theorems *)


(** C36: [polygonCorners(h)] never throws and returns 6 points; when
    [size.x = size.y = s] every corner is at distance [|s|] from
    [hexToPixel(h)] and consecutive corners (the last and the first
    included) are at distance [|s|] from each other: a regular hexagon. *)
Theorem polygon_corners_regular (L : HexLayout) (h : hex) :
  x (size L) = y (size L) ->
  exists cs, polygonCorners L h = Ok cs /\ length cs = 6%nat /\
    (forall c, In c cs -> dist2 c (hexToPixel L h) = x (size L) ^ 2) /\
    (forall i, (i < 6)%nat ->
       dist2 (nth i cs (hexToPixel L h)) (nth ((i + 1) mod 6) cs (hexToPixel L h))
       = x (size L) ^ 2).
Proof.
  intros E. eexists. rewrite polygonCorners_ok. split; [reflexivity|]. split; [reflexivity|].
  split.
  - intros c (i & <- & _)%in_map_iff. now apply dist2_corner_center.
  - intros i Hi.
    do 6 (destruct i as [|i];
          [simpl; rewrite dist2_corners by exact E;
           first [rewrite corner_step by reflexivity | rewrite corner_wrap]; field |]).
    lia.
Qed.


(** ** Witnesses *)


Lemma polygon_corners_regular_witness :
  exists cs, polygonCorners (mkLayout pointy (mkPoint 10 10) (mkPoint 0 0)) (mkHexT 1 0 (-1))%Z = Ok cs /\
    length cs = 6%nat /\
    (forall c, In c cs -> dist2 c (hexToPixel (mkLayout pointy (mkPoint 10 10) (mkPoint 0 0)) (mkHexT 1 0 (-1))%Z) = 10 ^ 2) /\
    (forall i, (i < 6)%nat ->
       dist2 (nth i cs (hexToPixel (mkLayout pointy (mkPoint 10 10) (mkPoint 0 0)) (mkHexT 1 0 (-1))%Z))
             (nth ((i + 1) mod 6) cs (hexToPixel (mkLayout pointy (mkPoint 10 10) (mkPoint 0 0)) (mkHexT 1 0 (-1))%Z))
       = 10 ^ 2).
Proof. apply (polygon_corners_regular (mkLayout pointy (mkPoint 10 10) (mkPoint 0 0))). reflexivity. Defined.

End Layout.
