(* ===== verification/Random.v ===== *)
(** * Random: the two uses of [Math.random]

    [Noise.random2()] in [src/src/lib/noise/noise.ts] returns
    [new Point(Math.random(), Math.random())], and [remapRandom()] in
    [src/src/lib/hex/renderer.ts] returns [Math.random() * 2 - 1].
    [Math.random] is modelled as what the program observes of it: a
    sequence of samples in [0, 1) and the position of the next one, passed
    as explicit state.  Arguments are evaluated left to right, so the [x]
    of the point is the first sample drawn. *)

From Stdlib Require Import Reals Lra.
From S2P Require Import Prelude Layout.
Import Layout.

Module Random.

Local Open Scope R_scope.

(** The generator: its samples and the index of the next one. *)
Record rng := mkRng { samples : nat -> R; pos : nat }.

(** [Math.random()] *)
Definition math_random (g : rng) : R * rng :=
  (samples g (pos g), mkRng (samples g) (S (pos g))).

(** [Noise.random2()] *)
Definition random2 (g : rng) : Point * rng :=
  let (x0, g1) := math_random g in
  let (y0, g2) := math_random g1 in
  (mkPoint x0 y0, g2).

(** [remapRandom()] *)
Definition remapRandom (g : rng) : R * rng :=
  let (v, g1) := math_random g in (v * 2 - 1, g1).

(** The samples of a generator are in [0, 1). *)
Definition in_unit (g : rng) : Prop := forall i, 0 <= samples g i < 1.

(** ** Lemmas *)

(** [random2] draws the next two samples, [x] first, into the unit square;
    [remapRandom] draws one into [-1, 1); both keep the generator's
    samples. *)
Lemma random2_spec (g : rng) :
  in_unit g ->
  random2 g = (mkPoint (samples g (pos g)) (samples g (S (pos g))), mkRng (samples g) (S (S (pos g)))) /\
  0 <= samples g (pos g) < 1 /\ 0 <= samples g (S (pos g)) < 1.
Proof. intros Hu. split; [reflexivity|]. split; apply Hu. Qed.

Lemma remapRandom_bounds (g : rng) :
  in_unit g -> -1 <= fst (remapRandom g) < 1 /\ in_unit (snd (remapRandom g)).
Proof. intros Hu. simpl. split; [specialize (Hu (pos g)); lra | exact Hu]. Qed.

End Random.
