(* ===== verification/Renderer.v ===== *)
(** * Renderer: [src/src/lib/hex/renderer.ts]

    [HexMapRenderer.renderMap(ctx, map, shape, clear)] draws on a canvas.
    The canvas is modelled by the sequence of calls and assignments the
    renderer makes on [ctx] (a [cmd] trace); drawing itself is the
    browser's.  [renderHex] computes the polygon corners of the hex, begins
    a path, traces the hexagon ([moveTo] the first corner, [lineTo] the
    five others, [closePath]) or a circle ([arc] at the centre, radius
    [size.y / 2]), sets both styles to [data?.color || 'black'], the line
    width to 2, and fills and strokes.  [renderMap] optionally clears and
    paints the background, then renders every entry of the map in
    [forEach] order; a throwing [renderHex] ends the whole call.

    The renderer needs three things of its layout: [hexToPixel],
    [polygonCorners] and [size.y].  They are the class [LayoutOps]; the
    law the renderer relies on (six corners, never an exception) is the
    class [LayoutLaws], and the [HexLayout] of [Layout] is an instance of
    both.  The renderer object [HexMapRenderer] holds the layout and the
    background colour, ['transparent'] when the constructor is given
    none. *)

From Stdlib Require Import ZArith Reals Lra List String.
From stdpp Require Import base gmap list.
From S2P Require Import Prelude Hex FracHex HexMap Layout.
Import ListNotations.
Import Hex FracHex HexMap Layout.

Module Renderer.

Local Open Scope R_scope.

(** ** What the renderer needs of a layout *)

Class LayoutOps (Lay : Type) := {
  lay_hexToPixel : Lay -> hex -> Point;
  lay_polygonCorners : Lay -> hex -> result (list Point);
  lay_size_y : Lay -> R
}.

Class LayoutLaws (Lay : Type) `{LayoutOps Lay} := {
  lay_corners_six : forall L h, exists cs, lay_polygonCorners L h = Ok cs /\ length cs = 6%nat
}.

(** ** The canvas calls *)

Inductive shape := Hexagon | Circle.

Inductive cmd :=
  | ClearRect (x0 y0 w h : R)
  | FillStyle (c : string)
  | FillRect (x0 y0 w h : R)
  | BeginPath
  | MoveTo (x0 y0 : R)
  | LineTo (x0 y0 : R)
  | ClosePath
  | Arc (x0 y0 radius a0 a1 : R)
  | StrokeStyle (c : string)
  | LineWidth (w : R)
  | Fill
  | Stroke.

(** [data?.color || 'black'] for a payload that may be [null]. *)
Definition fill_color (data : option TestData) : string :=
  match data with
  | Some d => if String.eqb (color d) "" then "black" else color d
  | None => "black"
  end.

(** [corners[i].x, corners[i].y]: reading past the end of the array reads
    a property of [undefined] and throws. *)
Definition corner_at (cs : list Point) (i : Z) : result Point :=
  match js_index cs i with Some p => Ok p | None => Err TypeError end.

Section Render.
Context `{LayoutOps Lay}.
Variable layout : Lay.

(** [case 'hexagon']: [moveTo(corners[0])], [lineTo(corners[i])] for
    [i = 1 .. 5], [closePath()]. *)
Definition hexagon_path (cs : list Point) : result (list cmd) :=
  let* c0 := corner_at cs 0 in
  let* rest := mapM (fun i => let* c := corner_at cs i in Ok (LineTo (x c) (y c))) (zrange 1 5) in
  Ok (MoveTo (x c0) (y c0) :: rest ++ [ClosePath]).

Definition renderHex (hex : hex) (data : option TestData) (sh : shape) : result (list cmd) :=
  let* corners := lay_polygonCorners layout hex in
  let* path :=
    match sh with
    | Hexagon => hexagon_path corners
    | Circle =>
        let center := lay_hexToPixel layout hex in
        Ok [Arc (x center) (y center) (lay_size_y layout / 2) 0 (2 * PI)]
    end in
  let c := fill_color data in
  Ok (BeginPath :: path ++ [FillStyle c; StrokeStyle c; LineWidth 2; Fill; Stroke]).

(** [renderMap(ctx, map, shape, clear)] on a canvas of [width] by
    [height], with the heap that holds the map's [Hex] objects. *)
Definition renderMap (backgroundColor : string) (width height : R) (Hp : heap)
    (map : HexMap TestData) (sh : shape) (clear : bool) : result (list cmd) :=
  let pre := if clear then [ClearRect 0 0 width height; FillStyle backgroundColor;
                            FillRect 0 0 width height] else [] in
  let* blocks := mapM (fun e => match objs Hp !! e.2 with
                                | Some h => renderHex h (Some e.1) sh
                                | None => Err TypeError
                                end) (forEach map) in
  Ok (pre ++ concat blocks).

End Render.

(** [new HexMapRenderer(layout, backgroundColor = 'transparent')]: the
    default applies when the argument is [undefined]. *)
Record HexMapRenderer (Lay : Type) := mkHexMapRenderer { r_layout : Lay; backgroundColor : string }.
Arguments mkHexMapRenderer {Lay} _ _.
Arguments r_layout {Lay} _.
Arguments backgroundColor {Lay} _.

Definition new_HexMapRenderer {Lay : Type} (layout : Lay) (bg : option string) : HexMapRenderer Lay :=
  mkHexMapRenderer layout (match bg with Some c => c | None => "transparent" end).

(** [renderer.renderMap(ctx, map, shape, clear)] on the renderer's fields,
    for a canvas of [width] by [height]. *)
Definition renderMap_method `{LayoutOps Lay} (rd : HexMapRenderer Lay) (width height : R) (Hp : heap)
    (map : HexMap TestData) (sh : shape) (clear : bool) : result (list cmd) :=
  renderMap (r_layout rd) (backgroundColor rd) width height Hp map sh clear.

(** ** [HexLayout] implements the interface *)

#[export] Instance HexLayout_ops : LayoutOps HexLayout := {
  lay_hexToPixel := hexToPixel;
  lay_polygonCorners := polygonCorners;
  lay_size_y L := y (size L)
}.

#[export] Instance HexLayout_laws : LayoutLaws HexLayout.
Proof.
  constructor. intros L h. exists (map (corner_point L h) corners).
  split; [apply polygonCorners_ok | reflexivity].
Qed.

(** ** The shape of a block of calls *)

(** A closed path through the points, in order. *)
Definition outline (cs : list Point) : list cmd :=
  match cs with
  | [] => []
  | c0 :: rest => MoveTo (x c0) (y c0) :: map (fun c => LineTo (x c) (y c)) rest ++ [ClosePath]
  end.

Definition shape_path (sh : shape) (cs : list Point) (center : Point) (ry : R) : list cmd :=
  match sh with
  | Hexagon => outline cs
  | Circle => [Arc (x center) (y center) (ry / 2) 0 (2 * PI)]
  end.

Definition style (c : string) : list cmd := [FillStyle c; StrokeStyle c; LineWidth 2; Fill; Stroke].

Lemma hexagon_path_ok (cs : list Point) : length cs = 6%nat -> hexagon_path cs = Ok (outline cs).
Proof.
  destruct cs as [|c0 [|c1 [|c2 [|c3 [|c4 [|c5 [|? ?]]]]]]]; try discriminate. reflexivity.
Qed.

Section RenderLemmas.
Context `{LayoutLaws Lay}.
Variable layout : Lay.

Lemma renderHex_ok (h : hex) (data : option TestData) (sh : shape) :
  exists cs, lay_polygonCorners layout h = Ok cs /\ length cs = 6%nat /\
    renderHex layout h data sh
    = Ok (BeginPath :: shape_path sh cs (lay_hexToPixel layout h) (lay_size_y layout)
                    ++ style (fill_color data)).
Proof.
  destruct (lay_corners_six layout h) as (cs & E & Hl). exists cs. split; [exact E|]. split; [exact Hl|].
  unfold renderHex. rewrite E, bind_Ok. destruct sh; simpl; [rewrite hexagon_path_ok by exact Hl|]; reflexivity.
Qed.

End RenderLemmas.

(** The calls of [renderMap] entry by entry, for any layout with six
    corners per hex. *)
Lemma renderMap_spec `{LayoutLaws Lay} (layout : Lay) (bg : string) (w hgt : R)
    (Hp : heap) (hm : HexMap TestData) (sh : shape) :
  (forall l d, In (l, d) (hexData hm) -> is_Some (objs Hp !! l)) ->
  exists blocks,
    renderMap layout bg w hgt Hp hm sh true
      = Ok ([ClearRect 0 0 w hgt; FillStyle bg; FillRect 0 0 w hgt] ++ concat blocks) /\
    length blocks = length (hexData hm) /\
    forall i b, nth_error blocks i = Some b ->
      exists l d h cs, nth_error (hexData hm) i = Some (l, d) /\ objs Hp !! l = Some h /\
        lay_polygonCorners layout h = Ok cs /\ length cs = 6%nat /\
        b = BeginPath :: shape_path sh cs (lay_hexToPixel layout h) (lay_size_y layout)
                      ++ style (fill_color (Some d)).
Proof.
  intros Halloc. unfold renderMap.
  destruct (mapM_total (fun e => match objs Hp !! e.2 with
                                 | Some h => renderHex layout h (Some e.1) sh
                                 | None => Err TypeError end) (forEach hm)) as (blocks & E & Hl & Hn).
  - intros [d l] (e & [= <- <-] & Hin)%in_map_iff. destruct e as [l d]; simpl.
    destruct (Halloc l d Hin) as [h ->].
    destruct (renderHex_ok layout h (Some d) sh) as (cs & _ & _ & ->). eauto.
  - exists blocks. rewrite E, bind_Ok. split; [reflexivity|].
    split; [rewrite Hl; apply length_map|].
    intros i b Hb. destruct (Hn i b Hb) as ([d l] & Hi & Hf).
    unfold forEach in Hi. rewrite nth_error_map in Hi.
    destruct (nth_error (hexData hm) i) as [[l' d']|] eqn:Ei; [|discriminate].
    injection Hi as -> ->. simpl in Hf.
    destruct (objs Hp !! l) as [h|] eqn:Eh; [|discriminate].
    destruct (renderHex_ok layout h (Some d) sh) as (cs & Ec & Hc & Er).
    rewrite Er in Hf. injection Hf as <-. exists l, d, h, cs. auto.
Qed.

(** ** Theorems *)

(** C38: Against any layout with six corners per hex: when every key of the
    map is an allocated [Hex], [renderMap(ctx, map, shape)] never throws;
    its calls are the clearing prefix ([clearRect], the background
    [fillStyle], [fillRect] over the canvas) followed by one block per
    entry in [forEach] order, and the block of entry [i] (hex [h], payload
    [d]) begins a path, traces the closed outline through the six corners
    of [polygonCorners(h)] in order (or the circle of radius [size.y / 2]
    at [hexToPixel(h)]), sets both styles to [d.color || 'black'] and the
    line width to 2, then fills and strokes. *)
Theorem renderMap_trace `{LayoutLaws Lay} (layout : Lay) (bg : string) (w hgt : R)
    (Hp : heap) (hm : HexMap TestData) (sh : shape) :
  (forall l d, In (l, d) (hexData hm) -> is_Some (objs Hp !! l)) ->
  exists blocks,
    renderMap layout bg w hgt Hp hm sh true
      = Ok ([ClearRect 0 0 w hgt; FillStyle bg; FillRect 0 0 w hgt] ++ concat blocks) /\
    length blocks = length (hexData hm) /\
    forall i b, nth_error blocks i = Some b ->
      exists l d h cs, nth_error (hexData hm) i = Some (l, d) /\ objs Hp !! l = Some h /\
        lay_polygonCorners layout h = Ok cs /\ length cs = 6%nat /\
        b = BeginPath :: shape_path sh cs (lay_hexToPixel layout h) (lay_size_y layout)
                      ++ style (fill_color (Some d)).
Proof. apply renderMap_spec. Qed.

(** ** Witness *)

Lemma renderMap_trace_witness :
  exists blocks,
    renderMap (mkLayout pointy (mkPoint 10 10) (mkPoint 350 350)) "black" 700 700
      (mkHeap {[Loc 1 := (mkHexT 0 0 0)%Z]} 2) (mkHexMap [(Loc 1, mkTestData "red")]) Hexagon true
      = Ok ([ClearRect 0 0 700 700; FillStyle "black"; FillRect 0 0 700 700] ++ concat blocks) /\
    length blocks = length (hexData (mkHexMap [(Loc 1, mkTestData "red")])) /\
    forall i b, nth_error blocks i = Some b ->
      exists l d h cs, nth_error (hexData (mkHexMap [(Loc 1, mkTestData "red")])) i = Some (l, d) /\
        objs (mkHeap {[Loc 1 := (mkHexT 0 0 0)%Z]} 2) !! l = Some h /\
        lay_polygonCorners (mkLayout pointy (mkPoint 10 10) (mkPoint 350 350)) h = Ok cs /\
        length cs = 6%nat /\
        b = BeginPath :: shape_path Hexagon cs
                           (lay_hexToPixel (mkLayout pointy (mkPoint 10 10) (mkPoint 350 350)) h)
                           (lay_size_y (mkLayout pointy (mkPoint 10 10) (mkPoint 350 350)))
                      ++ style (fill_color (Some d)).
Proof.
  apply renderMap_trace. intros l d [[= <- <-] | []]. simpl.
  rewrite lookup_singleton_eq. eexists. reflexivity.
Defined.

End Renderer.
