(* ===== verification/Editor.v ===== *)
(** * Editor: the colour function of [src/src/components/editor/editor.tsx]

    The editor builds a [HexagonHexMap(gridSize, getHexColor)] whose colour
    function ([getHexColor], lines 55-91) shades the noise at the hex's
    pixel, [n = (perlin2(..) / 2 + 0.5) * (1 - h.len() / gridSize)], and
    samples the colour-picker gradient at [n]: it takes [nh =
    Math.ceil(n * 100)], walks the stops keeping the previous and the
    current one until [left.left <= nh < right.left], and mixes the two
    stops' colours with weight [(n - left.left / 100) / (right.left / 100 -
    left.left / 100)].  The colour library ([color]) and the picker are
    external: the result is the [Mix] call with its arguments.  The
    renderer's background is the first stop's colour.

    Numbers are rationals, with [None] for [NaN] and the infinities (the
    arithmetic that produces them is written out).  The pixel coordinates
    [p.x], [p.y] of [layout.hexToPixel(h)] are irrational for both
    orientations ([sqrt 3]), so they are inputs of [getHexColor] here; the
    layout itself is [editor_layout] of [Layout]. *)

From Stdlib Require Import ZArith QArith Qround Qabs Lqa Lia List Bool String Reals.
From S2P Require Import Prelude Hex FracHex Noise Layout.
Import ListNotations.
Import Hex FracHex Noise.

Module Editor.

(** ** The layout and the renderer's background (lines 36-50, 104-110) *)

Inductive orientation_choice := OPointy | OFlat.

(** [new HexLayout(orientation === 'pointy' ? pointy : flat,
    new Point(hexSize, hexSize), new Point(width / 2, height / 2))] *)
Definition editor_layout (o : orientation_choice) (hexSize width height : R) : Layout.HexLayout :=
  Layout.mkLayout (match o with OPointy => Layout.pointy | OFlat => Layout.flat end)
                  (Layout.mkPoint hexSize hexSize) (Layout.mkPoint (width / 2) (height / 2)).

Local Open Scope Q_scope.

(** A stop of the picker's gradient: [{ value, left }] ([left] in percent). *)
Record GradientStop := mkStop { value : string; left : Q }.

(** [getGradientObject()?.colors[0].value || 'black']; reading [.value] of
    the missing first stop of an empty gradient throws. *)
Definition background_color (gradient : option (list GradientStop)) : result string :=
  match gradient with
  | None => Ok "black"%string
  | Some [] => Err TypeError
  | Some (c :: _) => Ok (if String.eqb (value c) "" then "black"%string else value c)
  end.

(** ** The shade (lines 56-64) *)

(** [n = noise / 2 + 0.5; l = 1 - h.len() / gridSize; n *= l], [None]
    when [gridSize] is 0 ([0 / 0] is [NaN], [len / 0] is [Infinity]). *)
Definition shade (noise hexLen gridSize : Q) : option Q :=
  let n := noise / 2 + (1 # 2) in
  if Qeq_bool gridSize 0 then None else Some (n * (1 - hexLen / gridSize)).

(** ** Sampling the gradient (lines 66-91) *)

Definition stop_left (o : option GradientStop) : option Q := option_map left o.

(** [nh >= colorMix.left.left && nh < colorMix.right.left]; a comparison
    with [NaN] or [undefined] is false. *)
Definition in_bracket (nh : option Z) (l r : option GradientStop) : bool :=
  match nh, stop_left l, stop_left r with
  | Some v, Some a, Some b => Qle_bool a (inject_Z v) && negb (Qle_bool b (inject_Z v))
  | _, _, _ => false
  end.

(** [for (i = 0; i < colors.length; i++) { left = right; right = colors[i];
    if (in bracket) break; }] from [(left, right)]. *)
Fixpoint bracket (nh : option Z) (l r : option GradientStop) (cs : list GradientStop)
    : option GradientStop * option GradientStop :=
  match cs with
  | [] => (l, r)
  | c :: cs' => if in_bracket nh r (Some c) then (r, Some c) else bracket nh r (Some c) cs'
  end.

(** The value of [getHexColor]: ['black'], or [new Color(l).mix(new
    Color(r), weight).hex()] with its arguments ([None] for [undefined]
    colours and for a weight that is not finite). *)
Inductive hexColor := Black | Mix (lv rv : option string) (weight : option Q).

Definition mix_weight (n : option Q) (l r : option GradientStop) : option Q :=
  match n, stop_left l, stop_left r with
  | Some v, Some a, Some b =>
      if Qeq_bool (b / 100 - a / 100) 0 then None else Some ((v - a / 100) / (b / 100 - a / 100))
  | _, _, _ => None
  end.

Definition sample (gradient : option (list GradientStop)) (n : option Q) : hexColor :=
  match gradient with
  | None => Black
  | Some colors =>
      let first := hd_error colors in
      let nh := option_map (fun v => Qceiling (v * 100)) n in
      let (l, r) := bracket nh first first colors in
      Mix (option_map value l) (option_map value r) (mix_weight n l r)
  end.

(** [getHexColor(h)] for a hex whose pixel is [(px, py)]. *)
Definition getHexColor (P : list Z) (gridSize noiseScale offX offY : Q)
    (gradient : option (list GradientStop)) (px py : Q) (h : hex) : hexColor :=
  let noise := perlin2 P ((px + offX) * noiseScale) ((py + offY) * noiseScale) in
  sample gradient (shade noise (len h) gridSize).

(** ** Lemmas *)

Lemma last_default {A} (x : A) (l : list A) (d d' : A) : last (x :: l) d = last (x :: l) d'.
Proof. revert x. induction l as [|y l IH]; intros x; [reflexivity|]. apply IH. Qed.

Lemma last_cons {A} (c : A) (cs : list A) (d : A) : last (c :: cs) d = last cs c.
Proof.
  destruct cs as [|c' cs]; [reflexivity|].
  change (last (c' :: cs) d = last (c' :: cs) c). apply last_default.
Qed.

(** The loop stops at the first consecutive pair of stops that brackets
    [nh] when the first and the last stop do. *)
Lemma bracket_found (nh : Z) (cs : list GradientStop) :
  forall (prev : GradientStop) (l0 : option GradientStop),
    left prev <= inject_Z nh < left (last cs prev) ->
    exists a b, bracket (Some nh) l0 (Some prev) cs = (Some a, Some b) /\
      In a (prev :: cs) /\ In b cs /\ left a <= inject_Z nh < left b.
Proof.
  induction cs as [|c cs IH]; intros prev l0 [H1 H2]; [simpl in H2; lra|].
  rewrite last_cons in H2. simpl. unfold in_bracket; simpl.
  rewrite (proj2 (Qle_bool_iff _ _) H1). simpl.
  destruct (Qle_bool (left c) (inject_Z nh)) eqn:E; simpl.
  - apply Qle_bool_iff in E. destruct (IH c (Some prev)) as (a & b & Eb & Ha & Hb & Hab); [lra|].
    exists a, b. split; [exact Eb|]. split; [right; exact Ha|]. split; [right; exact Hb | exact Hab].
  - exists prev, c. split; [reflexivity|]. split; [left; reflexivity|]. split; [left; reflexivity|].
    split; [exact H1|]. apply Qnot_le_lt. intros Hc. apply Qle_bool_iff in Hc. congruence.
Qed.

Lemma Qceiling_bounds (x : Q) : inject_Z (Qceiling x) - 1 < x <= inject_Z (Qceiling x).
Proof.
  split; [|apply Qle_ceiling]. pose proof (Qceiling_lt x) as H.
  rewrite inject_Z_sub in H. exact H.
Qed.

Lemma in_bracket_same (nh : option Z) (c : GradientStop) : in_bracket nh (Some c) (Some c) = false.
Proof.
  unfold in_bracket; simpl. destruct nh as [v|]; [|reflexivity].
  destruct (Qle_bool (left c) (inject_Z v)); reflexivity.
Qed.

Lemma div100 (a : Q) : a / 100 == (1 # 100) * a.
Proof. field. Qed.

(** The weight of a bracket [a <= nh < b] is [(100 n - a) / (b - a)]. *)
Lemma mix_weight_bracket (n : Q) (a b : GradientStop) :
  left a < left b ->
  exists w, mix_weight (Some n) (Some a) (Some b) = Some w /\ w * (left b - left a) == n * 100 - left a.
Proof.
  intros Hab. unfold mix_weight; simpl.
  destruct (Qeq_bool (left b / 100 - left a / 100) 0) eqn:E.
  - apply Qeq_bool_eq in E. pose proof (div100 (left a)). pose proof (div100 (left b)). lra.
  - eexists. split; [reflexivity|]. field.
    pose proof (div100 (left a)). pose proof (div100 (left b)). intros Hc. lra.
Qed.

(** ** Theorems *)

(** C39: The shade of every hex of the editor's map is in [0, 1]: with
    [gridSize > 0] and a hex of the hexagon of radius [gridSize] ([len() =
    max(|q|, |r|, |s|) <= gridSize]), [(perlin2(x, y) / 2 + 0.5) * (1 -
    len / gridSize)] is a number of [0, 1] for every pixel; with
    [gridSize = 0], which the slider allows, the shade is [NaN] or
    infinite for every hex. *)
Theorem shade_in_unit_interval (P : list Z) (x y gridSize : Q) (h : hex) :
  0 < gridSize -> valid h -> inject_Z (max_norm h) <= gridSize ->
  (exists n, shade (perlin2 P x y) (len h) gridSize = Some n /\ 0 <= n <= 1) /\
  (forall v l, shade v l 0 = None).
Proof.
  intros Hg Hv Hm. split; [|reflexivity].
  pose proof (perlin2_abs_le_1 P x y) as Hp. apply Qabs_Qle_condition in Hp.
  pose proof (len_max_norm h Hv) as Hl. pose proof (max_norm_nonneg h) as H0.
  unfold shade. destruct (Qeq_bool gridSize 0) eqn:E; [apply Qeq_bool_eq in E; lra|].
  eexists. split; [reflexivity|].
  assert (0 <= len h / gridSize <= 1) as Hd.
  { split; [apply Qle_shift_div_l; [exact Hg|] | apply Qle_shift_div_r; [exact Hg|]];
      rewrite Hl; [rewrite Qmult_0_l | rewrite Qmult_1_l]; 
      [change 0 with (inject_Z 0); rewrite <- Zle_Qle; exact H0 | exact Hm]. }
  assert (E2 : perlin2 P x y / 2 == (1 # 2) * perlin2 P x y) by field. rewrite E2.
  assert (0 <= (1 # 2) * perlin2 P x y + (1 # 2) <= 1) as Ha by lra.
  assert (0 <= 1 - len h / gridSize <= 1) as Hb by lra.
  split; [apply Qmult_le_0_compat; lra|].
  apply (Qle_trans _ (1 * (1 - len h / gridSize))); [apply Qmult_le_compat_r; lra | lra].
Qed.

(** C40: Sampling the gradient at a shade [n] whose [nh = ceil(100 n)] lies
    between the first and the last stop: the loop stops at a pair of stops
    [a], [b] of the gradient with [a.left <= nh < b.left], and the mix
    weight [w = (n - a.left / 100) / (b.left / 100 - a.left / 100)] is a
    number with [w < 1] and [w (b.left - a.left) > -1].  It is not clamped
    to [0, 1]: because [nh] is rounded up, [n = 0.495] with stops at 0, 50
    and 100 mixes [gray] and [white] with weight [-0.01]; and past the last
    stop the loop ends on the last pair, so [n = 0.8] with stops at 0 and
    50 mixes with weight [1.6]. *)
Theorem sample_weight (c0 : GradientStop) (cs : list GradientStop) (n : Q) :
  left c0 <= inject_Z (Qceiling (n * 100)) < left (last cs c0) ->
  (exists a b w, sample (Some (c0 :: cs)) (Some n) = Mix (Some (value a)) (Some (value b)) (Some w) /\
     In a (c0 :: cs) /\ In b (c0 :: cs) /\ left a <= inject_Z (Qceiling (n * 100)) < left b /\
     -1 < w * (left b - left a) /\ w < 1) /\
  (exists w, sample (Some [mkStop "black" 0; mkStop "gray" 50; mkStop "white" 100]) (Some (99 # 200))
             = Mix (Some "gray"%string) (Some "white"%string) (Some w) /\ w == -(1 # 100)) /\
  (exists w, sample (Some [mkStop "black" 0; mkStop "white" 50]) (Some (4 # 5))
             = Mix (Some "black"%string) (Some "white"%string) (Some w) /\ w == 8 # 5).
Proof.
  intros Hn. split; [|split; eexists; split; vm_compute; reflexivity].
  unfold sample. cbn [hd_error option_map bracket]. rewrite in_bracket_same.
  destruct (bracket_found (Qceiling (n * 100)) cs c0 (Some c0) Hn) as (a & b & Eb & Ha & Hb & Hab).
  rewrite Eb. destruct (mix_weight_bracket n a b ltac:(lra)) as (w & Ew & Hw).
  rewrite Ew. exists a, b, w. split; [reflexivity|].
  split; [exact Ha|]. split; [right; exact Hb|]. split; [exact Hab|].
  pose proof (Qceiling_bounds (n * 100)). rewrite Hw. split; [lra|].
  apply Qnot_le_lt. intros Hw1.
  assert (1 * (left b - left a) <= w * (left b - left a)) by (apply Qmult_le_compat_r; lra).
  lra.
Qed.

(** ** Witnesses *)

Lemma shade_in_unit_interval_witness :
  (exists n, shade (perlin2 (map Z.of_nat (seq 0 256)) 3 5) (len (mkHexT 1 (-1) 0)%Z) 2 = Some n /\ 0 <= n <= 1) /\
  (forall v l, shade v l 0 = None).
Proof.
  apply (shade_in_unit_interval _ 3 5 2 (mkHexT 1 (-1) 0)%Z); [reflexivity | reflexivity | vm_compute; discriminate].
Defined.

Lemma sample_weight_witness :
  (exists a b w, sample (Some (mkStop "black" 0 :: [mkStop "white" 100])) (Some (1 # 4))
                 = Mix (Some (value a)) (Some (value b)) (Some w) /\
     In a (mkStop "black" 0 :: [mkStop "white" 100]) /\ In b (mkStop "black" 0 :: [mkStop "white" 100]) /\
     left a <= inject_Z (Qceiling ((1 # 4) * 100)) < left b /\
     -1 < w * (left b - left a) /\ w < 1) /\
  (exists w, sample (Some [mkStop "black" 0; mkStop "gray" 50; mkStop "white" 100]) (Some (99 # 200))
             = Mix (Some "gray"%string) (Some "white"%string) (Some w) /\ w == -(1 # 100)) /\
  (exists w, sample (Some [mkStop "black" 0; mkStop "white" 50]) (Some (4 # 5))
             = Mix (Some "black"%string) (Some "white"%string) (Some w) /\ w == 8 # 5).
Proof.
  apply sample_weight. split; vm_compute; [discriminate | reflexivity].
Defined.

End Editor.
