(* ===== verification/EditorState.v ===== *)
(** * EditorState: the React state machine of [HexEditor]

    [src/src/components/editor/editor.tsx] keeps eight pieces of state
    ([useState], lines 23-31), derives the layout, the map and the renderer
    with [useMemo] (lines 36-110) and draws in a [useEffect] (lines
    112-133).  React re-runs a memo's function only when an entry of its
    dependency array differs ([Object.is]) from the previous render, and
    re-runs the effect only when one of its dependencies differs; objects
    (the layout, the map, the renderer) are compared by identity, which the
    model represents by a version number given to each recomputed value.

    The functions of the map and renderer memos are parameters: their
    arguments are exactly what their closures read ([getHexColor] reads
    [gridSize], [layout], [noiseScale], the offsets and the gradient of
    [color]; the renderer reads [layout] and [color]); the layout memo is
    [Editor.editor_layout].  A UI event is one setter call from the
    handlers of the sliders and selects (lines 144-224) or new props,
    followed by a render.

    Theorem: in every state reached from the mount, the canvas holds the
    frame drawn from the current state: the dependency arrays of the code
    are complete. *)

From Stdlib Require Import ZArith QArith Reals List String Lia.
From S2P Require Import Prelude Layout Renderer Editor.
Import ListNotations.
Import Editor.

Module EditorState.

(** A value of a dependency array. *)
Inductive dep :=
  | DR (x : R) | DZ (x : Z) | DQ (x : Q) | DS (x : string)
  | DOri (o : orientation_choice) | DShape (s : Renderer.shape) | DRef (v : nat).

(** The component's props and state. *)
Record params := mkParams {
  width : R; height : R;
  gridSize : Z; hexSize : R; orientation : orientation_choice; shape : Renderer.shape;
  noiseScale : Q; noiseOffsetX : Q; noiseOffsetY : Q; color : string }.

(** The initial state of lines 23-31 for the props [width], [height]. *)
Definition initial_params (w h : R) : params :=
  mkParams w h 20%Z 10 OPointy Renderer.Hexagon (4 # 100) 0 0
           "linear-gradient(90deg, rgba(0,0,0,1) 0%, rgba(255,255,255,1) 100%)".

(** A memoised value with its dependencies and its identity. *)
Record memo (A : Type) := mkMemo { m_deps : list dep; m_val : A; m_ver : nat }.
Arguments mkMemo {A} _ _ _.
Arguments m_deps {A} _.
Arguments m_val {A} _.
Arguments m_ver {A} _.

(** The dependency arrays of lines 44-49, 94-101, 106-109 and 126-132. *)
Definition layout_deps (p : params) : list dep :=
  [DR (width p); DR (height p); DR (hexSize p); DOri (orientation p)].
Definition map_deps (p : params) (layout_ver : nat) : list dep :=
  [DZ (gridSize p); DRef layout_ver; DQ (noiseScale p); DQ (noiseOffsetX p);
   DQ (noiseOffsetY p); DS (color p)].
Definition renderer_deps (p : params) (layout_ver : nat) : list dep :=
  [DRef layout_ver; DS (color p)].
Definition effect_deps (p : params) (map_ver renderer_ver : nat) : list dep :=
  [DR (width p); DR (height p); DRef map_ver; DRef renderer_ver; DShape (shape p)].

(** [useMemo(f, deps)] with the next fresh identity [n]. *)
Inductive use_memo {A : Type} (deps : list dep) (v : A) : memo A -> nat -> memo A -> nat -> Prop :=
  | memo_keep m n : m_deps m = deps -> use_memo deps v m n m n
  | memo_recompute m n : m_deps m <> deps -> use_memo deps v m n (mkMemo deps v n) (S n).

(** [useEffect(run, deps)]: the effect runs, and the canvas takes the frame
    it draws, when the dependencies changed.  The guards
    [if (!canvas) return] and [if (!ctx) return] pass once the canvas is
    mounted with a 2D context, which the model assumes. *)
Inductive use_effect {F : Type} (deps : list dep) (run : F) : list dep -> F -> list dep -> F -> Prop :=
  | effect_skip old c : old = deps -> use_effect deps run old c old c
  | effect_run old c : old <> deps -> use_effect deps run old c deps run.

(** The UI events: the setters called by the handlers, and new props. *)
Inductive event :=
  | SetOrientation (o : orientation_choice) | SetShape (s : Renderer.shape)
  | SetGridSize (v : Z) | SetHexSize (v : R) | SetNoiseScale (v : Q)
  | SetNoiseOffsetX (v : Q) | SetNoiseOffsetY (v : Q) | SetColor (c : string)
  | SetProps (w h : R).

Definition apply_event (p : params) (e : event) : params :=
  match e with
  | SetOrientation o => mkParams (width p) (height p) (gridSize p) (hexSize p) o (shape p)
                          (noiseScale p) (noiseOffsetX p) (noiseOffsetY p) (color p)
  | SetShape s => mkParams (width p) (height p) (gridSize p) (hexSize p) (orientation p) s
                    (noiseScale p) (noiseOffsetX p) (noiseOffsetY p) (color p)
  | SetGridSize v => mkParams (width p) (height p) v (hexSize p) (orientation p) (shape p)
                       (noiseScale p) (noiseOffsetX p) (noiseOffsetY p) (color p)
  | SetHexSize v => mkParams (width p) (height p) (gridSize p) v (orientation p) (shape p)
                      (noiseScale p) (noiseOffsetX p) (noiseOffsetY p) (color p)
  | SetNoiseScale v => mkParams (width p) (height p) (gridSize p) (hexSize p) (orientation p)
                         (shape p) v (noiseOffsetX p) (noiseOffsetY p) (color p)
  | SetNoiseOffsetX v => mkParams (width p) (height p) (gridSize p) (hexSize p) (orientation p)
                           (shape p) (noiseScale p) v (noiseOffsetY p) (color p)
  | SetNoiseOffsetY v => mkParams (width p) (height p) (gridSize p) (hexSize p) (orientation p)
                           (shape p) (noiseScale p) (noiseOffsetX p) v (color p)
  | SetColor c => mkParams (width p) (height p) (gridSize p) (hexSize p) (orientation p)
                    (shape p) (noiseScale p) (noiseOffsetX p) (noiseOffsetY p) c
  | SetProps w h => mkParams w h (gridSize p) (hexSize p) (orientation p) (shape p)
                      (noiseScale p) (noiseOffsetX p) (noiseOffsetY p) (color p)
  end.

Section Component.

(** The memoised map and renderer and the frame drawn by
    [renderer.renderMap(ctx, map, shape)] on a canvas of the props' size. *)
Context {MapT RendT FrameT : Type}.
Variable map_of : Z -> Layout.HexLayout -> Q -> Q -> Q -> string -> MapT.
Variable renderer_of : Layout.HexLayout -> string -> RendT.
Variable draw : R -> R -> MapT -> RendT -> Renderer.shape -> FrameT.

(** The component between two renders: state, memos, the effect's last
    dependencies, the canvas and the next fresh identity. *)
Record ui := mkUi {
  prm : params; lay : memo Layout.HexLayout; mp : memo MapT; rd : memo RendT;
  eff : list dep; canvas : FrameT; next_ver : nat }.

Definition layout_of (p : params) : Layout.HexLayout :=
  editor_layout (orientation p) (hexSize p) (width p) (height p).

(** A render with state [p]: the three memos in order, then the effect,
    which draws when its dependencies changed. *)
Inductive render (u : ui) (p : params) : ui -> Prop :=
  | render_intro l1 n1 m1 n2 r1 n3 e1 c1 :
      use_memo (layout_deps p) (layout_of p) (lay u) (next_ver u) l1 n1 ->
      use_memo (map_deps p (m_ver l1))
               (map_of (gridSize p) (m_val l1) (noiseScale p) (noiseOffsetX p)
                       (noiseOffsetY p) (color p)) (mp u) n1 m1 n2 ->
      use_memo (renderer_deps p (m_ver l1)) (renderer_of (m_val l1) (color p)) (rd u) n2 r1 n3 ->
      use_effect (effect_deps p (m_ver m1) (m_ver r1))
                 (draw (width p) (height p) (m_val m1) (m_val r1) (shape p))
                 (eff u) (canvas u) e1 c1 ->
      render u p (mkUi p l1 m1 r1 e1 c1 n3).

(** The first render and its effect, on the mount. *)
Definition mount (p : params) : ui :=
  let l := mkMemo (layout_deps p) (layout_of p) 0 in
  let m := mkMemo (map_deps p 0) (map_of (gridSize p) (layout_of p) (noiseScale p)
                                         (noiseOffsetX p) (noiseOffsetY p) (color p)) 1 in
  let r := mkMemo (renderer_deps p 0) (renderer_of (layout_of p) (color p)) 2 in
  mkUi p l m r (effect_deps p 1 2) (draw (width p) (height p) (m_val m) (m_val r) (shape p)) 3.

(** A setter call (or new props), then a render. *)
Inductive ui_step (u u' : ui) : Prop :=
  | ui_event (e : event) : render u (apply_event (prm u) e) u' -> ui_step u u'.

(** The frame of a state, computed from scratch. *)
Definition frame_of (p : params) : FrameT :=
  draw (width p) (height p)
       (map_of (gridSize p) (layout_of p) (noiseScale p) (noiseOffsetX p) (noiseOffsetY p) (color p))
       (renderer_of (layout_of p) (color p)) (shape p).

End Component.

(** ** Lemmas *)

(** A memo whose value matches its dependencies keeps matching: it is kept
    only on equal dependencies, and is otherwise recomputed with the fresh
    identity [n]. *)
Lemma memo_step {A : Type} (d_old d_new : list dep) (v_old v_new : A) m n m' n' :
  (d_new = d_old -> v_new = v_old) ->
  m_val m = v_old -> m_deps m = d_old -> (m_ver m < n)%nat ->
  use_memo d_new v_new m n m' n' ->
  m_val m' = v_new /\ m_deps m' = d_new /\ (m_ver m' < n')%nat /\ (n <= n')%nat /\ (m' = m \/ m_ver m' = n).
Proof.
  intros Hinj Hv Hd Hn Hm. destruct Hm as [m0 n0 Hk|m0 n0 Hk].
  - rewrite Hv, (Hinj (eq_trans (eq_sym Hk) Hd)). repeat split; auto; lia.
  - simpl. repeat split; auto.
Qed.

Lemma effect_step {F : Type} (d_old d_new : list dep) (c_old run : F) e c :
  (d_new = d_old -> run = c_old) ->
  use_effect d_new run d_old c_old e c -> e = d_new /\ c = run.
Proof. intros Hinj He. inversion He; subst; auto. rewrite (Hinj eq_refl). auto. Qed.

Section Invariant.
Context {MapT RendT FrameT : Type}.
Variable map_of : Z -> Layout.HexLayout -> Q -> Q -> Q -> string -> MapT.
Variable renderer_of : Layout.HexLayout -> string -> RendT.
Variable draw : R -> R -> MapT -> RendT -> Renderer.shape -> FrameT.

(** Every memo holds the value of its dependencies, the effect's last
    dependencies are the current ones and the canvas holds their frame. *)
Definition consistent (u : ui) : Prop :=
  let p := prm u in
  m_val (lay u) = layout_of p /\ m_deps (lay u) = layout_deps p /\ (m_ver (lay u) < next_ver u)%nat /\
  m_val (mp u) = map_of (gridSize p) (m_val (lay u)) (noiseScale p) (noiseOffsetX p)
                        (noiseOffsetY p) (color p) /\
  m_deps (mp u) = map_deps p (m_ver (lay u)) /\ (m_ver (mp u) < next_ver u)%nat /\
  m_val (rd u) = renderer_of (m_val (lay u)) (color p) /\
  m_deps (rd u) = renderer_deps p (m_ver (lay u)) /\ (m_ver (rd u) < next_ver u)%nat /\
  eff u = effect_deps p (m_ver (mp u)) (m_ver (rd u)) /\
  canvas u = draw (width p) (height p) (m_val (mp u)) (m_val (rd u)) (shape p).

(** A memo at a new identity differs from one below it. *)
Lemma fresh_or_same {A : Type} (m m' : memo A) (n : nat) :
  (m_ver m < n)%nat -> (m' = m \/ m_ver m' = n) -> m_ver m' = m_ver m -> m' = m.
Proof. intros H [->|E] E'; [reflexivity | lia]. Qed.

Lemma render_consistent (u u' : ui) (p : params) :
  consistent u -> render map_of renderer_of draw u p u' -> consistent u'.
Proof.
  intros (Lv & Ld & Ln & Mv & Md & Mn & Rv & Rd & Rn & E & C) Hr.
  inversion Hr as [l1 n1 m1 n2 r1 n3 e1 c1 HL HM HR HE]; subst; unfold consistent; simpl.
  assert (IL : layout_deps p = layout_deps (prm u) -> layout_of p = layout_of (prm u))
    by (intros D; injection D; intros; unfold layout_of; congruence).
  destruct (memo_step _ _ _ _ _ _ _ _ IL Lv Ld Ln HL) as (L1v & L1d & L1n & Ln1 & L1s).
  assert (IM : map_deps p (m_ver l1) = map_deps (prm u) (m_ver (lay u)) ->
               map_of (gridSize p) (m_val l1) (noiseScale p) (noiseOffsetX p) (noiseOffsetY p) (color p)
               = map_of (gridSize (prm u)) (m_val (lay u)) (noiseScale (prm u)) (noiseOffsetX (prm u))
                        (noiseOffsetY (prm u)) (color (prm u))).
  { intros D; injection D; intros.
    rewrite (fresh_or_same _ _ _ Ln L1s) by congruence. congruence. }
  destruct (memo_step _ _ _ _ _ _ _ _ IM Mv Md (Nat.lt_le_trans _ _ _ Mn Ln1) HM) as (M1v & M1d & M1n & Mn2 & M1s).
  assert (IR : renderer_deps p (m_ver l1) = renderer_deps (prm u) (m_ver (lay u)) ->
               renderer_of (m_val l1) (color p) = renderer_of (m_val (lay u)) (color (prm u))).
  { intros D; injection D; intros.
    rewrite (fresh_or_same _ _ _ Ln L1s) by congruence. congruence. }
  destruct (memo_step _ _ _ _ _ _ _ _ IR Rv Rd (Nat.lt_le_trans _ _ _ Rn (Nat.le_trans _ _ _ Ln1 Mn2)) HR) as (R1v & R1d & R1n & Rn3 & R1s).
  rewrite E in HE.
  assert (IE : effect_deps p (m_ver m1) (m_ver r1) = effect_deps (prm u) (m_ver (mp u)) (m_ver (rd u)) ->
               draw (width p) (height p) (m_val m1) (m_val r1) (shape p) = canvas u).
  { intros D; injection D; intros.
    rewrite C, (fresh_or_same _ _ _ (Nat.lt_le_trans _ _ _ Mn Ln1) M1s),
      (fresh_or_same _ _ _ (Nat.lt_le_trans _ _ _ Rn (Nat.le_trans _ _ _ Ln1 Mn2)) R1s)
      by congruence. congruence. }
  destruct (effect_step _ _ _ _ _ _ IE HE) as [-> ->].
  rewrite M1v, R1v, L1v. repeat split; auto; lia.
Qed.

Lemma mount_consistent (p : params) : consistent (mount map_of renderer_of draw p).
Proof. unfold consistent; simpl. repeat split; auto. Qed.

Lemma ui_step_consistent (u u' : ui) :
  consistent u -> ui_step map_of renderer_of draw u u' -> consistent u'.
Proof. intros Hc [e Hr]. exact (render_consistent _ _ _ Hc Hr). Qed.

Lemma reachable_consistent (p0 : params) (u : ui) :
  star (ui_step map_of renderer_of draw) (mount map_of renderer_of draw p0) u -> consistent u.
Proof. apply star_invariant; [apply ui_step_consistent | apply mount_consistent]. Qed.

End Invariant.

(** A concrete instance: the map and the renderer record their arguments
    and the frame records what it was drawn from. *)
Definition probe_map (g : Z) (_ : Layout.HexLayout) (ns ox oy : Q) (c : string) :=
  (g, ns, ox, oy, c).
Definition probe_renderer (_ : Layout.HexLayout) (c : string) := c.
Definition probe_draw (w h : R) (m : Z * Q * Q * Q * string) (r : string) (s : Renderer.shape) :=
  (m, r, s).

(** ** Theorems *)

(** C13: The dependency arrays of [HexEditor] are complete: after the mount
    and any sequence of setter calls and new props, each followed by a
    render in which the memos recompute only when their dependencies
    changed and the effect draws only when its dependencies changed, the
    canvas holds exactly the frame computed from scratch from the current
    state (layout, map and renderer rebuilt, the map drawn in the current
    shape on a canvas of the current size). *)
Theorem canvas_current {MapT RendT FrameT : Type}
    (map_of : Z -> Layout.HexLayout -> Q -> Q -> Q -> string -> MapT)
    (renderer_of : Layout.HexLayout -> string -> RendT)
    (draw : R -> R -> MapT -> RendT -> Renderer.shape -> FrameT) (p0 : params) (u : ui) :
  star (ui_step map_of renderer_of draw) (mount map_of renderer_of draw p0) u ->
  canvas u = frame_of map_of renderer_of draw (prm u).
Proof.
  intros Hs. destruct (reachable_consistent _ _ _ _ _ Hs) as (Lv & _ & _ & Mv & _ & _ & Rv & _ & _ & _ & C).
  rewrite C, Mv, Rv, Lv. reflexivity.
Qed.

(** ** Witness *)

Lemma canvas_current_witness :
  exists u, star (ui_step probe_map probe_renderer probe_draw)
                 (mount probe_map probe_renderer probe_draw (initial_params 700 700)) u /\
            shape (prm u) = Renderer.Circle /\
            canvas u = frame_of probe_map probe_renderer probe_draw (prm u).
Proof.
  eassert (Hs : star (ui_step probe_map probe_renderer probe_draw)
                     (mount probe_map probe_renderer probe_draw (initial_params 700 700)) _).
  { apply star_one. apply (ui_event _ _ _ _ _ (SetShape Renderer.Circle)).
    econstructor; [apply memo_keep; reflexivity .. | apply effect_run; discriminate]. }
  eexists. split; [exact Hs|]. split; [reflexivity|].
  apply (canvas_current _ _ _ _ _ Hs).
Defined.

End EditorState.
