(* ===== verification/Pipeline.v ===== *)
(** * Pipeline: what the editor draws

    The composition of the components as [HexEditor] wires them
    ([src/src/components/editor/editor.tsx], lines 52-124): the map memo
    builds [new HexagonHexMap(gridSize, getHexColor)] ([HexMap]) with the
    colour function of [Editor], the renderer memo builds
    [new HexMapRenderer(layout, background)] ([Renderer]), and the effect
    calls [renderer.renderMap(ctx, map, shape)].  These are the functions
    that [EditorState] takes as parameters; instantiated here, its
    invariant and the theorems of [HexMap] and [Renderer] combine into
    the picture on the canvas.

    Parameters of the section, for what the sources delegate to libraries:
    the table [P] of [./p]; the pixel [pixel L h] of [layout.hexToPixel(h)]
    as the rational numbers that [perlin2] receives; the gradient
    [gradient_of color] that [useColorPicker(color).getGradientObject()]
    parses; and [color_hex], the [color] package's
    [Color(..).mix(..).hex()].  Each recomputed map allocates its [Hex]
    objects afresh; the model gives it a fresh heap, since the references
    are only compared with each other. *)

From Stdlib Require Import ZArith QArith Reals List String.
From stdpp Require Import base gmap list.
From S2P Require Import Prelude Hex FracHex HexMap Layout Renderer Editor EditorState.
Import ListNotations.
Import Hex FracHex HexMap Layout Renderer Editor EditorState.

Module Pipeline.

(** A concrete instance of the libraries, for the witness: every pixel at
    the origin, a one-stop black gradient, every mixed colour red. *)
Definition demo_pixel (_ : HexLayout) (_ : hex) : Q * Q := (0, 0)%Q.
Definition demo_gradient (_ : string) : option (list GradientStop) := Some [mkStop "black" 0].
Definition demo_color_hex (_ : hexColor) : string := "red".

Section Pipeline.
Variable P : list Z.
Variable pixel : HexLayout -> hex -> Q * Q.
Variable gradient_of : string -> option (list GradientStop).
Variable color_hex : hexColor -> string.

(** [getHexColor] of lines 55-92, with the colour as the string stored. *)
Definition cell_color (g : Z) (L : HexLayout) (ns ox oy : Q) (c : string) (h : hex) : string :=
  color_hex (getHexColor P (inject_Z g) ns ox oy (gradient_of c) (fst (pixel L h)) (snd (pixel L h)) h).

(** The map memo of lines 52-102. *)
Definition editor_map (g : Z) (L : HexLayout) (ns ox oy : Q) (c : string) : result pop_state :=
  HexagonHexMap (cell_color g L ns ox oy c) g (mkHeap ∅ 1).

(** The renderer memo of lines 104-110. *)
Definition editor_renderer (L : HexLayout) (c : string) : result (HexMapRenderer HexLayout) :=
  let* bg := background_color (gradient_of c) in Ok (new_HexMapRenderer L (Some bg)).

(** The effect's call of lines 120-124 ([clear] takes its default [true]);
    a memo that threw has ended the render before. *)
Definition editor_draw (w h : R) (m : result pop_state) (rd : result (HexMapRenderer HexLayout))
    (sh : Renderer.shape) : result (list cmd) :=
  let* st := m in let* rdr := rd in renderMap_method rdr w h st.1 st.2 sh true.

(** ** Lemmas *)

(** Entry [i] of a map whose dereferenced entries are [map cell_out hs]. *)
Lemma deref_nth (gc : hex -> string) (st : pop_state) (hs : list hex) (i : nat) l d h :
  deref_entries st = map (cell_out gc) hs ->
  nth_error (hexData st.2) i = Some (l, d) -> objs st.1 !! l = Some h ->
  nth_error hs i = Some h /\ d = mkTestData (gc h).
Proof.
  intros V Ei Eh. apply (f_equal (fun xs => nth_error xs i)) in V.
  unfold deref_entries in V. rewrite !nth_error_map, Ei in V. simpl in V. rewrite Eh in V.
  destruct (nth_error hs i) as [h'|]; [|discriminate]. injection V as -> ->. auto.
Qed.

Lemma pop_inv_alloc (st : pop_state) :
  pop_inv st -> forall l d, In (l, d) (hexData st.2) -> is_Some (objs st.1 !! l).
Proof.
  intros (_ & _ & Hk) l d Hin. apply Hk, list_elem_of_In, in_map_iff. exists (l, d). auto.
Qed.

(** ** Theorems *)

(** C14: What the editor shows: in every state reached from the mount by
    setter calls and renders, when the gradient gives the background [bg],
    the canvas holds the calls of [renderMap] on the current state: the
    canvas cleared and painted [bg], then one block per hex of the hexagon
    of radius [gridSize] in the constructor's loop order, block [i]
    tracing hex [h] (its six [polygonCorners], or the circle at
    [hexToPixel(h)]) in the current shape and layout, filled and stroked
    with the colour [getHexColor(h)] computed from the current noise
    settings and gradient. *)
Theorem editor_canvas (p0 : params) (u : ui) (bg : string) :
  star (ui_step editor_map editor_renderer editor_draw) (mount editor_map editor_renderer editor_draw p0) u ->
  background_color (gradient_of (color (prm u))) = Ok bg ->
  exists blocks,
    canvas u = Ok ([ClearRect 0 0 (width (prm u)) (height (prm u)); FillStyle bg;
                    FillRect 0 0 (width (prm u)) (height (prm u))] ++ concat blocks) /\
    length blocks = length (hexes_within (gridSize (prm u))) /\
    forall i h, nth_error (hexes_within (gridSize (prm u))) i = Some h ->
      exists cs b, nth_error blocks i = Some b /\ polygonCorners (layout_of (prm u)) h = Ok cs /\
        b = BeginPath :: shape_path (shape (prm u)) cs (hexToPixel (layout_of (prm u)) h)
                                    (y (size (layout_of (prm u))))
            ++ style (fill_color (Some (mkTestData
                 (cell_color (gridSize (prm u)) (layout_of (prm u)) (noiseScale (prm u))
                             (noiseOffsetX (prm u)) (noiseOffsetY (prm u)) (color (prm u)) h)))).
Proof.
  intros Hs Hbg.
  destruct (reachable_consistent _ _ _ _ _ Hs) as (Lv & _ & _ & Mv & _ & _ & Rv & _ & _ & _ & C).
  rewrite C, Mv, Rv, Lv. clear C Mv Rv Lv Hs.
  set (p := prm u) in *. set (L := layout_of p).
  set (gc := cell_color (gridSize p) L (noiseScale p) (noiseOffsetX p) (noiseOffsetY p) (color p)).
  destruct (HexagonHexMap_spec gc (gridSize p) (mkHeap ∅ 1) empty_heap_wf) as (st & E & Hinv & V).
  unfold editor_draw, editor_map, editor_renderer. fold gc. rewrite E, Hbg, !bind_Ok.
  destruct (renderMap_spec L bg (width p) (height p) st.1 st.2 (shape p) (pop_inv_alloc st Hinv))
    as (blocks & Er & Hl & Hn).
  exists blocks. split; [exact Er|].
  assert (Hlen : length blocks = length (hexes_within (gridSize p))).
  { rewrite Hl. apply (f_equal length) in V. unfold deref_entries in V. rewrite !length_map in V. exact V. }
  split; [exact Hlen|]. intros i h Hi.
  assert (Hlt : (i < length (hexes_within (gridSize p)))%nat) by (apply nth_error_Some; congruence).
  destruct (nth_error blocks i) as [b|] eqn:Eb; [|apply nth_error_None in Eb; lia].
  destruct (Hn i b Eb) as (l & d & h' & cs & Ei & Eh & Ec & _ & ->).
  destruct (deref_nth gc st _ i l d h' V Ei Eh) as [Hi' ->].
  rewrite Hi in Hi'. injection Hi' as <-. exists cs. eexists. split; [reflexivity|]. split; [exact Ec | reflexivity].
Qed.


End Pipeline.


(** ** Witness *)

Lemma editor_canvas_witness :
  exists u,
    star (ui_step (editor_map [] demo_pixel demo_gradient demo_color_hex)
                  (editor_renderer demo_gradient) editor_draw)
         (mount (editor_map [] demo_pixel demo_gradient demo_color_hex)
                (editor_renderer demo_gradient) editor_draw (initial_params 700 700)) u /\
    shape (prm u) = Renderer.Circle /\
    exists blocks,
      canvas u = Ok ([ClearRect 0 0 (width (prm u)) (height (prm u)); FillStyle "black";
                      FillRect 0 0 (width (prm u)) (height (prm u))] ++ concat blocks) /\
      length blocks = length (hexes_within (gridSize (prm u))) /\
      forall i h, nth_error (hexes_within (gridSize (prm u))) i = Some h ->
        exists cs b, nth_error blocks i = Some b /\ polygonCorners (layout_of (prm u)) h = Ok cs /\
          b = BeginPath :: shape_path (shape (prm u)) cs (hexToPixel (layout_of (prm u)) h)
                                      (y (size (layout_of (prm u))))
              ++ style (fill_color (Some (mkTestData
                   (cell_color [] demo_pixel demo_gradient demo_color_hex (gridSize (prm u))
                               (layout_of (prm u)) (noiseScale (prm u)) (noiseOffsetX (prm u))
                               (noiseOffsetY (prm u)) (color (prm u)) h)))).
Proof.
  eassert (Hs : star (ui_step (editor_map [] demo_pixel demo_gradient demo_color_hex)
                              (editor_renderer demo_gradient) editor_draw)
                     (mount (editor_map [] demo_pixel demo_gradient demo_color_hex)
                            (editor_renderer demo_gradient) editor_draw (initial_params 700 700)) _).
  { apply star_one. apply (ui_event _ _ _ _ _ (SetShape Renderer.Circle)).
    econstructor; [apply memo_keep; reflexivity .. | apply effect_run; discriminate]. }
  eexists. split; [exact Hs|]. split; [reflexivity|].
  apply (editor_canvas [] demo_pixel demo_gradient demo_color_hex _ _ "black" Hs). reflexivity.
Defined.

End Pipeline.
